(** * Base Live Filter: a shallow embedding of [main.ts]

    The plugin keeps a tag query typed by the user in sync with a managed
    region of a Markdown note.  This development embeds the pure core of
    [main.ts] (block location and splicing, tag matching and merging, the
    filter generator, the state codec and the debounce closure) and proves
    the properties the design document states about it.

    Conventions.
    - A JavaScript string is the list of its UTF-16 code units ([list N]);
      array indices and offsets are [Z], as [indexOf] answers [-1].
    - Host functions whose tables are not part of the program
      ([String.prototype.toLowerCase]) are fields of the class [Host].
    - [encodeURIComponent], [decodeURIComponent], the two regular
      expressions and [setTimeout]/[clearTimeout] follow ECMAScript and the
      HTML timer model. *)

From Stdlib Require Import ZArith NArith Lia String Ascii DecimalN DecimalFacts DecimalPos.
From stdpp Require Import base list gmap sorting.

Local Open Scope Z_scope.

(** ** Strings as code-unit lists *)

Abbreviation jstr := (list N).

(** A literal of the source, written with a Rocq string (ASCII only). *)
Definition lit (s : String.string) : jstr :=
  List.map N_of_ascii (list_ascii_of_string s).

Definition NL : jstr := [10%N].
Definition DQUOTE : N := 34%N.
Definition BACKSLASH : N := 92%N.
Definition HASH : N := 35%N.
Definition SPACE : N := 32%N.
Definition PERCENT : N := 37%N.

Definition len {A} (l : list A) : Z := Z.of_nat (length l).

Fixpoint jstr_eqb (a b : jstr) : bool :=
  match a, b with
  | [], [] => true
  | x :: a', y :: b' => N.eqb x y && jstr_eqb a' b'
  | _, _ => false
  end.

(** The host runtime: what the program calls but does not define. *)
Class Host := {
  toLowerCase : jstr -> jstr;
  toLowerCase_empty : toLowerCase [] = []
}.

Module JS.

(** [relIndex len i]: a relative index of [slice], clamped to [0, len]. *)
Definition relIndex (n i : Z) : Z :=
  if i <? 0 then Z.max (n + i) 0 else Z.min i n.

(** [String.prototype.slice] and [Array.prototype.slice]. *)
Definition slice {A} (l : list A) (b e : Z) : list A :=
  let from := relIndex (len l) b in
  let to := relIndex (len l) e in
  take (Z.to_nat (to - from)) (drop (Z.to_nat from) l).

(** [l.slice(b)]: the end defaults to the length. *)
Definition sliceFrom {A} (l : list A) (b : Z) : list A :=
  slice l b (len l).

(** [s.startsWith(pat)]. *)
Fixpoint startsWith (s pat : jstr) {struct pat} : bool :=
  match pat, s with
  | [], _ => true
  | p :: pat', c :: s' => N.eqb c p && startsWith s' pat'
  | _ :: _, [] => false
  end.

(** [s.endsWith(pat)]: the last [|pat|] code units are [pat]. *)
Definition endsWith (s pat : jstr) : bool :=
  (length pat <=? length s)%nat
  && jstr_eqb (drop (length s - length pat)%nat s) pat.

(** The scan of [indexOf]: [s] is the text from offset [k] on. *)
Fixpoint indexOfFrom (pat s : jstr) (k : Z) : Z :=
  if startsWith s pat then k
  else match s with
       | [] => -1
       | _ :: s' => indexOfFrom pat s' (k + 1)
       end.

(** [s.indexOf(pat, pos)]: the position is clamped to [0, |s|]. *)
Definition indexOf (s pat : jstr) (pos : Z) : Z :=
  let start := Z.min (Z.max pos 0) (len s) in
  indexOfFrom pat (drop (Z.to_nat start) s) start.

(** [s.includes(pat)]. *)
Definition includes (s pat : jstr) : bool := 0 <=? indexOf s pat 0.

(** The scan of [lastIndexOf] for one code unit: the index of the last
    occurrence in [s], whose first element has index [k]. *)
Fixpoint lastIndexOfFrom (c : N) (s : jstr) (k : Z) : Z :=
  match s with
  | [] => -1
  | x :: s' =>
      let r := lastIndexOfFrom c s' (k + 1) in
      if 0 <=? r then r else if N.eqb x c then k else -1
  end.

Definition lastIndexOf (s : jstr) (c : N) : Z := lastIndexOfFrom c s 0.

(** [arr.join(sep)]. *)
Fixpoint join (sep : jstr) (parts : list jstr) : jstr :=
  match parts with
  | [] => []
  | [p] => p
  | p :: ps => p ++ sep ++ join sep ps
  end.

(** White space and line terminators of ECMAScript: what [\s], [trim]
    and [split(/\s+/)] recognise. *)
Definition isLineTerminator (c : N) : bool :=
  (N.eqb c 10 || N.eqb c 13 || N.eqb c 8232 || N.eqb c 8233)%N.

Definition isWhiteSpace (c : N) : bool :=
  (N.eqb c 9 || N.eqb c 11 || N.eqb c 12 || N.eqb c 32 || N.eqb c 160
   || N.eqb c 5760 || ((8192 <=? c) && (c <=? 8202)) || N.eqb c 8239
   || N.eqb c 8287 || N.eqb c 12288 || N.eqb c 65279)%N
  || isLineTerminator c.

Fixpoint trimStart (s : jstr) : jstr :=
  match s with
  | c :: s' => if isWhiteSpace c then trimStart s' else s
  | [] => []
  end.

Definition trimEnd (s : jstr) : jstr := rev (trimStart (rev s)).

(** [s.trim()]. *)
Definition trim (s : jstr) : jstr := trimEnd (trimStart s).

(** [s.split(/\s+/)]: the pieces between maximal white-space runs; a
    run at either end leaves an empty piece there, as in JavaScript.
    [cur] is the piece being read, reversed; [inWs] tells that the
    previous code unit was white space. *)
Fixpoint splitWsLoop (s : jstr) (cur : jstr) (inWs : bool) : list jstr :=
  match s with
  | [] => [rev cur]
  | c :: s' =>
      if isWhiteSpace c
      then (if inWs then splitWsLoop s' cur true
            else rev cur :: splitWsLoop s' [] true)
      else splitWsLoop s' (c :: cur) false
  end.

Definition splitWs (s : jstr) : list jstr := splitWsLoop s [] false.

(** Truthiness of a string: [Boolean(s)], [if (s)], [!s]. *)
Definition truthy (s : jstr) : bool :=
  match s with [] => false | _ => true end.

(** [s.replace(/^#/, "")]. *)
Definition stripHash (s : jstr) : jstr :=
  match s with
  | c :: s' => if N.eqb c HASH then s' else s
  | [] => []
  end.

(** A non-negative integer printed in decimal ([String(n)] in a
    template literal), through the decimal digits of [n]. *)
Fixpoint digitsOfUint (d : Decimal.uint) : jstr :=
  match d with
  | Decimal.Nil => []
  | Decimal.D0 d' => 48%N :: digitsOfUint d'
  | Decimal.D1 d' => 49%N :: digitsOfUint d'
  | Decimal.D2 d' => 50%N :: digitsOfUint d'
  | Decimal.D3 d' => 51%N :: digitsOfUint d'
  | Decimal.D4 d' => 52%N :: digitsOfUint d'
  | Decimal.D5 d' => 53%N :: digitsOfUint d'
  | Decimal.D6 d' => 54%N :: digitsOfUint d'
  | Decimal.D7 d' => 55%N :: digitsOfUint d'
  | Decimal.D8 d' => 56%N :: digitsOfUint d'
  | Decimal.D9 d' => 57%N :: digitsOfUint d'
  end.

Definition numToString (n : N) : jstr := digitsOfUint (N.to_uint n).

Definition isDigit (c : N) : bool := ((48 <=? c) && (c <=? 57))%N.

(** [parseInt(s, 10)] on a string of decimal digits, as the caret
    pattern captures one: the digits are folded left to right. *)
Definition parseDigits (s : jstr) : N :=
  fold_left (fun acc c => (acc * 10 + (c - 48))%N) s 0%N.

End JS.

(** ** Base embedded block management *)

Definition FENCE_START : jstr := lit "```base".
Definition BEGIN_MARK : jstr :=
  lit "# BEGIN FILTERS (managed by obsidian-base-live-filter-plugin)".
Definition END_MARK : jstr := lit "# END FILTERS".
Definition FENCE_CLOSE : jstr := NL ++ lit "```".

(** [BaseBlockInfo]; the field [end] is spelled [end_]. *)
Record BaseBlockInfo := mkInfo {
  start : Z;
  end_ : Z;
  filtersStart : Z;
  filtersEnd : Z
}.

Definition findBaseBlock (text : jstr) : option BaseBlockInfo :=
  let fenceIdx := JS.indexOf text FENCE_START 0 in
  if fenceIdx <? 0 then None else
  let fenceEnd := JS.indexOf text FENCE_CLOSE (fenceIdx + len FENCE_START) in
  if fenceEnd <? 0 then None else
  let beginIdx := JS.indexOf text BEGIN_MARK fenceIdx in
  let endIdx := JS.indexOf text END_MARK fenceIdx in
  if (beginIdx <? 0) || (endIdx <? 0) || (endIdx <? beginIdx) then None
  else Some {| start := fenceIdx; end_ := fenceEnd + 4;
               filtersStart := beginIdx;
               filtersEnd := endIdx + len END_MARK |}.

(** The text computed by [replaceFiltersInBaseBlock] between its read and
    its write: re-locate, fall back to [info], splice. *)
Definition spliceFilters (text : jstr) (target : BaseBlockInfo)
    (newFilters : jstr) : jstr :=
  let before := JS.slice text 0 (filtersStart target) in
  let after := JS.sliceFrom text (filtersEnd target) in
  let replacement := BEGIN_MARK ++ NL ++ newFilters ++ NL ++ END_MARK in
  before ++ replacement ++ after.

Definition replaceFiltersText (text : jstr) (info : BaseBlockInfo)
    (newFilters : jstr) : jstr :=
  let latest := findBaseBlock text in
  let target := default info latest in
  spliceFilters text target newFilters.

(** The vault maps a file path to the text of the note; [read] of a
    missing file rejects, which aborts the caller ([None]). *)
Abbreviation Vault := (gmap jstr jstr).

Definition replaceFiltersInBaseBlock (vault : Vault) (file : jstr)
    (info : BaseBlockInfo) (newFilters : jstr) : option Vault :=
  match vault !! file with
  | None => None
  | Some text => Some (<[file := replaceFiltersText text info newFilters]> vault)
  end.

(** ** Matchers *)

Section Matchers.
Context `{Host}.

Definition prefixMatch (all : list jstr) (prefix : jstr) (limit : Z)
    : list jstr :=
  let p := toLowerCase (JS.stripHash prefix) in
  if negb (JS.truthy p) then []
  else JS.slice
         (List.filter (fun t => JS.startsWith (toLowerCase t) p) all)
         0 limit.

Definition suffixMatch (all : list jstr) (suffix : jstr) (limit : Z)
    : list jstr :=
  let s := toLowerCase (JS.stripHash suffix) in
  if negb (JS.truthy s) then []
  else JS.slice
         (List.filter (fun t => JS.endsWith (toLowerCase t) s) all)
         0 limit.

Definition substringMatch (all : list jstr) (part : jstr) (limit : Z)
    : list jstr :=
  let s := toLowerCase (JS.stripHash part) in
  if negb (JS.truthy s) then []
  else JS.slice
         (List.filter (fun t => JS.includes (toLowerCase t) s) all)
         0 limit.

End Matchers.

Record MatchSettings := mkSettings {
  enablePrefix : bool;
  enableSuffix : bool;
  enableSubstring : bool;
  refreshDelayMs : Z
}.

(** ** Merging the tiers *)

(** The state of a merge: the set [seen] and the array [merged]. *)
Abbreviation MergeState := (gset jstr * list jstr)%type.

(** [if (!seen.has(t)) { seen.add(t); merged.push(t); }] *)
Definition pushUnseen (st : MergeState) (t : jstr) : MergeState :=
  if decide (t ∈ st.1) then st else ({[ t ]} ∪ st.1, st.2 ++ [t]).

(** One [for (const t of tier)] loop of [buildFiltersFromInput]. *)
Definition mergeTier (tier : list jstr) (st : MergeState) : MergeState :=
  fold_left pushUnseen tier st.

(** One loop of [getSuggestions]: the same body, followed by
    [if (merged.length >= 12) break]. *)
Fixpoint mergeTierCapped (cap : nat) (tier : list jstr) (st : MergeState)
    : MergeState :=
  match tier with
  | [] => st
  | t :: tier' =>
      let st' := pushUnseen st t in
      if (cap <=? length st'.2)%nat then st'
      else mergeTierCapped cap tier' st'
  end.

(** The loops after the first are guarded by [if (merged.length < 12)]. *)
Definition mergeTierGuarded (cap : nat) (tier : list jstr) (st : MergeState)
    : MergeState :=
  if (length st.2 <? cap)%nat then mergeTierCapped cap tier st else st.

(** Lines 227-244 of [getSuggestions]. *)
Definition mergeSuggestions (pref suff subs : list jstr) : list jstr :=
  let st0 : MergeState := (∅, []) in
  let st1 := mergeTierCapped 12 pref st0 in
  let st2 := mergeTierGuarded 12 suff st1 in
  let st3 := mergeTierGuarded 12 subs st2 in
  st3.2.

(** Lines 174-178 of [buildFiltersFromInput]. *)
Definition mergeFilters (pref suff subs : list jstr) : list jstr :=
  let st0 : MergeState := (∅, []) in
  (mergeTier subs (mergeTier suff (mergeTier pref st0))).2.

(** ** The suggestion provider *)

Section Suggest.
Context `{Host}.

(** The word at the caret: from after the last space on the left of
    the caret up to the caret. [selectionStart] may be [null]. *)
Definition currentToken (value : jstr) (selectionStart : option N) : jstr :=
  let caret := default (len value) (Z.of_N <$> selectionStart) in
  let left := JS.slice value 0 caret in
  let start := JS.lastIndexOf left SPACE + 1 in
  JS.slice value start caret.

(** [TagSuggest.getSuggestions]; [allTags] and [modes] are the fields
    of the object, [value] and [selectionStart] those of its input. *)
Definition getSuggestions (allTags : list jstr) (modes : MatchSettings)
    (value : jstr) (selectionStart : option N) : list jstr :=
  let token := currentToken value selectionStart in
  if negb (JS.truthy token) then []
  else
    let base := if JS.startsWith token [HASH] then JS.sliceFrom token 1
                else token in
    let pref := if enablePrefix modes then prefixMatch allTags base 100
                else [] in
    let suff := if enableSuffix modes then suffixMatch allTags base 100
                else [] in
    let subs := if enableSubstring modes then substringMatch allTags base 100
                else [] in
    List.map (fun t => HASH :: t) (mergeSuggestions pref suff subs).

End Suggest.

(** ** URI component coding (ECMAScript [Encode] and [Decode]) *)

Module Uri.
Local Open Scope N_scope.

Definition isAlnum (c : N) : bool :=
  ((48 <=? c) && (c <=? 57)) || ((65 <=? c) && (c <=? 90))
  || ((97 <=? c) && (c <=? 122)).

(** The code units [encodeURIComponent] leaves alone: letters, digits
    and [- _ . ! ~ * ' ( )]. *)
Definition isUnreserved (c : N) : bool :=
  isAlnum c
  || N.eqb c 45 || N.eqb c 95 || N.eqb c 46 || N.eqb c 33 || N.eqb c 126
  || N.eqb c 42 || N.eqb c 39 || N.eqb c 40 || N.eqb c 41.

Definition hexDigit (n : N) : N := if n <? 10 then 48 + n else 55 + n.

(** One octet as [%XX], upper case. *)
Definition percentOctet (b : N) : jstr :=
  [PERCENT; hexDigit (b / 16); hexDigit (b mod 16)].

Definition isLeadSurrogate (c : N) : bool := (55296 <=? c) && (c <=? 56319).
Definition isTrailSurrogate (c : N) : bool := (56320 <=? c) && (c <=? 57343).

Definition surrogatePairToCodePoint (hi lo : N) : N :=
  (hi - 55296) * 1024 + (lo - 56320) + 65536.

Definition utf8Encode (cp : N) : list N :=
  if cp <? 128 then [cp]
  else if cp <? 2048 then [192 + cp / 64; 128 + cp mod 64]
  else if cp <? 65536 then
    [224 + cp / 4096; 128 + (cp / 64) mod 64; 128 + cp mod 64]
  else
    [240 + cp / 262144; 128 + (cp / 4096) mod 64; 128 + (cp / 64) mod 64;
     128 + cp mod 64].

Definition escapeCodePoint (cp : N) : jstr :=
  flat_map percentOctet (utf8Encode cp).

(** [encodeURIComponent]; [None] is the [URIError] thrown at an
    unpaired surrogate. *)
Fixpoint encodeURIComponent (s : jstr) : option jstr :=
  match s with
  | [] => Some []
  | c :: s' =>
      if isUnreserved c then cons c <$> encodeURIComponent s'
      else if isTrailSurrogate c then None
      else if isLeadSurrogate c then
        match s' with
        | d :: s'' =>
            if isTrailSurrogate d
            then app (escapeCodePoint (surrogatePairToCodePoint c d))
                   <$> encodeURIComponent s''
            else None
        | [] => None
        end
      else app (escapeCodePoint c) <$> encodeURIComponent s'
  end.

Definition hexValue (c : N) : option N :=
  if (48 <=? c) && (c <=? 57) then Some (c - 48)
  else if (65 <=? c) && (c <=? 70) then Some (c - 55)
  else if (97 <=? c) && (c <=? 102) then Some (c - 87)
  else None.

Definition parseHexOctet (h1 h2 : N) : option N :=
  match hexValue h1, hexValue h2 with
  | Some a, Some b => Some (16 * a + b)
  | _, _ => None
  end.

(** The number of leading 1 bits of an octet (5 stands for "more than
    four"). *)
Definition leadingOnes (b : N) : nat :=
  if b <? 128 then 0%nat
  else if b <? 192 then 1%nat
  else if b <? 224 then 2%nat
  else if b <? 240 then 3%nat
  else if b <? 248 then 4%nat
  else 5%nat.

(** Read [n] more escaped octets [%XX]. *)
Fixpoint readContinuation (n : nat) (s : jstr) : option (list N * jstr) :=
  match n with
  | O => Some ([], s)
  | S n' =>
      match s with
      | p :: h1 :: h2 :: s' =>
          if N.eqb p PERCENT then
            match parseHexOctet h1 h2 with
            | Some b =>
                match readContinuation n' s' with
                | Some (bs, rest) => Some (b :: bs, rest)
                | None => None
                end
            | None => None
            end
          else None
      | _ => None
      end
  end.

Definition isContinuation (b : N) : bool := (128 <=? b) && (b <? 192).

(** The code point of a multi-octet UTF-8 sequence, if the sequence is
    valid: continuation octets, no overlong form, no surrogate, at most
    U+10FFFF. *)
Definition utf8Decode (octets : list N) : option N :=
  match octets with
  | [b1; b2] =>
      let v := (b1 - 192) * 64 + (b2 - 128) in
      if isContinuation b2 && (128 <=? v) then Some v else None
  | [b1; b2; b3] =>
      let v := (b1 - 224) * 4096 + (b2 - 128) * 64 + (b3 - 128) in
      if isContinuation b2 && isContinuation b3 && (2048 <=? v)
         && negb ((55296 <=? v) && (v <=? 57343))
      then Some v else None
  | [b1; b2; b3; b4] =>
      let v := (b1 - 240) * 262144 + (b2 - 128) * 4096 + (b3 - 128) * 64
               + (b4 - 128) in
      if isContinuation b2 && isContinuation b3 && isContinuation b4
         && (65536 <=? v) && (v <=? 1114111)
      then Some v else None
  | _ => None
  end.

Definition utf16Encode (v : N) : jstr :=
  if v <? 65536 then [v]
  else [55296 + (v - 65536) / 1024; 56320 + (v - 65536) mod 1024].

(** The loop of [Decode] with an empty reserved set; every iteration
    consumes at least one code unit, so [fuel = |s|] is enough. [None]
    is the [URIError]. *)
Fixpoint decodeLoop (fuel : nat) (s : jstr) : option jstr :=
  match s with
  | [] => Some []
  | c :: s1 =>
      match fuel with
      | O => None
      | S fuel' =>
          if negb (N.eqb c PERCENT) then cons c <$> decodeLoop fuel' s1
          else
            match s1 with
            | h1 :: h2 :: s2 =>
                match parseHexOctet h1 h2 with
                | None => None
                | Some b =>
                    let n := leadingOnes b in
                    if (n =? 0)%nat then cons b <$> decodeLoop fuel' s2
                    else if (n =? 1)%nat || (4 <? n)%nat then None
                    else
                      match readContinuation (n - 1) s2 with
                      | None => None
                      | Some (bs, s3) =>
                          match utf8Decode (b :: bs) with
                          | None => None
                          | Some v =>
                              app (utf16Encode v) <$> decodeLoop fuel' s3
                          end
                      end
                end
            | _ => None
            end
      end
  end.

Definition decodeURIComponent (s : jstr) : option jstr :=
  decodeLoop (length s) s.

(** [String.prototype.isWellFormed]: no unpaired surrogate (and every
    element is a 16-bit code unit). *)
Fixpoint isWellFormed (s : jstr) : bool :=
  match s with
  | [] => true
  | c :: s' =>
      if isLeadSurrogate c then
        match s' with
        | d :: s'' => isTrailSurrogate d && isWellFormed s''
        | [] => false
        end
      else negb (isTrailSurrogate c) && (c <? 65536) && isWellFormed s'
  end.

End Uri.

(** ** Encode/decode state *)

Definition encodeState (s : jstr) : jstr :=
  default s (Uri.encodeURIComponent s).

Definition decodeState (s : jstr) : jstr :=
  default s (Uri.decodeURIComponent s).

(** ** The two patterns of [extractSavedState]

    A backtracking matcher in continuation style: a piece of a pattern
    takes what follows it as a continuation [k] on the rest of the
    subject, and tries its longest match first. *)

Module Regex.
Section Combinators.
Context {R : Type}.

(** A literal sequence. *)
Definition literal (p : jstr) (k : jstr -> option R) (s : jstr) : option R :=
if JS.startsWith s p then k (drop (length p) s) else None.

(** A greedy star over a class [C]. *)
Fixpoint star (C : N -> bool) (k : jstr -> option R) (s : jstr) : option R :=
match s with
| c :: s' =>
    if C c then
      match star C k s' with
      | Some r => Some r
      | None => k s
      end
    else k s
| [] => k []
end.

(** A capturing group around a greedy star; [acc] is what the group
  holds so far. *)
Fixpoint starCapture (C : N -> bool) (k : jstr -> jstr -> option R)
  (acc : jstr) (s : jstr) : option R :=
match s with
| c :: s' =>
    if C c then
      match starCapture C k (acc ++ [c]) s' with
      | Some r => Some r
      | None => k acc s
      end
    else k acc s
| [] => k acc []
end.

(** A capturing group around a greedy plus. *)
Definition plusCapture (C : N -> bool) (k : jstr -> jstr -> option R)
  (s : jstr) : option R :=
match s with
| c :: s' => if C c then starCapture C k [c] s' else None
| [] => None
end.

(** [$] under the [m] flag: the end of the subject or a line
  terminator ahead. *)
Definition atLineEnd (s : jstr) : bool :=
match s with
| [] => true
| c :: _ => JS.isLineTerminator c
end.

(** The search of [String.prototype.match] for a pattern that starts
  with [^] under the [m] flag: the leftmost start offset at the
  beginning of a line where the rest [m] of the pattern matches. *)
Fixpoint searchLines (m : jstr -> option R) (lineStart : bool) (s : jstr)
  : option R :=
match (if lineStart then m s else None) with
| Some r => Some r
| None =>
    match s with
    | [] => None
    | c :: s' => searchLines m (JS.isLineTerminator c) s'
    end
end.

End Combinators.

Definition notLineTerminator (c : N) : bool := negb (JS.isLineTerminator c).

Definition captureToLineEnd (cap rest : jstr) : option jstr :=
  if atLineEnd rest then Some cap else None.

(** [/^#\s*INPUT:\s*(.+)$/m], after the [^]: the captured group. *)
Definition inputPattern : jstr -> option jstr :=
  literal [HASH]
    (star JS.isWhiteSpace
       (literal (lit "INPUT:")
          (star JS.isWhiteSpace
             (plusCapture notLineTerminator captureToLineEnd)))).

(** [/^#\s*CARET:\s*(\d+)$/m], after the [^]: the captured group. *)
Definition caretPattern : jstr -> option jstr :=
  literal [HASH]
    (star JS.isWhiteSpace
       (literal (lit "CARET:")
          (star JS.isWhiteSpace
             (plusCapture JS.isDigit captureToLineEnd)))).

(** [segment.match(pattern)]: group 1 of the first match. *)
Definition matchInput (segment : jstr) : option jstr :=
  searchLines inputPattern true segment.

Definition matchCaret (segment : jstr) : option jstr :=
  searchLines caretPattern true segment.

End Regex.

(** ** The saved state *)

Record SavedState := mkState {
  input : jstr;
  caret : N
}.

(** [extractSavedState]. The caret group is a digit string, so
    [parseInt] is never [NaN] and the guard on it never fires. *)
Definition extractSavedState (text : jstr) : option SavedState :=
  match findBaseBlock text with
  | None => None
  | Some info =>
      let segment := JS.slice text (filtersStart info) (filtersEnd info) in
      let mInput := Regex.matchInput segment in
      let mCaret := Regex.matchCaret segment in
      match mInput, mCaret with
      | None, None => None
      | _, _ =>
          let input := match mInput with
                       | Some g => decodeState (JS.trim g)
                       | None => []
                       end in
          let caret := match mCaret with
                       | Some g => JS.parseDigits g
                       | None => N.of_nat (length input)
                       end in
          Some {| input := input; caret := caret |}
      end
  end.

(** ** Generate Base filters *)

Definition escapeQuote (s : jstr) : jstr :=
  flat_map (fun c => if N.eqb c DQUOTE then [BACKSLASH; DQUOTE] else [c]) s.

(** The template [`"${escapeQuote(t)}"`]. *)
Definition quoted (t : jstr) : jstr := [DQUOTE] ++ escapeQuote t ++ [DQUOTE].

Section Filters.
Context `{Host}.

(** The token a clause is built from: [part] without its leading [#]. *)
Definition clauseBase (part : jstr) : jstr :=
  let isHash := JS.startsWith part [HASH] in
  if isHash then JS.trim (JS.sliceFrom part 1) else part.

(** The merged tags of one token (lines 171-178). *)
Definition clauseMerged (allTags : list jstr) (modes : MatchSettings)
    (base : jstr) : list jstr :=
  let pref := if enablePrefix modes then prefixMatch allTags base 200
              else [] in
  let suff := if enableSuffix modes then suffixMatch allTags base 200
              else [] in
  let subs := if enableSubstring modes then substringMatch allTags base 200
              else [] in
  mergeFilters pref suff subs.

(** The body of the loop over [parts]: the line pushed for one token. *)
Definition clauseLine (allTags : list jstr) (modes : MatchSettings)
    (part : jstr) : jstr :=
  let base := clauseBase part in
  let merged := clauseMerged allTags modes base in
  let list := (if JS.truthy base then [quoted base] else [])
              ++ List.map quoted (JS.slice merged 0 60) in
  lit "    - file.tags.containsAny([" ++ JS.join (lit ", ") list ++ lit "])".

(** [buildFiltersFromInput]; [caret] is [None] for [undefined]. *)
Definition buildFiltersFromInput (input : jstr) (allTags : list jstr)
    (caret : option N) (modes : MatchSettings) : jstr :=
  let s := JS.trim input in
  if (length s =? 0)%nat then
    JS.join NL
      [ lit "filters:";
        lit "# INPUT: " ++ encodeState input;
        lit "# CARET: " ++ JS.numToString (default 0%N caret) ]
  else
    let parts := List.filter JS.truthy (JS.splitWs s) in
    let lines := List.map (clauseLine allTags modes) parts in
    JS.join NL
      ([ lit "filters:"; lit "  and:" ] ++ lines
       ++ [ lit "# INPUT: " ++ encodeState input;
            lit "# CARET: "
            ++ JS.numToString (default (N.of_nat (length input)) caret) ]).

End Filters.
(** ** Debounce

    Timers follow the HTML model on a simulated clock: [setTimeout]
    answers a fresh handle greater than zero and arms a timer; the delay
    it is given is read as a signed 32-bit integer (a WebIDL [long]:
    reduced modulo 2^32 into [-2^31, 2^31)), and a negative delay counts
    as zero; [clearTimeout] disarms the timer of a handle, if any; a
    timer runs its callback once the clock has reached its due time, never
    earlier. As handles are greater than zero, the test [if (id)] of the
    closure asks only whether [id] is [null]. *)

(** The conversion of a number to a WebIDL [long] (ECMAScript
    [ToInt32]), on integers. *)
Definition toInt32 (z : Z) : Z := (z + 2 ^ 31) mod 2 ^ 32 - 2 ^ 31.

(** The time a timer armed with the delay [ms] waits. *)
Definition timerDelay (ms : Z) : Z := Z.max 0 (toInt32 ms).

Record Timers := mkTimers {
  nextHandle : positive;
  pending : list (positive * Z)
}.

Definition setTimeout (ms now : Z) (tm : Timers) : positive * Timers :=
  (nextHandle tm,
   {| nextHandle := Pos.succ (nextHandle tm);
      pending := pending tm ++ [(nextHandle tm, now + timerDelay ms)] |}).

Definition clearTimeout (h : positive) (tm : Timers) : Timers :=
  {| nextHandle := nextHandle tm;
     pending := List.filter (fun p => negb (Pos.eqb (fst p) h)) (pending tm) |}.

(** What one block's input widget and its debounced callback see: the
    clock, the timers, the variable [id] of the closure ([timerId]), the
    text of the input element, the flag [composing], the settings, and
    the log of the write cycles run so far, each with the input text it
    read. *)
Record World := mkWorld {
  now : Z;
  timers : Timers;
  timerId : option positive;
  value : jstr;
  composing : bool;
  settings : MatchSettings;
  cycles : list jstr
}.

(** The function returned by [debounceDynamic(fn, getMs)], with
    [getMs = () => this.settings.refreshDelayMs]. *)
Definition debounced (w : World) : World :=
  let tm1 := match timerId w with
             | Some h => clearTimeout h (timers w)
             | None => timers w
             end in
  let ms := Z.max 0 (refreshDelayMs (settings w)) in
  let '(h, tm2) := setTimeout ms (now w) tm1 in
  {| now := now w; timers := tm2; timerId := Some h; value := value w;
     composing := composing w; settings := settings w; cycles := cycles w |}.

(** The [input] listener; the element already holds the new text [v]. *)
Definition onInput (v : jstr) (isComposing : bool) (w : World) : World :=
  let w' := {| now := now w; timers := timers w; timerId := timerId w;
               value := v; composing := composing w; settings := settings w;
               cycles := cycles w |} in
  if isComposing || composing w then w' else debounced w'.

(** The callback [fn]: one write cycle, which reads the text of the
    input element when it runs. *)
Definition writeCycle (w : World) : World :=
  {| now := now w; timers := timers w; timerId := timerId w;
     value := value w; composing := composing w; settings := settings w;
     cycles := cycles w ++ [value w] |}.

(** The clock moves on to [t]: the timers due by then run, the others
    stay armed. *)
Definition runUntil (t : Z) (w : World) : World :=
  let t' := Z.max (now w) t in
  let due := List.filter (fun p => snd p <=? t') (pending (timers w)) in
  let rest := List.filter (fun p => negb (snd p <=? t')) (pending (timers w)) in
  fold_left (fun w' _ => writeCycle w') due
    {| now := t';
       timers := {| nextHandle := nextHandle (timers w); pending := rest |};
       timerId := timerId w; value := value w; composing := composing w;
       settings := settings w; cycles := cycles w |}.




(** The delay of the countdown [debounced] arms under the settings
    [st]: what the timer makes of [Math.max(0, refreshDelayMs)]. *)
Definition effectiveDelay (st : MatchSettings) : Z :=
  timerDelay (Z.max 0 (refreshDelayMs st)).

(** A countdown is under way: one timer pending, due [ms] after [t],
    held by the closure; the write cycles run so far are [log]; the
    input holds [v]. *)
Definition counting (log : list jstr) (ms t : Z) (v : jstr) (w : World)
    : Prop :=
  exists h, pending (timers w) = [(h, t + ms)]
    /\ timerId w = Some h
    /\ cycles w = log
    /\ now w = t
    /\ value w = v
    /\ composing w = false
    /\ effectiveDelay (settings w) = ms.

(** A block whose closure has just been made. *)
Definition freshWorld (t0 : Z) (st : MatchSettings) : World :=
  {| now := t0; timers := {| nextHandle := 1; pending := [] |};
     timerId := None; value := []; composing := false; settings := st;
     cycles := [] |}.

(** ** Vocabulary of the statements *)

(** [occurs s pat i]: [pat] occurs in [s] at offset [i]. *)
Definition occurs (s pat : jstr) (i : Z) : Prop :=
  0 <= i /\ JS.startsWith (drop (Z.to_nat i) s) pat = true.

(** The position [indexOf] really starts from. *)
Definition clampPos (s : jstr) (pos : Z) : Z := Z.min (Z.max pos 0) (len s).

(** [i] is the first offset at or after [pos] where [pat] occurs. *)
Definition firstFrom (s pat : jstr) (pos i : Z) : Prop :=
  pos <= i /\ occurs s pat i /\ forall j, pos <= j < i -> ~ occurs s pat j.

(** [pat] does not occur at or after [pos]. *)
Definition noneFrom (s pat : jstr) (pos : Z) : Prop :=
  forall j, pos <= j -> ~ occurs s pat j.

(** When [findBaseBlock] answers [null]: a piece is missing after the
    first fence, or the first end marker precedes the first begin marker.
    The fence close plays no part in where the markers may lie. *)
Definition locateAbsent (t : jstr) : Prop :=
  noneFrom t FENCE_START 0
  \/ exists f, firstFrom t FENCE_START 0 f
      /\ (noneFrom t FENCE_CLOSE (f + len FENCE_START)
          \/ noneFrom t BEGIN_MARK f
          \/ noneFrom t END_MARK f
          \/ exists b e, firstFrom t BEGIN_MARK f b
               /\ firstFrom t END_MARK f e /\ e < b).

(** *** Sample documents *)

(** A note whose markers follow the closed fence. *)
Definition doc_markers_after_fence : jstr :=
  lit "```base" ++ NL ++ lit "```" ++ NL ++ BEGIN_MARK ++ NL ++ END_MARK.

(** The block the plugin appends to a note, with a body of its own. *)
Definition doc_template (body : jstr) : jstr :=
  lit "intro" ++ NL ++ lit "```base" ++ NL ++ BEGIN_MARK ++ NL ++ body
  ++ NL ++ END_MARK ++ NL ++ lit "# ---- columns ----" ++ NL ++ lit "```"
  ++ NL.

(** A note without any fence. *)
Definition doc_plain : jstr := lit "no block in this note".

(** *** The merge, in the words of the design document *)

(** [mergeOrdered tier1 tier2 tier3 cap]: the tiers in priority order,
    without the tags an earlier tier has emitted, cut at [cap]. *)
Definition mergeOrdered (tier1 tier2 tier3 : list jstr) (cap : nat)
    : list jstr :=
  take cap (tier1
            ++ filter (fun t => t ∉ tier1) tier2
            ++ filter (fun t => (t ∉ tier1) /\ (t ∉ tier2)) tier3).

(** [fresh emitted ts]: the elements of [ts] not emitted yet, each once,
    in order of first occurrence. *)
Fixpoint fresh (emitted ts : list jstr) : list jstr :=
  match ts with
  | [] => []
  | t :: ts' =>
      if bool_decide (t ∈ emitted) then fresh emitted ts'
      else t :: fresh (t :: emitted) ts'
  end.

(** A host that lowers the letters A-Z only. *)
Definition asciiLower (s : jstr) : jstr :=
  List.map (fun c => if ((65 <=? c) && (c <=? 90))%N then (c + 32)%N else c) s.

Definition asciiHost : Host :=
  {| toLowerCase := asciiLower; toLowerCase_empty := eq_refl |}.

(** The set [seen] holds exactly the elements of [merged]. *)
Definition coherent (st : MergeState) : Prop :=
  forall x, x ∈ st.1 <-> x ∈ st.2.

(** *** Lines *)

(** [s.split("\n")]. *)
Fixpoint splitLines (s : jstr) : list jstr :=
  match s with
  | [] => [[]]
  | c :: s' =>
      if N.eqb c 10 then [] :: splitLines s'
      else match splitLines s' with
           | l :: ls => (c :: l) :: ls
           | [] => [[c]]
           end
  end.

(** The two state lines of a filter body. *)
Definition inputLine (input : jstr) : jstr := lit "# INPUT: " ++ encodeState input.
Definition caretLine (c : N) : jstr := lit "# CARET: " ++ JS.numToString c.

(** The three tiers of one token, as [buildFiltersFromInput] asks for
    them: each matcher with limit 200, a disabled matcher giving none. *)
Section TokenTiers.
Context `{Host}.
Definition tokenTiers (allTags : list jstr) (modes : MatchSettings)
    (base : jstr) : list jstr :=
  (if enablePrefix modes then prefixMatch allTags base 200 else [])
  ++ (if enableSuffix modes then suffixMatch allTags base 200 else [])
  ++ (if enableSubstring modes then substringMatch allTags base 200 else []).
End TokenTiers.

(** The text of a clause that lists [entries]. *)
Definition clauseOf (entries : list jstr) : jstr :=
  lit "    - file.tags.containsAny([" ++ JS.join (lit ", ") entries ++ lit "])".

(** *** The alphabet of an encoded component *)

(** Upper-case hexadecimal digits. *)
Definition isHexUpper (c : N) : bool :=
  ((48 <=? c) && (c <=? 57) || (65 <=? c) && (c <=? 70))%N.

(** The alphabet of an escape [%XX]. *)
Definition isPercentHex (c : N) : bool := N.eqb c PERCENT || isHexUpper c.

Definition isEncoded (c : N) : bool := Uri.isUnreserved c || isPercentHex c.

(** A scalar value: a code point that is not a surrogate. *)
Definition isScalar (cp : N) : Prop :=
  (cp < 1114112 /\ ~ (55296 <= cp <= 57343))%N.

(** Free of white space. *)
Definition noWs (s : jstr) : Prop := Forall (fun c => JS.isWhiteSpace c = false) s.

(** Free of line terminators. *)
Definition noLT (s : jstr) : Prop :=
  Forall (fun c => JS.isLineTerminator c = false) s.

(** *** Sample settings and tags *)

(** The defaults of [loadSettings]. *)
Definition defaultSettings : MatchSettings :=
  {| enablePrefix := true; enableSuffix := true; enableSubstring := true;
     refreshDelayMs := 1000 |}.


(** How [slice] reads an offset [i] into a text of length [n]: a
    negative offset counts from the end, and the result is kept within
    [0, n]. *)
Definition cutAt (n : nat) (i : Z) : nat :=
  if i <? 0 then Z.to_nat (Z.of_nat n + i)
  else Nat.min (Z.to_nat i) n.

Definition sampleTags : list jstr :=
  [lit "project"; lit "projecta"; lit "urgentcare"].

(** [misses m l]: the line [l] holds no line break, and the pattern [m]
    does not match at its start, whatever follows the line. *)
Definition misses (m : jstr -> option jstr) (l : jstr) : Prop :=
  noLT l /\ forall rest, m (l ++ NL ++ rest) = None.

(** An input with an unpaired lead surrogate before a line break. *)
Definition loneSurrogateInput : jstr := [55357%N; 10%N; 97%N].





(** ** Picking a suggestion *)

(** [right.match(/\s/)]: the index of the first white-space code unit of
    [s], whose first element has index [k]; [None] when there is none. *)
Fixpoint firstWsFrom (s : jstr) (k : Z) : option Z :=
  match s with
  | [] => None
  | c :: s' => if JS.isWhiteSpace c then Some k else firstWsFrom s' (k + 1)
  end.

(** The caret read by [getSuggestions] and [selectSuggestion]:
    [input.selectionStart ?? value.length]. *)
Definition caretOf (value : jstr) (selectionStart : option N) : Z :=
  default (len value) (Z.of_N <$> selectionStart).

(** [start] of [selectSuggestion]: after the last space left of the
    caret. *)
Definition pickStart (value : jstr) (selectionStart : option N) : Z :=
  let caret := caretOf value selectionStart in
  let left := JS.slice value 0 caret in
  JS.lastIndexOf left SPACE + 1.

(** [end] of [selectSuggestion]: the next white space right of the
    caret, or the end of the text. *)
Definition pickEnd (value : jstr) (selectionStart : option N) : Z :=
  let caret := caretOf value selectionStart in
  let right := JS.sliceFrom value caret in
  match firstWsFrom right 0 with
  | Some index => caret + index
  | None => len value
  end.

(** [TagSuggest.selectSuggestion]: the arguments it passes to [onPick],
    the new text of the input and the new caret. *)
Definition selectSuggestion (value : jstr) (selectionStart : option N)
    (v : jstr) : jstr * Z :=
  let start := pickStart value selectionStart in
  let end_ := pickEnd value selectionStart in
  let before := JS.slice value 0 start in
  let after := JS.sliceFrom value end_ in
  let needSpace := if JS.startsWith after [SPACE] then [] else [SPACE] in
  let newValue := before ++ v ++ needSpace ++ after in
  let newCaret := len (before ++ v ++ needSpace) in
  (newValue, newCaret).

(** The caret is inside the text, as the input element keeps it. *)
Definition caretInside (value : jstr) (selectionStart : option N) : Prop :=
  match selectionStart with
  | Some c => (c <= N.of_nat (length value))%N
  | None => True
  end.

(** ** The settings tab *)

Definition choices : list Z := [500; 750; 1000; 1500; 2000; 3000; 4000; 5000].

(** The double nearest to the integer [z] (round to nearest, ties to
    even): an integer below 2^53 in magnitude is a double; a larger one
    keeps its 53 leading bits. Overflow to an infinity, beyond 2^1024,
    is left out. *)
Definition roundDouble (z : Z) : Z :=
  let a := Z.abs z in
  if a <? 2 ^ 53 then z
  else
    let e := Z.log2 a - 52 in
    let q := Z.shiftr a e in
    let r := a - Z.shiftl q e in
    let half := Z.shiftl 1 (e - 1) in
    let q' := if r <? half then q
              else if half <? r then q + 1
              else if Z.even q then q else q + 1 in
    Z.sgn z * Z.shiftl q' e.

(** [Math.abs(choices[i] - val)] for a choice [c] and a value [val]
    that is an integer: the difference is rounded to a double. *)
Definition distance (c val : Z) : Z := Z.abs (roundDouble (c - val)).

(** The loop of [nearestIndex] over the choices from index [i] on, for
    an integer value; [best = None] is [Number.POSITIVE_INFINITY]. *)
Fixpoint nearestLoop (cs : list Z) (val : Z) (i idx : nat) (best : option Z)
    : nat :=
  match cs with
  | [] => idx
  | c :: cs' =>
      let d := distance c val in
      if match best with None => true | Some b => d <? b end
      then nearestLoop cs' val (S i) i (Some d)
      else nearestLoop cs' val (S i) idx best
  end.

Definition nearestIndex (val : Z) : nat := nearestLoop choices val 0 0 None.

(** The value the slider's [onChange] stores for the integer index [idx]:
    [choices[Math.max(0, Math.min(choices.length - 1, idx)) | 0]];
    [None] would be [undefined]. *)
Definition sliderValue (idx : Z) : option Z :=
  choices !! Z.to_nat (Z.max 0 (Z.min (len choices - 1) idx)).

(** The delay [configureRefreshTags] hands to [debounce]. *)
Definition refreshDelay (st : MatchSettings) : Z :=
  Z.max 0 (refreshDelayMs st).

(** [cs !! r] has the least [dist] among [cs], and is the first such. *)
Definition firstLeast (dist : Z -> Z) (cs : list Z) (r : nat) : Prop :=
  exists c, cs !! r = Some c
    /\ forall i c', cs !! i = Some c' ->
         dist c <= dist c'
         /\ (dist c' = dist c -> (r <= i)%nat).

(** [cs !! r] is closest to [val] among [cs], and the first such. *)
Definition closestAt (cs : list Z) (val : Z) (r : nat) : Prop :=
  firstLeast (fun c => Z.abs (c - val)) cs r.

(** ** The listeners of one block's input

    What the listeners do to the countdown. Besides the [World] of the
    debounced callback a widget holds the callbacks queued by
    [requestAnimationFrame]; each of them calls [debounced]. *)

Record Widget := mkWidget {
  world : World;
  frames : nat
}.

Definition setComposing (b : bool) (w : World) : World :=
  {| now := now w; timers := timers w; timerId := timerId w;
     value := value w; composing := b; settings := settings w;
     cycles := cycles w |}.

Inductive Event :=
| EvInput (v : jstr) (isComposing : bool)
| EvCompositionStart
| EvCompositionEnd
| EvFrame
| EvClock (t : Z).

Definition step (g : Widget) (e : Event) : Widget :=
  match e with
  | EvInput v isComposing =>
      {| world := onInput v isComposing (world g); frames := frames g |}
  | EvCompositionStart =>
      {| world := setComposing true (world g); frames := frames g |}
  | EvCompositionEnd =>
      {| world := setComposing false (world g); frames := S (frames g) |}
  | EvFrame =>
      {| world := Nat.iter (frames g) debounced (world g); frames := 0 |}
  | EvClock t => {| world := runUntil t (world g); frames := frames g |}
  end.

Definition run (es : list Event) (g : Widget) : Widget := fold_left step es g.

(** The events of a composition under way: edits, and clock ticks
    before any of the times [due]. *)
Definition whileComposing (due : list Z) (e : Event) : Prop :=
  match e with
  | EvInput _ _ => True
  | EvClock t => Forall (fun d => t < d) due
  | _ => False
  end.

(** The text of the last edit among [es], [v] if there is none. *)
Definition lastInput (es : list Event) (v : jstr) : jstr :=
  fold_left (fun acc e => match e with EvInput x _ => x | _ => acc end) es v.

(** No countdown is under way: no timer is pending, whatever ran
    before. *)
Definition quiet (w : World) : Prop := pending (timers w) = [].

(** ** Tag collection *)







(** The order of [Array.prototype.sort] without a comparator: strings
    compare by their code units. *)
Fixpoint jstr_leb (a b : jstr) : bool :=
  match a, b with
  | [], _ => true
  | _ :: _, [] => false
  | x :: a', y :: b' =>
      if (x <? y)%N then true
      else if (y <? x)%N then false
      else jstr_leb a' b'
  end.





(** ** Inserting the block *)

(** The block appended to a note that has none. *)
Definition template : jstr :=
  JS.join NL
    [ [];
      lit "```base";
      BEGIN_MARK;
      lit "filters:" ++ NL ++ lit "  - contains(file.tags, "
        ++ [DQUOTE; DQUOTE] ++ lit ")";
      END_MARK;
      lit "# ---- Manual edits below are OK (column definitions, view settings, etc.) ----";
      lit "```";
      [] ].

Definition insertedText (text : jstr) : jstr :=
  text ++ (if JS.endsWith text NL then [] else NL) ++ template.

(** [findOrInsertBaseBlock]: the vault after the call and the answer;
    [None] when [read] rejects. *)
Definition findOrInsertBaseBlock (vault : Vault) (file : jstr)
    : option (Vault * option BaseBlockInfo) :=
  match vault !! file with
  | None => None
  | Some text =>
      match findBaseBlock text with
      | Some info => Some (vault, Some info)
      | None =>
          let newText := insertedText text in
          Some (<[file := newText]> vault, findBaseBlock newText)
      end
  end.

(** A note the locator cannot get past: after the first fence the first
    end marker comes with no begin marker at or before it. *)
Definition stuck (text : jstr) : Prop :=
  exists f e, firstFrom text FENCE_START 0 f
    /\ firstFrom text END_MARK f e
    /\ forall j, f <= j <= e -> ~ occurs text BEGIN_MARK j.

(** A note with a fence and a stray end marker. *)
Definition doc_stray_end : jstr :=
  lit "```base" ++ NL ++ lit "```" ++ NL ++ END_MARK.

(** The body of the appended block. *)
Definition templateBody : jstr :=
  lit "filters:" ++ NL ++ lit "  - contains(file.tags, "
  ++ [DQUOTE; DQUOTE] ++ lit ")".

(** ** Writing the state and reading it back *)

(** The end marker does not occur in [l]. *)
Definition endFree (l : jstr) : Prop := forall i, ~ occurs l END_MARK i.

(** No [#] of [l] is followed by a blank. *)
Definition hashSpaceFree (l : jstr) : Prop :=
  forall n, l !! n = Some HASH -> l !! S n <> Some SPACE.

(** The fence closes after the end marker. *)
Definition nested (info : BaseBlockInfo) : Prop :=
  filtersEnd info <= end_ info - 4.

Section WriteBack.
Context `{Host}.

(** [input.selectionStart ?? val.length]. *)
Definition caretNow (val : jstr) (sel : option N) : N :=
  default (N.of_nat (length val)) sel.

(** The callback handed to [debounceDynamic]: one write cycle on the
    vault, for the note at [path], the input text [val] and its
    selection start. *)
Definition writeBack (vault : Vault) (path val : jstr) (sel : option N)
    (allTags : list jstr) (modes : MatchSettings) : Vault :=
  if negb (JS.truthy path) then vault
  else
    match findOrInsertBaseBlock vault path with
    | None => vault
    | Some (vault1, None) => vault1
    | Some (vault1, Some block) =>
        let filters :=
          buildFiltersFromInput val allTags (Some (caretNow val sel)) modes in
        default vault1 (replaceFiltersInBaseBlock vault1 path block filters)
    end.

End WriteBack.

(** No line break of [x] is followed by a backtick. *)
Definition tickFree (x : jstr) : Prop :=
  forall n, x !! n = Some 10%N -> x !! S n <> Some 96%N.

(** One write cycle: the text of the input and its selection start, the
    tag cache and the settings at the time. *)
Record Cycle := mkCycle {
  cValue : jstr;
  cSel : option N;
  cTags : list jstr;
  cModes : MatchSettings
}.

(** A cycle whose state can be read back: the input has no unpaired
    surrogate and is not empty, and no tag holds white space. *)
Definition writable (c : Cycle) : Prop :=
  Uri.isWellFormed (cValue c) = true /\ cValue c <> []
  /\ Forall noWs (cTags c).

(** A note a write cycle can start from: no fence token at all, or a
    located block whose end marker precedes the fence close. *)
Definition ready (text : jstr) : Prop :=
  noneFrom text FENCE_START 0
  \/ exists info, findBaseBlock text = Some info /\ nested info.

Section WriteAll.
Context `{Host}.

Definition writeAll (path : jstr) (cs : list Cycle) (vault : Vault) : Vault :=
  fold_left
    (fun v c => writeBack v path (cValue c) (cSel c) (cTags c) (cModes c))
    cs vault.

End WriteAll.

(** *** Samples for the properties above *)

Definition notePath : jstr := lit "note.md".

Definition plainVault : Vault := {[ notePath := doc_plain ]}.


Definition composingEdits : list Event :=
  [EvInput (lit "k") true; EvClock 100; EvInput (lit "ka") true].

Definition sampleCycles : list Cycle :=
  [ {| cValue := lit "#pr"; cSel := Some 3%N; cTags := sampleTags;
       cModes := defaultSettings |} ].

Definition lastCycle : Cycle :=
  {| cValue := lit "#proj a"; cSel := None; cTags := sampleTags;
     cModes := defaultSettings |}.

(** * Proofs *)

(** ** Facts about the string primitives *)

Lemma len_app {A} (a b : list A) : len (a ++ b) = len a + len b.
Proof. unfold len. rewrite length_app. lia. Qed.

Lemma len_nonneg {A} (l : list A) : 0 <= len l.
Proof. unfold len. lia. Qed.

Lemma len_cons {A} (x : A) (l : list A) : len (x :: l) = 1 + len l.
Proof. unfold len. simpl. lia. Qed.

Lemma startsWith_app (s pat : jstr) :
  JS.startsWith s pat = true <-> exists rest, s = pat ++ rest.
Proof.
  revert s. induction pat as [|p pat IH]; intros s; simpl.
  - split; [intros _; by exists s | done].
  - destruct s as [|c s]; simpl.
    + split; [done | intros [rest H]; discriminate].
    + rewrite andb_true_iff, N.eqb_eq, IH. split.
      * intros [-> [rest ->]]. by exists rest.
      * intros [rest H]. injection H as -> ->. split; [done | by exists rest].
Qed.

Lemma startsWith_length (s pat : jstr) :
  JS.startsWith s pat = true -> (length pat <= length s)%nat.
Proof.
  intros [rest ->]%startsWith_app. rewrite length_app. lia.
Qed.

Lemma occurs_bound (s pat : jstr) (i : Z) :
  occurs s pat i -> i + len pat <= len s \/ (pat = [] /\ len s < i).
Proof.
  intros [Hi H]. apply startsWith_length in H. rewrite length_drop in H.
  unfold len. destruct (decide (Z.to_nat i <= length s)%nat); [left; lia|].
  right. split; [|lia]. destruct pat; [done | simpl in H; lia].
Qed.

Lemma indexOfFrom_found (pat s : jstr) (k r : Z) :
  JS.indexOfFrom pat s k = r -> r <> -1 -> 0 <= k ->
  exists i : nat, r = k + Z.of_nat i
    /\ JS.startsWith (drop i s) pat = true
    /\ forall j : nat, (j < i)%nat -> JS.startsWith (drop j s) pat = false.
Proof.
  revert k r. induction s as [|c s IH]; intros k r; simpl.
  - destruct (JS.startsWith [] pat) eqn:E; intros <- Hne Hk; [|done].
    exists 0%nat. split; [lia|]. split; [done | intros; lia].
  - destruct (JS.startsWith (c :: s) pat) eqn:E; intros Hr Hne Hk.
    + exists 0%nat. subst r. split; [lia|]. split; [done | intros; lia].
    + destruct (IH _ _ Hr Hne ltac:(lia)) as (i & -> & Hi & Hmin).
      exists (S i). split; [lia|]. split; [done|].
      intros [|j] Hj; [done | simpl; apply Hmin; lia].
Qed.

Lemma indexOfFrom_absent (pat s : jstr) (k : Z) :
  JS.indexOfFrom pat s k = -1 -> 0 <= k ->
  forall j : nat, JS.startsWith (drop j s) pat = false.
Proof.
  revert k. induction s as [|c s IH]; intros k; simpl.
  - destruct (JS.startsWith [] pat) eqn:E; intros Hr Hk j; [lia|].
    by rewrite drop_nil.
  - destruct (JS.startsWith (c :: s) pat) eqn:E; intros Hr Hk j; [lia|].
    destruct j as [|j]; [done | simpl; eapply IH; [done | lia]].
Qed.

(** What [indexOf] answers when it finds: the first occurrence at or
    after the clamped position. *)
Lemma indexOf_found (s pat : jstr) (pos r : Z) :
  JS.indexOf s pat pos = r -> r <> -1 ->
  clampPos s pos <= r /\ occurs s pat r
  /\ forall j, clampPos s pos <= j < r -> ~ occurs s pat j.
Proof.
  unfold JS.indexOf. fold (clampPos s pos). intros Hr Hne.
  assert (Hc : 0 <= clampPos s pos <= len s)
    by (unfold clampPos, len; lia).
  destruct (indexOfFrom_found _ _ _ _ Hr Hne ltac:(lia)) as (i & -> & Hi & Hmin).
  rewrite drop_drop in Hi. split; [lia|]. split.
  - split; [lia|]. by replace (Z.to_nat (clampPos s pos + Z.of_nat i))
      with (Z.to_nat (clampPos s pos) + i)%nat by lia.
  - intros j Hj [_ Hocc].
    specialize (Hmin (Z.to_nat (j - clampPos s pos)) ltac:(lia)).
    rewrite drop_drop in Hmin.
    replace (Z.to_nat (clampPos s pos) + Z.to_nat (j - clampPos s pos))%nat
      with (Z.to_nat j) in Hmin by lia.
    congruence.
Qed.

Lemma indexOf_absent (s pat : jstr) (pos : Z) :
  JS.indexOf s pat pos = -1 ->
  forall j, clampPos s pos <= j -> ~ occurs s pat j.
Proof.
  unfold JS.indexOf. fold (clampPos s pos). intros Hr j Hj [_ Hocc].
  assert (Hc : 0 <= clampPos s pos) by (unfold clampPos, len; lia).
  pose proof (indexOfFrom_absent _ _ _ Hr Hc
                (Z.to_nat (j - clampPos s pos))) as H.
  rewrite drop_drop in H.
  replace (Z.to_nat (clampPos s pos) + Z.to_nat (j - clampPos s pos))%nat
    with (Z.to_nat j) in H by lia.
  congruence.
Qed.

Lemma indexOf_range (s pat : jstr) (pos : Z) :
  JS.indexOf s pat pos = -1 \/ 0 <= JS.indexOf s pat pos.
Proof.
  destruct (decide (JS.indexOf s pat pos = -1)) as [|Hne]; [by left | right].
  destruct (indexOf_found s pat pos _ eq_refl Hne) as (H & _).
  unfold clampPos, len in H. lia.
Qed.

Lemma slice_prefix {A} (l : list A) (e : Z) :
  0 <= e <= len l -> JS.slice l 0 e = take (Z.to_nat e) l.
Proof.
  intros He. unfold JS.slice, JS.relIndex.
  destruct (e <? 0) eqn:E; [lia|].
  change (0 <? 0) with false. cbv iota.
  replace (Z.to_nat (Z.min 0 (len l))) with 0%nat by (unfold len; lia).
  rewrite drop_0. f_equal. unfold len in *. lia.
Qed.

Lemma sliceFrom_suffix {A} (l : list A) (b : Z) :
  0 <= b <= len l -> JS.sliceFrom l b = drop (Z.to_nat b) l.
Proof.
  intros Hb. unfold JS.sliceFrom, JS.slice, JS.relIndex.
  destruct (b <? 0) eqn:E; [lia|].
  destruct (len l <? 0) eqn:E'; [unfold len in *; lia|].
  rewrite (Z.min_l b) by lia. rewrite Z.min_id.
  apply take_ge. rewrite length_drop. unfold len in *. lia.
Qed.

(** ** The block locator *)

Lemma indexOf_firstFrom (s pat : jstr) (pos r : Z) :
  0 <= pos <= len s ->
  JS.indexOf s pat pos = r -> r <> -1 -> firstFrom s pat pos r.
Proof.
  intros Hpos Hr Hne. destruct (indexOf_found _ _ _ _ Hr Hne) as (H1 & H2 & H3).
  replace (clampPos s pos) with pos in * by (unfold clampPos; lia).
  split; [done | split; done].
Qed.

Lemma indexOf_noneFrom (s pat : jstr) (pos : Z) :
  0 <= pos <= len s -> JS.indexOf s pat pos = -1 -> noneFrom s pat pos.
Proof.
  intros Hpos Hr j Hj. apply (indexOf_absent _ _ _ Hr).
  unfold clampPos. lia.
Qed.

Lemma firstFrom_unique (s pat : jstr) (pos i j : Z) :
  firstFrom s pat pos i -> firstFrom s pat pos j -> i = j.
Proof.
  intros (Hi & Hoi & Hmi) (Hj & Hoj & Hmj).
  destruct (Z.lt_trichotomy i j) as [Hlt | [-> | Hlt]]; [|done|].
  - exfalso. apply (Hmj i); [lia | done].
  - exfalso. apply (Hmi j); [lia | done].
Qed.

Lemma firstFrom_noneFrom (s pat : jstr) (pos i : Z) :
  firstFrom s pat pos i -> noneFrom s pat pos -> False.
Proof. intros (Hi & Ho & _) Hn. by apply (Hn i). Qed.

Lemma occurs_fits (s pat : jstr) (i : Z) :
  pat <> [] -> occurs s pat i -> i + len pat <= len s.
Proof.
  intros Hne Ho. destruct (occurs_bound _ _ _ Ho) as [|[? _]]; done.
Qed.

(** The four searches behind an answer of [findBaseBlock]. *)
Lemma findBaseBlock_Some (t : jstr) (r : BaseBlockInfo) :
  findBaseBlock t = Some r ->
  firstFrom t FENCE_START 0 (start r)
  /\ firstFrom t FENCE_CLOSE (start r + len FENCE_START) (end_ r - 4)
  /\ firstFrom t BEGIN_MARK (start r) (filtersStart r)
  /\ firstFrom t END_MARK (start r) (filtersEnd r - len END_MARK)
  /\ filtersStart r <= filtersEnd r - len END_MARK.
Proof.
  unfold findBaseBlock.
  set (f := JS.indexOf t FENCE_START 0).
  destruct (f <? 0) eqn:Ef; [done|].
  set (fe := JS.indexOf t FENCE_CLOSE (f + len FENCE_START)).
  destruct (fe <? 0) eqn:Efe; [done|].
  set (b := JS.indexOf t BEGIN_MARK f).
  set (e := JS.indexOf t END_MARK f).
  destruct (b <? 0) eqn:Eb; [done|].
  destruct (e <? 0) eqn:Ee; [done|].
  destruct (e <? b) eqn:Eeb; [done|]. simpl.
  intros [= <-]. simpl.
  assert (Hf : firstFrom t FENCE_START 0 f)
    by (apply indexOf_firstFrom; [pose proof (len_nonneg t) | | ]; lia || done).
  assert (Hfl : f + len FENCE_START <= len t)
    by (apply occurs_fits; [done | apply Hf]).
  assert (Hf0 : 0 <= f) by apply Hf.
  pose proof (len_nonneg FENCE_START).
  assert (Hfe : firstFrom t FENCE_CLOSE (f + len FENCE_START) fe)
    by (apply indexOf_firstFrom; [lia | done | lia]).
  assert (Hb : firstFrom t BEGIN_MARK f b)
    by (apply indexOf_firstFrom; [lia | done | lia]).
  assert (He : firstFrom t END_MARK f e)
    by (apply indexOf_firstFrom; [lia | done | lia]).
  replace (fe + 4 - 4) with fe by lia.
  replace (e + len END_MARK - len END_MARK) with e by lia.
  repeat (split; [done|]). lia.
Qed.

Lemma findBaseBlock_None (t : jstr) :
  findBaseBlock t = None <-> locateAbsent t.
Proof.
  split.
  - unfold findBaseBlock, locateAbsent.
    set (f := JS.indexOf t FENCE_START 0).
    pose proof (len_nonneg t) as Ht.
    destruct (indexOf_range t FENCE_START 0) as [Hf|Hf]; fold f in Hf.
    { intros _. left. apply indexOf_noneFrom; [lia | done]. }
    destruct (f <? 0) eqn:Ef; [lia|].
    assert (Hff : firstFrom t FENCE_START 0 f)
      by (apply indexOf_firstFrom; [lia | done | lia]).
    assert (Hfl : f + len FENCE_START <= len t)
      by (apply occurs_fits; [done | apply Hff]).
    pose proof (len_nonneg FENCE_START).
    intros Hnone. right. exists f. split; [done|].
    set (fe := JS.indexOf t FENCE_CLOSE (f + len FENCE_START)) in *.
    destruct (indexOf_range t FENCE_CLOSE (f + len FENCE_START)) as [Hfe|Hfe];
      fold fe in Hfe.
    { left. apply indexOf_noneFrom; [lia | done]. }
    destruct (fe <? 0) eqn:Efe; [lia|].
    set (b := JS.indexOf t BEGIN_MARK f) in *.
    set (e := JS.indexOf t END_MARK f) in *.
    destruct (indexOf_range t BEGIN_MARK f) as [Hb|Hb]; fold b in Hb.
    { right; left. apply indexOf_noneFrom; [lia | done]. }
    destruct (indexOf_range t END_MARK f) as [He|He]; fold e in He.
    { right; right; left. apply indexOf_noneFrom; [lia | done]. }
    destruct (b <? 0) eqn:Eb; [lia|].
    destruct (e <? 0) eqn:Ee; [lia|].
    destruct (e <? b) eqn:Eeb; [|done].
    right; right; right. exists b, e.
    split; [apply indexOf_firstFrom; [lia | done | lia]|].
    split; [apply indexOf_firstFrom; [lia | done | lia]|]. lia.
  - intros Habs. destruct (findBaseBlock t) as [r|] eqn:E; [exfalso | done].
    destruct (findBaseBlock_Some _ _ E) as (Hf & Hfe & Hb & He & Hord).
    destruct Habs as [Hn | (f & Hf' & Hcases)].
    { exact (firstFrom_noneFrom _ _ _ _ Hf Hn). }
    pose proof (firstFrom_unique _ _ _ _ _ Hf Hf') as <-.
    destruct Hcases as [Hn | [Hn | [Hn | (b & e & Hb' & He' & Hlt)]]].
    + exact (firstFrom_noneFrom _ _ _ _ Hfe Hn).
    + exact (firstFrom_noneFrom _ _ _ _ Hb Hn).
    + exact (firstFrom_noneFrom _ _ _ _ He Hn).
    + pose proof (firstFrom_unique _ _ _ _ _ Hb Hb').
      pose proof (firstFrom_unique _ _ _ _ _ He He'). lia.
Qed.

(** Offsets of a located region lie inside the text, in order. *)
Lemma findBaseBlock_offsets (t : jstr) (r : BaseBlockInfo) :
  findBaseBlock t = Some r ->
  0 <= start r <= filtersStart r
  /\ filtersStart r <= filtersEnd r <= len t
  /\ start r + len FENCE_START <= end_ r - len FENCE_CLOSE
  /\ end_ r <= len t.
Proof.
  intros (Hf & Hfe & Hb & He & Hord)%findBaseBlock_Some.
  pose proof (occurs_fits t END_MARK _ ltac:(done) (proj1 (proj2 He))) as H1.
  pose proof (occurs_fits t FENCE_CLOSE _ ltac:(done) (proj1 (proj2 Hfe))) as H2.
  destruct Hf as (Hf0 & _), Hfe as (Hfe0 & _), Hb as (Hb0 & _).
  change (len FENCE_CLOSE) with 4 in *. change (len END_MARK) with 13 in *.
  change (len FENCE_START) with 7 in *. lia.
Qed.

(** C1. A region replace keeps the text before [filtersStart] and the
    text from [filtersEnd] on, code unit for code unit: the result is
    the old prefix, then the begin marker, the new body and the end
    marker, then the old suffix. In the vault it writes that text to the
    note and leaves every other note as it was. *)
Theorem C1_replace_keeps_outside (t : jstr) (r info : BaseBlockInfo) (b : jstr) :
  findBaseBlock t = Some r ->
  let t' := replaceFiltersText t info b in
  let repl := BEGIN_MARK ++ NL ++ b ++ NL ++ END_MARK in
  t' = JS.slice t 0 (filtersStart r) ++ repl ++ JS.sliceFrom t (filtersEnd r)
  /\ (forall i : nat, Z.of_nat i < filtersStart r -> t' !! i = t !! i)
  /\ (forall j : nat,
        t' !! (Z.to_nat (filtersStart r) + length repl + j)%nat
        = t !! (Z.to_nat (filtersEnd r) + j)%nat)
  /\ len t' = len t - (filtersEnd r - filtersStart r) + len repl
  /\ (forall (vault : Vault) (file : jstr),
        vault !! file = Some t ->
        exists vault',
          replaceFiltersInBaseBlock vault file info b = Some vault'
          /\ vault' !! file = Some t'
          /\ forall other, other <> file -> vault' !! other = vault !! other).
Proof.
  intros Hr t' repl.
  destruct (findBaseBlock_offsets _ _ Hr) as (H1 & H2 & _).
  assert (Ht' : t' = take (Z.to_nat (filtersStart r)) t ++ repl
                     ++ drop (Z.to_nat (filtersEnd r)) t).
  { subst t'. unfold replaceFiltersText. rewrite Hr. simpl.
    unfold spliceFilters. rewrite slice_prefix, sliceFrom_suffix by lia. done. }
  assert (Hlt : length (take (Z.to_nat (filtersStart r)) t)
                = Z.to_nat (filtersStart r))
    by (rewrite length_take; unfold len in *; lia).
  split; [|split; [|split; [|split]]].
  - rewrite Ht', slice_prefix, sliceFrom_suffix by lia. done.
  - intros i Hi. rewrite Ht'.
    rewrite lookup_app_l by lia. apply lookup_take_lt. lia.
  - intros j. rewrite Ht'.
    rewrite lookup_app_r by lia. rewrite lookup_app_r by lia.
    rewrite lookup_drop. f_equal. lia.
  - rewrite Ht'. rewrite !len_app. unfold len at 1 3.
    rewrite Hlt, length_drop. unfold len in *. lia.
  - intros vault file Hread. unfold replaceFiltersInBaseBlock.
    rewrite Hread. eexists. split; [reflexivity|]. split.
    + apply lookup_insert_eq.
    + intros other Hne. by apply lookup_insert_ne.
Qed.

(** C2, as the code has it. A located region satisfies
    [0 <= start <= filtersStart <= filtersEnd <= |t|] and
    [start < end <= |t|]; each offset is the first occurrence of its
    token at or after the fence start (the fence close after the fence
    token). [findBaseBlock] answers absent exactly when the fence, its
    close or a marker is missing after the fence start, or the first end
    marker precedes the first begin marker. Nothing relates the markers
    to the fence close. *)
Theorem C2_locate_offsets (t : jstr) :
  (forall r, findBaseBlock t = Some r ->
     0 <= start r <= filtersStart r
     /\ filtersStart r <= filtersEnd r <= len t
     /\ start r < end_ r <= len t
     /\ firstFrom t FENCE_START 0 (start r)
     /\ firstFrom t FENCE_CLOSE (start r + len FENCE_START)
          (end_ r - len FENCE_CLOSE)
     /\ firstFrom t BEGIN_MARK (start r) (filtersStart r)
     /\ firstFrom t END_MARK (start r) (filtersEnd r - len END_MARK))
  /\ (findBaseBlock t = None <-> locateAbsent t).
Proof.
  split; [|apply findBaseBlock_None].
  intros r Hr. destruct (findBaseBlock_offsets _ _ Hr) as (H1 & H2 & H3 & H4).
  destruct (findBaseBlock_Some _ _ Hr) as (Hf & Hfe & Hb & He & _).
  change (len FENCE_CLOSE) with 4 in *. change (len FENCE_START) with 7 in *.
  repeat (split; [done || lia|]). done.
Qed.

(** C2 as stated fails: with both markers after the closed fence the
    region is located, and its [filtersEnd] lies beyond [end]. *)
Lemma C2_counterexample :
  findBaseBlock doc_markers_after_fence
  = Some {| start := 0; end_ := 11; filtersStart := 12; filtersEnd := 87 |}
  /\ ~ (filtersEnd {| start := 0; end_ := 11; filtersStart := 12;
                      filtersEnd := 87 |}
        <= end_ {| start := 0; end_ := 11; filtersStart := 12;
                   filtersEnd := 87 |}).
Proof. split; [vm_compute; reflexivity | simpl; lia]. Qed.

Lemma C2_locate_offsets_witness :
  findBaseBlock (doc_template (lit "filters:"))
  = Some {| start := 6; end_ := 122; filtersStart := 14; filtersEnd := 98 |}
  /\ 0 <= 6 <= 14 /\ 14 <= 98 <= len (doc_template (lit "filters:")).
Proof.
  assert (E : findBaseBlock (doc_template (lit "filters:"))
    = Some {| start := 6; end_ := 122; filtersStart := 14; filtersEnd := 98 |})
    by (vm_compute; reflexivity).
  split; [exact E|].
  destruct (proj1 (C2_locate_offsets (doc_template (lit "filters:"))) _ E)
    as (H1 & H2 & _).
  split; assumption.
Defined.

Lemma C1_replace_keeps_outside_witness :
  replaceFiltersText (doc_template (lit "filters:"))
    {| start := 0; end_ := 0; filtersStart := 0; filtersEnd := 0 |}
    (lit "filters:" ++ NL ++ lit "# INPUT: a")
  = JS.slice (doc_template (lit "filters:")) 0 14
    ++ (BEGIN_MARK ++ NL ++ (lit "filters:" ++ NL ++ lit "# INPUT: a")
        ++ NL ++ END_MARK)
    ++ JS.sliceFrom (doc_template (lit "filters:")) 98.
Proof.
  assert (E : findBaseBlock (doc_template (lit "filters:"))
    = Some {| start := 6; end_ := 122; filtersStart := 14; filtersEnd := 98 |})
    by (vm_compute; reflexivity).
  exact (proj1 (C1_replace_keeps_outside _ _
    {| start := 0; end_ := 0; filtersStart := 0; filtersEnd := 0 |}
    (lit "filters:" ++ NL ++ lit "# INPUT: a") E)).
Defined.

(** How [slice] cuts: the text before an offset and the text from an
    offset on. *)
Lemma relIndex_cutAt {A} (l : list A) (i : Z) :
  Z.to_nat (JS.relIndex (len l) i) = cutAt (length l) i.
Proof.
  unfold JS.relIndex, cutAt, len. destruct (i <? 0) eqn:E; lia.
Qed.

Lemma slice_before {A} (l : list A) (e : Z) :
  JS.slice l 0 e = take (cutAt (length l) e) l.
Proof.
  unfold JS.slice. rewrite <- relIndex_cutAt.
  assert (H0 : JS.relIndex (len l) 0 = 0).
  { unfold JS.relIndex, len. change (0 <? 0) with false. cbv iota. lia. }
  rewrite H0. change (Z.to_nat 0) with 0%nat. rewrite drop_0.
  f_equal. lia.
Qed.

Lemma sliceFrom_after {A} (l : list A) (b : Z) :
  JS.sliceFrom l b = drop (cutAt (length l) b) l.
Proof.
  unfold JS.sliceFrom, JS.slice. rewrite <- relIndex_cutAt.
  apply take_ge. rewrite length_drop.
  assert (H : JS.relIndex (len l) (len l) = len l).
  { unfold JS.relIndex, len.
    destruct (Z.of_nat (length l) <? 0) eqn:E; [apply Z.ltb_lt in E|]; lia. }
  rewrite H. unfold len. lia.
Qed.

(** C7. The replace step locates the region again in the text it has
    just read. When that succeeds, the note is written with the text
    before the fresh [filtersStart], the markers around the new body,
    and the text from the fresh [filtersEnd] on, whatever region the
    caller passed. When it fails, the note is written all the same, cut
    at the caller's offsets as [slice] reads them in the present text.
    No other note changes. *)
Theorem C7_replace_relocates (vault : Vault) (file text : jstr)
    (info : BaseBlockInfo) (b : jstr) :
  vault !! file = Some text ->
  let repl := BEGIN_MARK ++ NL ++ b ++ NL ++ END_MARK in
  let written (fs fe : nat) := take fs text ++ repl ++ drop fe text in
  exists vault',
    replaceFiltersInBaseBlock vault file info b = Some vault'
    /\ (forall other, other <> file -> vault' !! other = vault !! other)
    /\ (forall r, findBaseBlock text = Some r ->
          0 <= filtersStart r <= filtersEnd r
          /\ filtersEnd r <= len text
          /\ vault' !! file
             = Some (written (Z.to_nat (filtersStart r))
                       (Z.to_nat (filtersEnd r))))
    /\ (findBaseBlock text = None ->
          vault' !! file
          = Some (written (cutAt (length text) (filtersStart info))
                    (cutAt (length text) (filtersEnd info)))).
Proof.
  intros Hread repl written. unfold replaceFiltersInBaseBlock.
  rewrite Hread. eexists. split; [reflexivity|].
  split; [intros other Hne; by apply lookup_insert_ne|].
  rewrite lookup_insert_eq. unfold replaceFiltersText, spliceFilters.
  split.
  - intros r Hr. rewrite Hr. cbn [default].
    destruct (findBaseBlock_offsets _ _ Hr) as (H1 & H2 & _).
    split; [lia|]. split; [lia|]. unfold id.
    rewrite slice_prefix, sliceFrom_suffix by lia. reflexivity.
  - intros Hnone. rewrite Hnone. cbn [default]. unfold id.
    by rewrite slice_before, sliceFrom_after.
Qed.

Lemma C7_replace_relocates_witness :
  (exists vault',
     replaceFiltersInBaseBlock
       {[ lit "a.md" := doc_template (lit "filters:") ]} (lit "a.md")
       {| start := 0; end_ := 5; filtersStart := 1; filtersEnd := 3 |}
       (lit "x") = Some vault'
     /\ vault' !! lit "a.md"
        = Some (take 14 (doc_template (lit "filters:"))
                ++ (BEGIN_MARK ++ NL ++ lit "x" ++ NL ++ END_MARK)
                ++ drop 98 (doc_template (lit "filters:"))))
  /\ (exists vault',
        replaceFiltersInBaseBlock {[ lit "b.md" := doc_plain ]} (lit "b.md")
          {| start := 0; end_ := 5; filtersStart := 1; filtersEnd := 3 |}
          (lit "x") = Some vault'
        /\ vault' !! lit "b.md"
           = Some (take 1 doc_plain
                   ++ (BEGIN_MARK ++ NL ++ lit "x" ++ NL ++ END_MARK)
                   ++ drop 3 doc_plain)).
Proof.
  split.
  - destruct (C7_replace_relocates
                {[ lit "a.md" := doc_template (lit "filters:") ]}
                (lit "a.md") (doc_template (lit "filters:"))
                {| start := 0; end_ := 5; filtersStart := 1; filtersEnd := 3 |}
                (lit "x") (lookup_singleton_eq _ _))
      as (vault' & Hret & _ & Hfresh & _).
    exists vault'. split; [exact Hret|].
    refine (proj2 (proj2 (Hfresh
      {| start := 6; end_ := 122; filtersStart := 14; filtersEnd := 98 |}
      _))).
    vm_compute. reflexivity.
  - destruct (C7_replace_relocates {[ lit "b.md" := doc_plain ]}
                (lit "b.md") doc_plain
                {| start := 0; end_ := 5; filtersStart := 1; filtersEnd := 3 |}
                (lit "x") (lookup_singleton_eq _ _))
      as (vault' & Hret & _ & _ & Hstale).
    exists vault'. split; [exact Hret|].
    apply Hstale. vm_compute. reflexivity.
Defined.

(** ** Merging *)

Lemma slice_take {A} (l : list A) (n : nat) :
  JS.slice l 0 (Z.of_nat n) = take n l.
Proof.
  unfold JS.slice, JS.relIndex.
  destruct (Z.of_nat n <? 0) eqn:E; [apply Z.ltb_lt in E; lia|].
  change (0 <? 0) with false. cbv iota.
  replace (Z.to_nat (Z.min 0 (len l))) with 0%nat by (unfold len; lia).
  rewrite drop_0. unfold len.
  destruct (decide (n <= length l)%nat).
  - f_equal. lia.
  - rewrite !take_ge by lia. done.
Qed.

Lemma fresh_ext (e1 e2 ts : list jstr) :
  (forall x, x ∈ e1 <-> x ∈ e2) -> fresh e1 ts = fresh e2 ts.
Proof.
  revert e1 e2. induction ts as [|t ts IH]; intros e1 e2 Hext; [done|].
  simpl. rewrite (bool_decide_ext _ _ (Hext t)).
  destruct (bool_decide (t ∈ e2)); [by apply IH|].
  f_equal. apply IH. intros x. rewrite !elem_of_cons, Hext. done.
Qed.

Lemma fresh_app (e a b : list jstr) :
  fresh e (a ++ b) = fresh e a ++ fresh (fresh e a ++ e) b.
Proof.
  revert e. induction a as [|t a IH]; intros e; [done|].
  simpl. destruct (bool_decide (t ∈ e)); [apply IH|].
  simpl. f_equal. rewrite IH. f_equal. apply fresh_ext.
  intros x. rewrite !elem_of_app, !elem_of_cons, !elem_of_app. tauto.
Qed.

Lemma filter_ext_in {A} (P Q : A -> Prop) `{!forall x, Decision (P x)}
    `{!forall x, Decision (Q x)} (l : list A) :
  (forall x, x ∈ l -> P x <-> Q x) -> filter P l = filter Q l.
Proof.
  induction l as [|x l IH]; intros Hext; [done|].
  rewrite !filter_cons.
  assert (HPQ : P x <-> Q x) by (apply Hext; left).
  rewrite IH by (intros y Hy; apply Hext; by right).
  destruct (decide (P x)), (decide (Q x)); tauto || done.
Qed.

Lemma fresh_NoDup (e ts : list jstr) :
  NoDup ts -> fresh e ts = filter (fun t => t ∉ e) ts.
Proof.
  revert e. induction ts as [|t ts IH]; intros e Hnd; [done|].
  apply NoDup_cons in Hnd as [Ht Hnd]. simpl. rewrite filter_cons.
  destruct (decide (t ∈ e)) as [Hin|Hin].
  - rewrite bool_decide_eq_true_2 by done.
    destruct (decide (t ∉ e)); [done | by apply IH].
  - rewrite bool_decide_eq_false_2 by done.
    destruct (decide (t ∉ e)); [|done]. f_equal.
    rewrite IH by done. apply filter_ext_in.
    intros x Hx. rewrite not_elem_of_cons. split; [tauto|].
    intros Hxe. split; [|done]. intros ->. done.
Qed.

Lemma pushUnseen_spec (st : MergeState) (t : jstr) :
  coherent st ->
  coherent (pushUnseen st t) /\ (pushUnseen st t).2 = st.2 ++ fresh st.2 [t].
Proof.
  intros Hc. unfold pushUnseen. simpl.
  destruct (decide (t ∈ st.1)) as [Hin|Hin].
  - rewrite bool_decide_eq_true_2 by (by apply Hc).
    by rewrite app_nil_r.
  - rewrite bool_decide_eq_false_2 by (by rewrite <- (Hc t)).
    split; [|done]. intros x. simpl.
    rewrite elem_of_union, elem_of_singleton, elem_of_app, list_elem_of_singleton.
    rewrite (Hc x). tauto.
Qed.

Lemma fresh_cons_step (e : list jstr) (t : jstr) (ts : list jstr) :
  fresh e (t :: ts) = fresh e [t] ++ fresh (e ++ fresh e [t]) ts.
Proof.
  change (t :: ts) with ([t] ++ ts). rewrite fresh_app. f_equal.
  apply fresh_ext. intros x. rewrite !elem_of_app. tauto.
Qed.

Lemma mergeTier_spec (tier : list jstr) (st : MergeState) :
  coherent st ->
  coherent (mergeTier tier st)
  /\ (mergeTier tier st).2 = st.2 ++ fresh st.2 tier.
Proof.
  revert st. induction tier as [|t tier IH]; intros st Hc.
  - simpl. by rewrite app_nil_r.
  - destruct (pushUnseen_spec st t Hc) as [Hc' Heq].
    destruct (IH _ Hc') as [Hc'' Heq'].
    change (mergeTier (t :: tier) st) with (mergeTier tier (pushUnseen st t)).
    split; [done|].
    rewrite Heq', Heq, (fresh_cons_step st.2 t tier), app_assoc. done.
Qed.

Lemma mergeTierCapped_spec (cap : nat) (tier : list jstr) (st : MergeState) :
  coherent st -> (length st.2 < cap)%nat ->
  coherent (mergeTierCapped cap tier st)
  /\ (mergeTierCapped cap tier st).2 = take cap (st.2 ++ fresh st.2 tier).
Proof.
  revert st. induction tier as [|t tier IH]; intros st Hc Hlen.
  - simpl. rewrite app_nil_r, take_ge by lia. done.
  - destruct (pushUnseen_spec st t Hc) as [Hc' Heq].
    simpl mergeTierCapped.
    rewrite (fresh_cons_step st.2 t tier), app_assoc, <- Heq.
    destruct (cap <=? length (pushUnseen st t).2)%nat eqn:E.
    + apply Nat.leb_le in E. split; [done|].
      assert (length (pushUnseen st t).2 <= S (length st.2))%nat.
      { rewrite Heq, length_app. simpl.
        destruct (bool_decide (t ∈ st.2)); simpl; lia. }
      rewrite take_app_le by lia. rewrite take_ge by lia. done.
    + apply Nat.leb_gt in E. destruct (IH _ Hc' E) as [Hc'' Heq'].
      split; [done|]. rewrite Heq'. done.
Qed.

Lemma mergeTierGuarded_spec (cap : nat) (tier : list jstr) (st : MergeState) :
  coherent st -> (length st.2 <= cap)%nat ->
  coherent (mergeTierGuarded cap tier st)
  /\ (mergeTierGuarded cap tier st).2 = take cap (st.2 ++ fresh st.2 tier).
Proof.
  intros Hc Hlen. unfold mergeTierGuarded.
  destruct (length st.2 <? cap)%nat eqn:E.
  - apply Nat.ltb_lt in E. by apply mergeTierCapped_spec.
  - apply Nat.ltb_ge in E. split; [done|].
    rewrite take_app_le by lia. rewrite take_ge by lia. done.
Qed.

Lemma take_fresh_step (cap : nat) (X ts : list jstr) :
  take cap (take cap X ++ fresh (take cap X) ts) = take cap (X ++ fresh X ts).
Proof.
  destruct (decide (length X <= cap)%nat).
  - rewrite (take_ge X) by lia. done.
  - rewrite !take_app_le by (rewrite ?length_take; lia).
    rewrite take_take. f_equal. lia.
Qed.

Lemma coherent_empty : coherent (∅, []).
Proof. intros x. simpl. rewrite elem_of_nil. set_solver. Qed.

(** Both merges emit the first occurrences of the concatenated tiers. *)
Lemma mergeSuggestions_fresh (pref suff subs : list jstr) :
  mergeSuggestions pref suff subs = take 12 (fresh [] (pref ++ suff ++ subs)).
Proof.
  unfold mergeSuggestions.
  destruct (mergeTierCapped_spec 12 pref (∅, []) coherent_empty ltac:(simpl; lia))
    as [Hc1 E1]. simpl in E1.
  destruct (mergeTierGuarded_spec 12 suff _ Hc1
              ltac:(rewrite E1, length_take; lia)) as [Hc2 E2].
  destruct (mergeTierGuarded_spec 12 subs _ Hc2
              ltac:(rewrite E2, length_take; lia)) as [Hc3 E3].
  assert (Hstep : forall a b : list jstr,
            fresh [] a ++ fresh (fresh [] a) b = fresh [] (a ++ b))
    by (intros a b; by rewrite fresh_app, app_nil_r).
  rewrite E1, take_fresh_step, Hstep in E2.
  rewrite E2, take_fresh_step, Hstep, <- app_assoc in E3.
  exact E3.
Qed.

Lemma mergeFilters_fresh (pref suff subs : list jstr) :
  mergeFilters pref suff subs = fresh [] (pref ++ suff ++ subs).
Proof.
  unfold mergeFilters.
  destruct (mergeTier_spec pref (∅, []) coherent_empty) as [Hc1 E1].
  destruct (mergeTier_spec suff _ Hc1) as [Hc2 E2].
  destruct (mergeTier_spec subs _ Hc2) as [Hc3 E3].
  assert (Hstep : forall a b : list jstr,
            fresh [] a ++ fresh (fresh [] a) b = fresh [] (a ++ b))
    by (intros a b; by rewrite fresh_app, app_nil_r).
  simpl in E1. rewrite E1, Hstep in E2.
  rewrite E2, Hstep, <- app_assoc in E3.
  exact E3.
Qed.

Lemma fresh_tiers_NoDup (t1 t2 t3 : list jstr) :
  NoDup t1 -> NoDup t2 -> NoDup t3 ->
  fresh [] (t1 ++ t2 ++ t3)
  = t1 ++ filter (fun t => t ∉ t1) t2
       ++ filter (fun t => (t ∉ t1) /\ (t ∉ t2)) t3.
Proof.
  intros H1 H2 H3. rewrite !fresh_app, !app_nil_r.
  rewrite (fresh_NoDup [] t1 H1).
  assert (E1 : filter (fun t : jstr => t ∉ []) t1 = t1).
  { clear. induction t1 as [|x l IH]; [done|].
    rewrite filter_cons. destruct (decide (x ∉ [])) as [|Hn].
    - by rewrite IH.
    - exfalso. apply Hn. apply not_elem_of_nil. }
  rewrite E1. f_equal. rewrite (fresh_NoDup t1 t2 H2). f_equal.
  rewrite (fresh_NoDup _ t3 H3). apply filter_ext_in.
  intros x _. rewrite !not_elem_of_app, list_elem_of_filter. tauto.
Qed.

Lemma merge_tiers_NoDup (pref suff subs : list jstr) :
  NoDup pref -> NoDup suff -> NoDup subs ->
  mergeSuggestions pref suff subs = mergeOrdered pref suff subs 12
  /\ JS.slice (mergeFilters pref suff subs) 0 60
     = mergeOrdered pref suff subs 60.
Proof.
  intros H1 H2 H3. unfold mergeOrdered.
  rewrite mergeSuggestions_fresh, mergeFilters_fresh.
  change 60 with (Z.of_nat 60). rewrite slice_take.
  rewrite fresh_tiers_NoDup by done. done.
Qed.

Lemma fresh_abcd (a b c d : jstr) :
  NoDup [a; b; c; d] ->
  fresh [] ([a; b] ++ [b; c] ++ [c; d; a]) = [a; b; c; d].
Proof.
  intros Hnd.
  apply NoDup_cons in Hnd as [Ha Hnd]. apply NoDup_cons in Hnd as [Hb Hnd].
  apply NoDup_cons in Hnd as [Hc Hnd].
  assert (Hab : a <> b) by set_solver. assert (Hac : a <> c) by set_solver.
  assert (Had : a <> d) by set_solver. assert (Hbc : b <> c) by set_solver.
  assert (Hbd : b <> d) by set_solver. assert (Hcd : c <> d) by set_solver.
  simpl.
  repeat (first
    [ rewrite bool_decide_eq_true_2 by (rewrite ?elem_of_cons; tauto)
    | rewrite bool_decide_eq_false_2
        by (rewrite ?not_elem_of_cons; repeat split;
            (apply not_elem_of_nil || congruence)) ]).
  done.
Qed.


(** ** Matchers and suggestions *)

Lemma filter_sublist_of {A} (f : A -> bool) (l : list A) :
  List.filter f l `sublist_of` l.
Proof.
  induction l as [|x l IH]; simpl; [constructor|].
  destruct (f x); by constructor.
Qed.

Lemma filter_Forall_true {A} (f : A -> bool) (l : list A) :
  Forall (fun x => f x = true) (List.filter f l).
Proof.
  induction l as [|x l IH]; simpl; [constructor|].
  destruct (f x) eqn:E; [by constructor | done].
Qed.

Lemma StronglySorted_sublist_of {A} (R : relation A) (l1 l2 : list A) :
  l1 `sublist_of` l2 -> StronglySorted R l2 -> StronglySorted R l1.
Proof.
  induction 1 as [|x l1 l2 Hsub IH|x l1 l2 Hsub IH]; intros Hs.
  - constructor.
  - apply StronglySorted_inv in Hs as [Hs Hall]. constructor; [by apply IH|].
    rewrite Forall_forall in *. intros y Hy. apply Hall.
    by eapply elem_of_sublist.
  - apply StronglySorted_inv in Hs as [Hs _]. by apply IH.
Qed.

Lemma stripHash_empty (q : jstr) :
  q = [] \/ q = [HASH] -> JS.stripHash q = [].
Proof. by intros [-> | ->]. Qed.

Section MatcherFacts.
Context `{Host}.

(** What the three matchers share: a prefix of the filtered list. *)
Lemma sliced_filter_facts (f : jstr -> bool) (all : list jstr) (limit : nat) :
  let res := JS.slice (List.filter f all) 0 (Z.of_nat limit) in
  res `sublist_of` all /\ (length res <= limit)%nat
  /\ Forall (fun t => f t = true) res.
Proof.
  intros res. subst res. rewrite slice_take. split; [|split].
  - etrans; [apply sublist_take | apply filter_sublist_of].
  - rewrite length_take. lia.
  - apply Forall_take, filter_Forall_true.
Qed.

(** C5. [prefixMatch] answers a subsequence of the tag list, of at
    most [limit] tags, each of whose lowercase form starts with the
    lowercase query without its leading [#]; a sorted tag list gives a
    sorted answer; an empty query, or [#] alone, gives no tag. *)
Theorem C5_prefixMatch_subsequence (all : list jstr) (q : jstr) (limit : nat) :
  let p := toLowerCase (JS.stripHash q) in
  let res := prefixMatch all q (Z.of_nat limit) in
  res `sublist_of` all
  /\ (length res <= limit)%nat
  /\ Forall (fun t => JS.startsWith (toLowerCase t) p = true) res
  /\ (forall R : relation jstr, StronglySorted R all -> StronglySorted R res)
  /\ (q = [] \/ q = [HASH] -> res = []).
Proof.
  intros p res.
  assert (Hmain : res `sublist_of` all /\ (length res <= limit)%nat
    /\ Forall (fun t => JS.startsWith (toLowerCase t) p = true) res).
  { subst res. unfold prefixMatch. fold p.
    destruct (negb (JS.truthy p)).
    - split; [apply sublist_nil_l|]. split; [simpl; lia | constructor].
    - apply sliced_filter_facts. }
  destruct Hmain as (Hsub & Hlen & Hall).
  repeat (split; [done|]). split.
  - intros R. by apply StronglySorted_sublist_of.
  - intros Hq. subst res p. unfold prefixMatch.
    rewrite (stripHash_empty q Hq), toLowerCase_empty. done.
Qed.

Lemma mergeSuggestions_length (pref suff subs : list jstr) :
  (length (mergeSuggestions pref suff subs) <= 12)%nat.
Proof. rewrite mergeSuggestions_fresh, length_take. lia. Qed.

(** C6. The suggestion provider answers at most 12 tags, and none
    when the word at the caret is empty. *)
Theorem C6_getSuggestions_bound (allTags : list jstr) (modes : MatchSettings)
    (value : jstr) (selectionStart : option N) :
  (length (getSuggestions allTags modes value selectionStart) <= 12)%nat
  /\ (currentToken value selectionStart = [] ->
      getSuggestions allTags modes value selectionStart = []).
Proof.
  unfold getSuggestions. split.
  - destruct (negb (JS.truthy (currentToken value selectionStart)));
      [simpl; lia|].
    rewrite length_map. apply mergeSuggestions_length.
  - intros ->. done.
Qed.

End MatcherFacts.

Lemma C5_prefixMatch_subsequence_witness :
  @prefixMatch asciiHost [lit "project"; lit "projecta"; lit "urgentcare"]
    (lit "#Proj") 1 = [lit "project"]
  /\ @prefixMatch asciiHost [lit "project"; lit "projecta"; lit "urgentcare"]
    (lit "#") 60 = [].
Proof.
  split; [vm_compute; reflexivity|].
  refine (proj2 (proj2 (proj2 (proj2 (@C5_prefixMatch_subsequence asciiHost
    [lit "project"; lit "projecta"; lit "urgentcare"] (lit "#") 60%nat)))) _).
  right. reflexivity.
Defined.

Lemma C6_getSuggestions_bound_witness :
  @getSuggestions asciiHost [lit "project"; lit "projecta"]
    (mkSettings true true true 1000) (lit "a ") (Some 2%N) = [].
Proof.
  refine (proj2 (@C6_getSuggestions_bound asciiHost
    [lit "project"; lit "projecta"] (mkSettings true true true 1000)
    (lit "a ") (Some 2%N)) _).
  vm_compute. reflexivity.
Defined.

(** ** The merge of the matchers' tiers *)

(** The matchers answer duplicate-free tiers on a duplicate-free tag
    list. *)
Lemma matchers_NoDup `{Host} (all : list jstr) (q : jstr) (limit : nat) :
  NoDup all ->
  NoDup (prefixMatch all q (Z.of_nat limit))
  /\ NoDup (suffixMatch all q (Z.of_nat limit))
  /\ NoDup (substringMatch all q (Z.of_nat limit)).
Proof.
  intros Hnd. unfold prefixMatch, suffixMatch, substringMatch.
  destruct (negb (JS.truthy (toLowerCase (JS.stripHash q))));
    [repeat split; constructor|].
  repeat split;
    (eapply sublist_NoDup;
       [exact Hnd | apply (proj1 (sliced_filter_facts _ all limit))]).
Qed.

(** C4. The tiers the matchers answer on a duplicate-free tag list are
    duplicate-free, and the merge of three duplicate-free tiers is the
    prefix tier, then the suffix tier, then the substring tier, without
    the tags an earlier tier has emitted, cut at the cap: 12 in the
    suggestion provider, 60 in the filter generator. For tiers [a,b],
    [b,c], [c,d,a] the result is [a,b,c,d]. *)
Theorem C4_merge_tiers :
  (forall (H : Host) (all : list jstr) (q : jstr) (limit : nat),
     NoDup all ->
     NoDup (prefixMatch all q (Z.of_nat limit))
     /\ NoDup (suffixMatch all q (Z.of_nat limit))
     /\ NoDup (substringMatch all q (Z.of_nat limit)))
  /\ (forall pref suff subs : list jstr,
     NoDup pref -> NoDup suff -> NoDup subs ->
     mergeSuggestions pref suff subs = mergeOrdered pref suff subs 12
     /\ JS.slice (mergeFilters pref suff subs) 0 60
        = mergeOrdered pref suff subs 60)
  /\ (forall a b c d : jstr,
     NoDup [a; b; c; d] ->
     mergeSuggestions [a; b] [b; c] [c; d; a] = [a; b; c; d]
     /\ JS.slice (mergeFilters [a; b] [b; c] [c; d; a]) 0 60 = [a; b; c; d]).
Proof.
  split; [exact @matchers_NoDup|].
  split; [exact merge_tiers_NoDup|].
  intros a b c d Hnd.
  rewrite mergeSuggestions_fresh, mergeFilters_fresh.
  change 60 with (Z.of_nat 60). rewrite slice_take.
  rewrite (fresh_abcd a b c d Hnd). done.
Qed.

Lemma C4_merge_tiers_witness :
  mergeSuggestions [lit "a"; lit "b"] [lit "b"; lit "c"]
    [lit "c"; lit "d"; lit "a"]
  = [lit "a"; lit "b"; lit "c"; lit "d"]
  /\ mergeSuggestions [lit "x"] [lit "y"; lit "x"] [lit "z"]
     = mergeOrdered [lit "x"] [lit "y"; lit "x"] [lit "z"] 12.
Proof.
  split.
  - refine (proj1 (proj2 (proj2 C4_merge_tiers) (lit "a") (lit "b") (lit "c")
                     (lit "d") _)).
    apply (bool_decide_unpack _). vm_compute. exact I.
  - refine (proj1 (proj1 (proj2 C4_merge_tiers) [lit "x"] [lit "y"; lit "x"]
                     [lit "z"] _ _ _));
      apply (bool_decide_unpack _); vm_compute; exact I.
Defined.

(** ** The filter generator *)

Lemma trimStart_nil_iff (s : jstr) :
  JS.trimStart s = [] <-> Forall (fun c => JS.isWhiteSpace c = true) s.
Proof.
  induction s as [|c s IH]; simpl; [split; [constructor | done]|].
  destruct (JS.isWhiteSpace c) eqn:E.
  - rewrite IH. split; [by constructor | by inversion 1].
  - split; [done | inversion 1; congruence].
Qed.

Lemma trimStart_head (s : jstr) :
  match JS.trimStart s with
  | [] => True
  | c :: _ => JS.isWhiteSpace c = false
  end.
Proof.
  induction s as [|c s IH]; simpl; [done|].
  destruct (JS.isWhiteSpace c) eqn:E; done.
Qed.


(** An input that trims to nothing is white space throughout. *)
Lemma trim_nil_all_ws (s : jstr) :
  JS.trim s = [] -> Forall (fun c => JS.isWhiteSpace c = true) s.
Proof.
  unfold JS.trim, JS.trimEnd. intros Ht.
  apply (f_equal (@rev N)) in Ht. rewrite rev_involutive in Ht. simpl in Ht.
  apply trimStart_nil_iff in Ht. apply Forall_rev in Ht.
  rewrite rev_involutive in Ht.
  pose proof (trimStart_head s) as Hh.
  destruct (JS.trimStart s) as [|c t] eqn:E.
  - by apply trimStart_nil_iff.
  - inversion Ht; congruence.
Qed.

Lemma splitLines_single (a : jstr) :
  10%N ∉ a -> splitLines a = [a].
Proof.
  induction a as [|c a IH]; intros Hn; [done|].
  apply not_elem_of_cons in Hn as [Hc Ha]. simpl.
  destruct (N.eqb_spec c 10); [congruence|]. by rewrite IH.
Qed.

Lemma splitLines_app_nl (a b : jstr) :
  10%N ∉ a -> splitLines (a ++ NL ++ b) = a :: splitLines b.
Proof.
  induction a as [|c a IH]; intros Hn; [done|].
  apply not_elem_of_cons in Hn as [Hc Ha]. simpl.
  destruct (N.eqb_spec c 10); [congruence|].
  change (a ++ 10%N :: b) with (a ++ NL ++ b). by rewrite IH.
Qed.

(** A string without the code unit [x] includes no pattern that has it. *)
Lemma startsWith_elem (s pat : jstr) (x : N) :
  x ∈ pat -> JS.startsWith s pat = true -> x ∈ s.
Proof.
  intros Hx [rest ->]%startsWith_app. apply elem_of_app. by left.
Qed.

Lemma indexOfFrom_free (pat s : jstr) (x : N) (k : Z) :
  x ∈ pat -> x ∉ s -> JS.indexOfFrom pat s k = -1.
Proof.
  intros Hx. revert k. induction s as [|c s IH]; intros k Hs; simpl.
  - destruct (JS.startsWith [] pat) eqn:E; [|done].
    exfalso. apply Hs. by eapply startsWith_elem.
  - destruct (JS.startsWith (c :: s) pat) eqn:E.
    + exfalso. apply Hs. by eapply startsWith_elem.
    + apply IH. by apply not_elem_of_cons in Hs as [_ ?].
Qed.

Lemma includes_free (pat s : jstr) (x : N) :
  x ∈ pat -> x ∉ s -> JS.includes s pat = false.
Proof.
  intros Hx Hs. unfold JS.includes, JS.indexOf.
  assert (E : Z.min (Z.max 0 0) (len s) = 0) by (unfold len; lia).
  rewrite E. change (Z.to_nat 0) with 0%nat.
  rewrite drop_0, (indexOfFrom_free pat s x 0 Hx Hs). done.
Qed.


(** ** URI component coding: the round trip *)

(** Boolean tests on code units, as arithmetic facts. *)
Ltac nbool :=
  repeat rewrite ?andb_true_iff, ?orb_true_iff, ?andb_false_iff,
    ?orb_false_iff, ?negb_true_iff, ?negb_false_iff, ?N.leb_le, ?N.ltb_lt,
    ?N.eqb_eq, ?N.leb_gt, ?N.ltb_ge, ?N.eqb_neq in *.

(** Linear arithmetic with division by constants. *)
Ltac dlia := zify; Z.to_euclidean_division_equations; lia.

Ltac btrue := match goal with |- _ = true => nbool; dlia end.
Ltac bfalse := match goal with |- _ = false => nbool; dlia end.

(** Settle the tests of the goal by arithmetic. *)
Ltac ifs :=
  repeat match goal with
  | |- context [if ?c then _ else _] =>
      first [ replace c with true by (symmetry; btrue)
            | replace c with false by (symmetry; bfalse) ]; cbv iota
  end.

Section UriRoundTrip.
Local Open Scope N_scope.

Lemma hexValue_hexDigit (n : N) :
  n < 16 -> Uri.hexValue (Uri.hexDigit n) = Some n.
Proof.
  intros Hn. unfold Uri.hexValue, Uri.hexDigit.
  destruct (n <? 10) eqn:E; nbool; ifs; f_equal; lia.
Qed.

Lemma parseHexOctet_hexDigit (b : N) :
  b < 256 ->
  Uri.parseHexOctet (Uri.hexDigit (b / 16)) (Uri.hexDigit (b mod 16)) = Some b.
Proof.
  intros Hb. unfold Uri.parseHexOctet.
  rewrite !hexValue_hexDigit by dlia. f_equal. dlia.
Qed.

(** The equations of the decoder at an escape. *)
Lemma decodeLoop_raw (fuel : nat) (c : N) (s : jstr) :
  c <> PERCENT ->
  Uri.decodeLoop (S fuel) (c :: s) = cons c <$> Uri.decodeLoop fuel s.
Proof.
  intros Hc. simpl. destruct (N.eqb_spec c PERCENT); [done | reflexivity].
Qed.

Lemma decodeLoop_escape (fuel : nat) (b : N) (s : jstr) :
  b < 256 ->
  Uri.decodeLoop (S fuel) (Uri.percentOctet b ++ s)
  = let n := Uri.leadingOnes b in
    if (n =? 0)%nat then cons b <$> Uri.decodeLoop fuel s
    else if (n =? 1)%nat || (4 <? n)%nat then None
    else match Uri.readContinuation (n - 1) s with
         | None => None
         | Some (bs, s3) =>
             match Uri.utf8Decode (b :: bs) with
             | None => None
             | Some v => app (Uri.utf16Encode v) <$> Uri.decodeLoop fuel s3
             end
         end.
Proof.
  intros Hb. unfold Uri.percentOctet.
  change ([PERCENT; Uri.hexDigit (b / 16); Uri.hexDigit (b mod 16)] ++ s)
    with (PERCENT :: Uri.hexDigit (b / 16) :: Uri.hexDigit (b mod 16) :: s).
  cbn [Uri.decodeLoop]. change (N.eqb PERCENT PERCENT) with true.
  cbn [negb]. rewrite (parseHexOctet_hexDigit b Hb). reflexivity.
Qed.

Lemma readContinuation_escape (n : nat) (b : N) (s : jstr) :
  b < 256 ->
  Uri.readContinuation (S n) (Uri.percentOctet b ++ s)
  = match Uri.readContinuation n s with
    | Some (bs, rest) => Some (b :: bs, rest)
    | None => None
    end.
Proof.
  intros Hb. unfold Uri.percentOctet.
  change ([PERCENT; Uri.hexDigit (b / 16); Uri.hexDigit (b mod 16)] ++ s)
    with (PERCENT :: Uri.hexDigit (b / 16) :: Uri.hexDigit (b mod 16) :: s).
  cbn [Uri.readContinuation]. change (N.eqb PERCENT PERCENT) with true.
  cbv iota. rewrite (parseHexOctet_hexDigit b Hb). reflexivity.
Qed.

(** Decoding the escape of a scalar value gives its UTF-16 form back. *)
Lemma decodeLoop_escapeCodePoint (fuel : nat) (cp : N) (s : jstr) :
  isScalar cp ->
  Uri.decodeLoop (S fuel) (Uri.escapeCodePoint cp ++ s)
  = app (Uri.utf16Encode cp) <$> Uri.decodeLoop fuel s.
Proof.
  intros [Hmax Hsur]. unfold Uri.escapeCodePoint, Uri.utf8Encode.
  destruct (cp <? 128) eqn:E1; [|destruct (cp <? 2048) eqn:E2;
    [|destruct (cp <? 65536) eqn:E3]]; nbool;
    cbn [flat_map]; rewrite <- ?app_assoc, ?app_nil_l.
  - rewrite decodeLoop_escape by lia. cbv zeta.
    unfold Uri.leadingOnes, Uri.utf16Encode. ifs. reflexivity.
  - rewrite decodeLoop_escape by dlia. cbv zeta.
    replace (Uri.leadingOnes (192 + cp / 64)) with 2%nat
      by (unfold Uri.leadingOnes; ifs; reflexivity).
    cbn [Nat.eqb Nat.ltb Nat.leb orb Nat.sub].
    rewrite readContinuation_escape by dlia. cbn [Uri.readContinuation].
    unfold Uri.utf8Decode, Uri.isContinuation. ifs.
    match goal with
    | |- app (Uri.utf16Encode ?v) <$> _ = _ => replace v with cp by dlia
    end. reflexivity.
  - rewrite decodeLoop_escape by dlia. cbv zeta.
    replace (Uri.leadingOnes (224 + cp / 4096)) with 3%nat
      by (unfold Uri.leadingOnes; ifs; reflexivity).
    cbn [Nat.eqb Nat.ltb Nat.leb orb Nat.sub].
    rewrite !readContinuation_escape by dlia. cbn [Uri.readContinuation].
    unfold Uri.utf8Decode, Uri.isContinuation. ifs.
    match goal with
    | |- app (Uri.utf16Encode ?v) <$> _ = _ => replace v with cp by dlia
    end. reflexivity.
  - rewrite decodeLoop_escape by dlia. cbv zeta.
    replace (Uri.leadingOnes (240 + cp / 262144)) with 4%nat
      by (unfold Uri.leadingOnes; ifs; reflexivity).
    cbn [Nat.eqb Nat.ltb Nat.leb orb Nat.sub].
    rewrite !readContinuation_escape by dlia. cbn [Uri.readContinuation].
    unfold Uri.utf8Decode, Uri.isContinuation. ifs.
    match goal with
    | |- app (Uri.utf16Encode ?v) <$> _ = _ => replace v with cp by dlia
    end. reflexivity.
Qed.


Lemma hexDigit_upper (n : N) : n < 16 -> isHexUpper (Uri.hexDigit n) = true.
Proof.
  intros Hn. unfold isHexUpper, Uri.hexDigit.
  destruct (n <? 10) eqn:E; nbool; lia.
Qed.

Lemma utf8Encode_octets (cp : N) :
  cp < 1114112 -> Forall (fun b => b < 256) (Uri.utf8Encode cp).
Proof.
  intros Hcp. unfold Uri.utf8Encode.
  destruct (cp <? 128) eqn:E1; [|destruct (cp <? 2048) eqn:E2;
    [|destruct (cp <? 65536) eqn:E3]]; nbool;
    repeat constructor; dlia.
Qed.

Lemma percentOctet_percentHex (b : N) :
  b < 256 -> Forall (fun c => isPercentHex c = true) (Uri.percentOctet b).
Proof.
  intros Hb. unfold Uri.percentOctet, isPercentHex.
  repeat constructor.
  - rewrite (hexDigit_upper (b / 16)) by dlia. apply orb_true_r.
  - rewrite (hexDigit_upper (b mod 16)) by dlia. apply orb_true_r.
Qed.

Lemma escapeCodePoint_percentHex (cp : N) :
  cp < 1114112 ->
  Forall (fun c => isPercentHex c = true) (Uri.escapeCodePoint cp).
Proof.
  intros Hcp. unfold Uri.escapeCodePoint.
  pose proof (utf8Encode_octets cp Hcp) as Hoct.
  induction Hoct as [|b bs Hb _ IH]; [constructor|].
  cbn [flat_map]. apply Forall_app. split; [by apply percentOctet_percentHex|].
  exact IH.
Qed.

Lemma escapeCodePoint_encoded (cp : N) :
  cp < 1114112 ->
  Forall (fun c => isEncoded c = true) (Uri.escapeCodePoint cp).
Proof.
  intros Hcp. eapply Forall_impl; [by apply escapeCodePoint_percentHex|].
  intros c Hc. unfold isEncoded. simpl in Hc. rewrite Hc. apply orb_true_r.
Qed.

Lemma escapeCodePoint_length (cp : N) :
  (3 <= length (Uri.escapeCodePoint cp))%nat.
Proof.
  unfold Uri.escapeCodePoint, Uri.utf8Encode.
  destruct (cp <? 128); [|destruct (cp <? 2048); [|destruct (cp <? 65536)]];
    simpl; lia.
Qed.

(** Every well-formed string encodes, into the alphabet of escapes and
    unreserved code units, and decodes to itself. *)
Lemma encode_decode_wf (n : nat) (s : jstr) :
  (length s <= n)%nat -> Uri.isWellFormed s = true ->
  exists e, Uri.encodeURIComponent s = Some e
    /\ (forall fuel, (length e <= fuel)%nat -> Uri.decodeLoop fuel e = Some s)
    /\ Forall (fun c => isEncoded c = true) e
    /\ (s <> [] -> e <> []).
Proof.
  revert s. induction n as [|n IH]; intros s Hlen Hwf.
  { destruct s; [|simpl in Hlen; lia]. exists []. repeat split; try done.
    intros fuel _. by destruct fuel. }
  destruct s as [|c s']; [exists []; repeat split; try done;
    intros fuel _; by destruct fuel|].
  simpl in Hlen. cbn [Uri.encodeURIComponent Uri.isWellFormed] in *.
  destruct (Uri.isUnreserved c) eqn:Eu.
  - (* an unreserved code unit is copied *)
    assert (Hc : c <> PERCENT /\ Uri.isLeadSurrogate c = false
                 /\ isEncoded c = true).
    { unfold isEncoded. rewrite Eu.
      unfold Uri.isUnreserved, Uri.isAlnum, Uri.isLeadSurrogate, PERCENT in *.
      nbool. lia. }
    destruct Hc as (Hpc & Hlead & Henc). rewrite Hlead in Hwf.
    apply andb_true_iff in Hwf as [_ Hwf].
    destruct (IH s' ltac:(lia) Hwf) as (e & He & Hdec & Halpha & _).
    exists (c :: e). rewrite He. split; [done|]. split; [|split].
    + intros [|fuel] Hf; [simpl in Hf; lia|].
      rewrite decodeLoop_raw by done. rewrite Hdec by (simpl in Hf; lia). done.
    + by constructor.
    + done.
  - destruct (Uri.isTrailSurrogate c) eqn:Et.
    { (* an unpaired trail surrogate is not well formed *)
      exfalso. unfold Uri.isTrailSurrogate, Uri.isLeadSurrogate in *.
      destruct ((55296 <=? c) && (c <=? 56319)) eqn:El; nbool; lia. }
    destruct (Uri.isLeadSurrogate c) eqn:El.
    + (* a surrogate pair *)
      destruct s' as [|d s'']; [done|].
      apply andb_true_iff in Hwf as [Hd Hwf]. rewrite Hd.
      simpl in Hlen.
      destruct (IH s'' ltac:(lia) Hwf) as (e & He & Hdec & Halpha & _).
      set (cp := Uri.surrogatePairToCodePoint c d).
      assert (Hcp : 65536 <= cp < 1114112
                    /\ Uri.utf16Encode cp = [c; d]).
      { subst cp. unfold Uri.surrogatePairToCodePoint, Uri.utf16Encode,
          Uri.isLeadSurrogate, Uri.isTrailSurrogate in *. nbool.
        split; [lia|]. ifs. f_equal; [|f_equal]; dlia. }
      destruct Hcp as (Hrange & H16).
      exists (Uri.escapeCodePoint cp ++ e). rewrite He.
      split; [done|]. split; [|split].
      * intros [|fuel] Hf.
        { pose proof (escapeCodePoint_length cp).
          rewrite length_app in Hf. lia. }
        rewrite decodeLoop_escapeCodePoint by (split; lia).
        rewrite Hdec, H16; [done|].
        pose proof (escapeCodePoint_length cp).
        rewrite length_app in Hf. lia.
      * apply Forall_app. split; [apply escapeCodePoint_encoded; lia | done].
      * intros _ Habs. apply app_eq_nil in Habs as [Habs _].
        pose proof (escapeCodePoint_length cp) as Hl.
        rewrite Habs in Hl. simpl in Hl. lia.
    + (* any other code unit of the basic plane *)
      cbn [negb andb] in Hwf. apply andb_true_iff in Hwf as [Hc Hwf].
      destruct (IH s' ltac:(lia) Hwf) as (e & He & Hdec & Halpha & _).
      assert (Hs : isScalar c /\ Uri.utf16Encode c = [c]).
      { unfold isScalar, Uri.utf16Encode, Uri.isLeadSurrogate,
          Uri.isTrailSurrogate in *. nbool. split; [lia|]. ifs. done. }
      destruct Hs as (Hs & H16).
      exists (Uri.escapeCodePoint c ++ e). rewrite He.
      split; [done|]. split; [|split].
      * intros [|fuel] Hf.
        { pose proof (escapeCodePoint_length c).
          rewrite length_app in Hf. lia. }
        rewrite decodeLoop_escapeCodePoint by done.
        rewrite Hdec, H16; [done|].
        pose proof (escapeCodePoint_length c).
        rewrite length_app in Hf. lia.
      * apply Forall_app. split; [|done].
        apply escapeCodePoint_encoded. destruct Hs. lia.
      * intros _ Habs. apply app_eq_nil in Habs as [Habs _].
        pose proof (escapeCodePoint_length c) as Hl.
        rewrite Habs in Hl. simpl in Hl. lia.
Qed.

End UriRoundTrip.

(** The state codec is the identity on well-formed strings. *)
Lemma decodeState_encodeState (s : jstr) :
  Uri.isWellFormed s = true -> decodeState (encodeState s) = s.
Proof.
  intros Hwf.
  destruct (encode_decode_wf (length s) s ltac:(lia) Hwf)
    as (e & He & Hdec & _).
  unfold decodeState, encodeState, Uri.decodeURIComponent.
  rewrite He. simpl. rewrite Hdec by lia. done.
Qed.

Lemma encodeState_encoded (s : jstr) :
  Uri.isWellFormed s = true ->
  Forall (fun c => isEncoded c = true) (encodeState s)
  /\ (s <> [] -> encodeState s <> []).
Proof.
  intros Hwf.
  destruct (encode_decode_wf (length s) s ltac:(lia) Hwf)
    as (e & He & _ & Halpha & Hne).
  unfold encodeState. rewrite He. done.
Qed.

Lemma isEncoded_not_ws (c : N) :
  isEncoded c = true -> JS.isWhiteSpace c = false.
Proof.
  unfold isEncoded, isPercentHex, Uri.isUnreserved, Uri.isAlnum, isHexUpper,
    JS.isWhiteSpace, JS.isLineTerminator, PERCENT.
  nbool. lia.
Qed.

(** ** The body of the managed region *)

Lemma encode_ws (s : jstr) :
  Forall (fun c => JS.isWhiteSpace c = true) s ->
  exists e, Uri.encodeURIComponent s = Some e
    /\ Forall (fun c => isPercentHex c = true) e.
Proof.
  induction 1 as [|c s Hc _ (e & He & Halpha)]; [by exists []|].
  assert (Hcls : Uri.isUnreserved c = false /\ Uri.isTrailSurrogate c = false
                 /\ Uri.isLeadSurrogate c = false /\ (c < 1114112)%N).
  { unfold Uri.isUnreserved, Uri.isAlnum, Uri.isTrailSurrogate,
      Uri.isLeadSurrogate, JS.isWhiteSpace, JS.isLineTerminator in *.
    nbool. lia. }
  destruct Hcls as (Hu & Ht & Hl & Hmax).
  exists (Uri.escapeCodePoint c ++ e).
  cbn [Uri.encodeURIComponent]. rewrite Hu, Ht, Hl, He. split; [done|].
  apply Forall_app. split; [by apply escapeCodePoint_percentHex | done].
Qed.

Lemma digitsOfUint_digits (d : Decimal.uint) :
  Forall (fun c => JS.isDigit c = true) (JS.digitsOfUint d).
Proof. induction d; simpl; constructor; done. Qed.

Lemma numToString_digits (n : N) :
  Forall (fun c => JS.isDigit c = true) (JS.numToString n).
Proof. apply digitsOfUint_digits. Qed.

Lemma Forall_not_elem (P : N -> bool) (x : N) (s : jstr) :
  P x = false -> Forall (fun c => P c = true) s -> x ∉ s.
Proof.
  intros Hx Hall Hin. rewrite Forall_forall in Hall.
  specialize (Hall x Hin). congruence.
Qed.

Lemma trimStart_noWs (s : jstr) : noWs s -> JS.trimStart s = s.
Proof. destruct 1 as [|c s Hc _]; [done|]. simpl. by rewrite Hc. Qed.

Lemma trim_noWs (s : jstr) : noWs s -> JS.trim s = s.
Proof.
  intros Hs. unfold JS.trim, JS.trimEnd. rewrite (trimStart_noWs s Hs).
  rewrite trimStart_noWs by (by apply Forall_rev).
  apply rev_involutive.
Qed.

Lemma splitWsLoop_noWs (s cur : jstr) (inWs : bool) :
  noWs cur -> Forall noWs (JS.splitWsLoop s cur inWs).
Proof.
  revert cur inWs. induction s as [|c s IH]; intros cur inWs Hcur; simpl.
  - constructor; [|constructor]. by apply Forall_rev.
  - destruct (JS.isWhiteSpace c) eqn:E.
    + destruct inWs; [by apply IH|].
      constructor; [by apply Forall_rev | apply IH; constructor].
    + apply IH. by constructor.
Qed.

(** The tokens of an input: the non-empty pieces between white space. *)
Lemma tokens_noWs (s : jstr) :
  Forall (fun t => t <> [] /\ noWs t) (List.filter JS.truthy (JS.splitWs s)).
Proof.
  pose proof (splitWsLoop_noWs s [] false ltac:(constructor)) as Hall.
  fold (JS.splitWs s) in Hall.
  induction Hall as [|t ts Ht _ IH]; simpl; [constructor|].
  destruct t as [|c t]; simpl; [done|]. by constructor.
Qed.





Section BodyFacts.
Context `{Host}.

Lemma sliceFrom_tail (c : N) (s : jstr) : JS.sliceFrom (c :: s) 1 = s.
Proof.
  rewrite sliceFrom_suffix by (rewrite len_cons; pose proof (len_nonneg s); lia).
  done.
Qed.

Lemma clauseBase_stripHash (part : jstr) :
  noWs part -> clauseBase part = JS.stripHash part.
Proof.
  intros Hp. unfold clauseBase, JS.stripHash.
  destruct part as [|c part]; [done|]. simpl.
  destruct (N.eqb c HASH) eqn:E; [|done]. simpl.
  rewrite sliceFrom_tail. apply trim_noWs. by inversion Hp.
Qed.

Lemma clauseMerged_fresh (allTags : list jstr) (modes : MatchSettings)
    (base : jstr) :
  clauseMerged allTags modes base = fresh [] (tokenTiers allTags modes base).
Proof. unfold clauseMerged, tokenTiers. apply mergeFilters_fresh. Qed.

(** The clause of one token: the token without its [#], unless nothing
    is left of it, then the first 60 merged tags. *)
Lemma clauseLine_spec (allTags : list jstr) (modes : MatchSettings)
    (part : jstr) :
  noWs part ->
  let base := JS.stripHash part in
  let listed := take 60 (fresh [] (tokenTiers allTags modes base)) in
  clauseLine allTags modes part
  = clauseOf ((if JS.truthy base then [quoted base] else [])
              ++ List.map quoted listed)
  /\ (length listed <= 60)%nat.
Proof.
  intros Hp base listed. split.
  - unfold clauseLine, clauseOf. rewrite (clauseBase_stripHash part Hp).
    fold base. rewrite clauseMerged_fresh.
    change 60 with (Z.of_nat 60). rewrite slice_take. done.
  - subst listed. rewrite length_take. lia.
Qed.

(** C9. When the input trims to nothing, the generated body is three
    lines: [filters:], the INPUT line holding the encoded input, and the
    CARET line. No line has a [containsAny] clause or [and:]. *)
Theorem C9_empty_input_body (input : jstr) (allTags : list jstr)
    (caret : option N) (modes : MatchSettings) :
  JS.trim input = [] ->
  let body := buildFiltersFromInput input allTags caret modes in
  Uri.encodeURIComponent input = Some (encodeState input)
  /\ splitLines body
     = [lit "filters:"; inputLine input; caretLine (default 0%N caret)]
  /\ Forall (fun l => JS.includes l (lit "containsAny") = false
                      /\ JS.includes l (lit "and:") = false)
       (splitLines body)
  /\ (input = [] -> inputLine input = lit "# INPUT: ").
Proof.
  intros Htrim body.
  destruct (encode_ws input (trim_nil_all_ws input Htrim)) as (e & He & Halpha).
  assert (Henc : encodeState input = e) by (unfold encodeState; by rewrite He).
  assert (Hn : forall x : N, isPercentHex x = false -> JS.isDigit x = false ->
               x ∉ lit "filters:" -> x ∉ lit "# INPUT: " ->
               x ∉ lit "# CARET: " ->
               (x ∉ lit "filters:") /\ (x ∉ inputLine input)
               /\ (x ∉ caretLine (default 0%N caret))).
  { intros x Hx1 Hx2 Hf Hi Hc. split; [done|]. split.
    - unfold inputLine. rewrite Henc, elem_of_app. intros [?|Hin]; [done|].
      revert Hin. by apply (Forall_not_elem isPercentHex).
    - unfold caretLine. rewrite elem_of_app. intros [?|Hin]; [done|].
      revert Hin.
      apply (Forall_not_elem JS.isDigit); [done | apply numToString_digits]. }
  assert (Hbody : body = lit "filters:" ++ NL ++ inputLine input ++ NL
                         ++ caretLine (default 0%N caret)).
  { subst body. unfold buildFiltersFromInput. rewrite Htrim. reflexivity. }
  assert (M10 : (10%N ∉ lit "filters:") /\ (10%N ∉ lit "# INPUT: ")
                /\ (10%N ∉ lit "# CARET: ")).
  { repeat split; apply (bool_decide_unpack _); vm_compute; exact I. }
  assert (M110 : (110%N ∉ lit "filters:") /\ (110%N ∉ lit "# INPUT: ")
                 /\ (110%N ∉ lit "# CARET: ")).
  { repeat split; apply (bool_decide_unpack _); vm_compute; exact I. }
  destruct M10 as (Ma & Mb & Mc), M110 as (Na & Nb & Nc).
  assert (Hlines : splitLines body
     = [lit "filters:"; inputLine input; caretLine (default 0%N caret)]).
  { destruct (Hn 10%N eq_refl eq_refl Ma Mb Mc) as (H1 & H2 & H3).
    rewrite Hbody. rewrite splitLines_app_nl by done.
    rewrite splitLines_app_nl by done. rewrite splitLines_single by done.
    done. }
  split; [by rewrite Henc|]. split; [done|]. split.
  - rewrite Hlines.
    destruct (Hn 110%N eq_refl eq_refl Na Nb Nc) as (H1 & H2 & H3).
    assert (Hn1 : 110%N ∈ lit "containsAny")
      by (apply (bool_decide_unpack _); vm_compute; exact I).
    assert (Hn2 : 110%N ∈ lit "and:")
      by (apply (bool_decide_unpack _); vm_compute; exact I).
    repeat constructor; by eapply includes_free.
  - intros ->. reflexivity.
Qed.


End BodyFacts.

Lemma C9_empty_input_body_witness :
  splitLines (@buildFiltersFromInput asciiHost (lit "  ") sampleTags None
                defaultSettings)
  = [lit "filters:"; inputLine (lit "  "); caretLine 0%N].
Proof.
  refine (proj1 (proj2 (@C9_empty_input_body asciiHost (lit "  ") sampleTags
                          None defaultSettings _))).
  vm_compute. reflexivity.
Defined.



(** ** The two patterns *)

Lemma parseDigits_acc (d : Decimal.uint) (acc : positive) :
  fold_left (fun a c => (a * 10 + (c - 48))%N) (JS.digitsOfUint d) (Npos acc)
  = Npos (Pos.of_uint_acc d acc).
Proof.
  revert acc. induction d; intros acc; simpl; [done|..];
    rewrite <- IHd; f_equal; lia.
Qed.

Lemma parseDigits_digitsOfUint (d : Decimal.uint) :
  JS.parseDigits (JS.digitsOfUint d) = N.of_uint d.
Proof.
  unfold JS.parseDigits, N.of_uint.
  induction d; simpl; [done | exact IHd | ..];
    rewrite <- parseDigits_acc; reflexivity.
Qed.

(** [parseInt] reads back what the template printed. *)
Lemma parseDigits_numToString (n : N) :
  JS.parseDigits (JS.numToString n) = n.
Proof.
  unfold JS.numToString. rewrite parseDigits_digitsOfUint.
  apply DecimalN.Unsigned.of_to.
Qed.

Lemma numToString_nonempty (n : N) : JS.numToString n <> [].
Proof.
  unfold JS.numToString. destruct n as [|p]; [done|].
  simpl. intros Habs.
  assert (Hz : N.of_uint (Pos.to_uint p) = 0%N).
  { rewrite <- parseDigits_digitsOfUint, Habs. reflexivity. }
  change (Pos.to_uint p) with (N.to_uint (Npos p)) in Hz.
  rewrite DecimalN.Unsigned.of_to in Hz. discriminate.
Qed.

Lemma join_cons (sep p : jstr) (ps : list jstr) :
  ps <> [] -> JS.join sep (p :: ps) = p ++ sep ++ JS.join sep ps.
Proof. by destruct ps. Qed.

Lemma join_snoc (sep : jstr) (ps : list jstr) (q : jstr) :
  ps <> [] -> JS.join sep (ps ++ [q]) = JS.join sep ps ++ sep ++ q.
Proof.
  induction ps as [|p ps IH]; [done|]. intros _.
  destruct ps as [|p' ps]; [done|].
  change ((p :: p' :: ps) ++ [q]) with (p :: ((p' :: ps) ++ [q])).
  rewrite join_cons by (by destruct ps).
  rewrite IH by done. rewrite (join_cons sep p (p' :: ps)) by done.
  by rewrite <- !app_assoc.
Qed.

Section Search.
Context {R : Type} (m : jstr -> option R).

Lemma searchLines_inside (line rest : jstr) :
  noLT line ->
  Regex.searchLines m false (line ++ NL ++ rest)
  = Regex.searchLines m true rest.
Proof.
  induction 1 as [|c line Hc _ IH]; [reflexivity|].
  cbn [app Regex.searchLines]. rewrite Hc. exact IH.
Qed.

Lemma searchLines_skip (line rest : jstr) :
  noLT line -> m (line ++ NL ++ rest) = None ->
  Regex.searchLines m true (line ++ NL ++ rest)
  = Regex.searchLines m true rest.
Proof.
  intros Hline Hm. destruct Hline as [|c line Hc Hline].
  - unfold NL in *. cbn [app Regex.searchLines] in *.
    rewrite Hm. reflexivity.
  - cbn [app Regex.searchLines] in *. rewrite Hm, Hc.
    by apply searchLines_inside.
Qed.

Lemma searchLines_hit (s : jstr) (r : R) :
  m s = Some r -> Regex.searchLines m true s = Some r.
Proof. intros Hm. destruct s; simpl; by rewrite Hm. Qed.

End Search.

(** The search walks over the lines a pattern misses and stops at the
    first line it matches. *)
Lemma searchLines_lines (m : jstr -> option jstr) (pre : list jstr)
    (target : jstr) (post : list jstr) (r : jstr) :
  Forall (misses m) pre ->
  (forall rest, m (target ++ NL ++ rest) = Some r) ->
  post <> [] ->
  Regex.searchLines m true (JS.join NL (pre ++ target :: post)) = Some r.
Proof.
  intros Hpre Hhit Hpost. induction Hpre as [|l pre [Hl Hmiss] _ IH].
  - cbn [app]. rewrite join_cons by done. by apply searchLines_hit.
  - cbn [app]. rewrite join_cons by (by destruct pre).
    rewrite searchLines_skip by done. exact IH.
Qed.

(** A line that does not open with [#] is missed by both patterns. *)
Lemma literal_hash_miss {R : Type} (k : jstr -> option R) (s : jstr) :
  match s with c :: _ => c <> HASH | [] => True end ->
  Regex.literal [HASH] k s = None.
Proof.
  unfold Regex.literal. destruct s as [|c s]; [done|]. simpl.
  intros Hc. by destruct (N.eqb_spec c HASH).
Qed.

Lemma misses_no_hash (m : jstr -> option jstr) (k : jstr -> option jstr)
    (l : jstr) :
  (forall s, m s = Regex.literal [HASH] k s) ->
  noLT l -> match l with c :: _ => c <> HASH | [] => True end ->
  misses m l.
Proof.
  intros Hm Hl Hhead. split; [done|]. intros rest. rewrite Hm.
  apply literal_hash_miss. destruct l; [by unfold NL, HASH|done].
Qed.

Lemma literal_app {R : Type} (p : jstr) (k : jstr -> option R) (s : jstr) :
  Regex.literal p k (p ++ s) = k s.
Proof.
  unfold Regex.literal.
  rewrite (proj2 (startsWith_app (p ++ s) p)) by (by exists s).
  by rewrite drop_app_length.
Qed.

Lemma star_stop {R : Type} (C : N -> bool) (k : jstr -> option R) (s : jstr) :
  match s with c :: _ => C c = false | [] => True end ->
  Regex.star C k s = k s.
Proof. destruct s as [|c s]; [done|]. simpl. by intros ->. Qed.

(** A greedy star whose longest match lets the rest succeed. *)
Lemma star_one {R : Type} (C : N -> bool) (k : jstr -> option R)
    (c : N) (s : jstr) (r : R) :
  C c = true -> Regex.star C k s = Some r ->
  Regex.star C k (c :: s) = Some r.
Proof. intros Hc Hs. simpl. by rewrite Hc, Hs. Qed.

(** A greedy captured run that stops at the end of its line. *)
Lemma starCapture_line (C : N -> bool) (acc x rest : jstr) :
  Forall (fun c => C c = true) x -> C 10%N = false ->
  Regex.starCapture C Regex.captureToLineEnd acc (x ++ NL ++ rest)
  = Some (acc ++ x).
Proof.
  intros Hx Hnl. revert acc. induction Hx as [|c x Hc _ IH]; intros acc.
  - cbn [app Regex.starCapture]. unfold NL. cbn [app Regex.starCapture].
    rewrite Hnl. by rewrite app_nil_r.
  - cbn [app Regex.starCapture]. rewrite Hc, IH. by rewrite <- app_assoc.
Qed.

Lemma plusCapture_line (C : N -> bool) (x rest : jstr) :
  x <> [] -> Forall (fun c => C c = true) x -> C 10%N = false ->
  Regex.plusCapture C Regex.captureToLineEnd (x ++ NL ++ rest) = Some x.
Proof.
  intros Hne Hx Hnl. destruct Hx as [|c x Hc Hx]; [done|].
  cbn [app Regex.plusCapture]. rewrite Hc.
  by rewrite starCapture_line.
Qed.

(** The INPUT pattern on an INPUT line whose payload is non-empty and
    free of white space: the group is the payload. *)
Lemma inputPattern_hit (payload rest : jstr) :
  payload <> [] -> noWs payload ->
  Regex.inputPattern ((lit "# INPUT: " ++ payload) ++ NL ++ rest)
  = Some payload.
Proof.
  intros Hne Hws. unfold Regex.inputPattern.
  change ((lit "# INPUT: " ++ payload) ++ NL ++ rest)
    with ([HASH] ++ SPACE :: lit "INPUT:" ++ SPACE :: (payload ++ NL ++ rest)).
  rewrite literal_app. apply star_one; [reflexivity|].
  rewrite star_stop by reflexivity. rewrite literal_app.
  apply star_one; [reflexivity|].
  assert (Hhead : match payload ++ NL ++ rest with
                  | c :: _ => JS.isWhiteSpace c = false
                  | [] => True
                  end).
  { destruct Hws; [done | done]. }
  rewrite star_stop by exact Hhead.
  apply plusCapture_line; [done | | reflexivity].
  eapply Forall_impl; [exact Hws|]. intros c Hc.
  unfold Regex.notLineTerminator, JS.isWhiteSpace in *.
  apply orb_false_iff in Hc as [_ ->]. reflexivity.
Qed.

(** The CARET pattern on a CARET line: the group is the digit string. *)
Lemma caretPattern_hit (digits rest : jstr) :
  digits <> [] -> Forall (fun c => JS.isDigit c = true) digits ->
  Regex.caretPattern ((lit "# CARET: " ++ digits) ++ NL ++ rest)
  = Some digits.
Proof.
  intros Hne Hd. unfold Regex.caretPattern.
  change ((lit "# CARET: " ++ digits) ++ NL ++ rest)
    with ([HASH] ++ SPACE :: lit "CARET:" ++ SPACE :: (digits ++ NL ++ rest)).
  rewrite literal_app. apply star_one; [reflexivity|].
  rewrite star_stop by reflexivity. rewrite literal_app.
  apply star_one; [reflexivity|].
  assert (Hhead : match digits ++ NL ++ rest with
                  | c :: _ => JS.isWhiteSpace c = false
                  | [] => True
                  end).
  { destruct Hd as [|c x Hc _]; [done|]. simpl.
    unfold JS.isDigit, JS.isWhiteSpace, JS.isLineTerminator in *.
    nbool. lia. }
  rewrite star_stop by exact Hhead.
  apply plusCapture_line; [done | done | reflexivity].
Qed.

(** ** The saved state read back from a generated body *)

Lemma isWhiteSpace_of_LT (c : N) :
  JS.isLineTerminator c = true -> JS.isWhiteSpace c = true.
Proof. unfold JS.isWhiteSpace. intros ->. apply orb_true_r. Qed.

Lemma noWs_noLT (s : jstr) : noWs s -> noLT s.
Proof.
  intros Hs. eapply Forall_impl; [exact Hs|]. intros c Hc. simpl in *.
  destruct (JS.isLineTerminator c) eqn:E; [|done].
  apply isWhiteSpace_of_LT in E. congruence.
Qed.

Lemma encoded_noWs (e : jstr) :
  Forall (fun c => isEncoded c = true) e -> noWs e.
Proof.
  intros He. eapply Forall_impl; [exact He|]. exact isEncoded_not_ws.
Qed.

Lemma escapeQuote_noLT (s : jstr) : noLT s -> noLT (escapeQuote s).
Proof.
  induction 1 as [|c s Hc _ IH]; [constructor|].
  unfold escapeQuote. cbn [flat_map]. apply Forall_app. split; [|exact IH].
  destruct (N.eqb c DQUOTE); repeat constructor; done.
Qed.

Lemma quoted_noLT (s : jstr) : noLT s -> noLT (quoted s).
Proof.
  intros Hs. unfold quoted. apply Forall_app. split; [by repeat constructor|].
  apply Forall_app. split; [by apply escapeQuote_noLT | by repeat constructor].
Qed.

Lemma join_noLT (sep : jstr) (ps : list jstr) :
  noLT sep -> Forall noLT ps -> noLT (JS.join sep ps).
Proof.
  intros Hsep. induction 1 as [|p ps Hp Hps IH]; [constructor|].
  destruct ps as [|q ps]; [done|]. rewrite join_cons by done.
  apply Forall_app. split; [done|]. apply Forall_app. by split.
Qed.

Lemma lit_noLT_clause_open : noLT (lit "    - file.tags.containsAny([").
Proof. apply (bool_decide_unpack _). vm_compute. exact I. Qed.

Lemma clauseOf_noLT (entries : list jstr) :
  Forall noLT entries -> noLT (clauseOf entries).
Proof.
  intros He. unfold clauseOf. apply Forall_app.
  split; [exact lit_noLT_clause_open|]. apply Forall_app. split.
  - apply join_noLT; [by repeat constructor | done].
  - by repeat constructor.
Qed.

Lemma fresh_subset (e ts : list jstr) (x : jstr) :
  x ∈ fresh e ts -> x ∈ ts.
Proof.
  revert e. induction ts as [|t ts IH]; intros e; simpl; [done|].
  destruct (bool_decide (t ∈ e)).
  - intros Hx. right. by eapply IH.
  - intros [->|Hx]%elem_of_cons; [by left | right; by eapply IH].
Qed.

Lemma stripHash_noWs (s : jstr) : noWs s -> noWs (JS.stripHash s).
Proof.
  intros Hs. destruct Hs as [|c s Hc Hs]; [constructor|]. simpl.
  destruct (N.eqb c HASH); [done | by constructor].
Qed.

Section StateFacts.
Context `{Host}.

Lemma sliced_filter_subset (f : jstr -> bool) (all : list jstr) (x : jstr) :
  x ∈ JS.slice (List.filter f all) 0 200 -> x ∈ all.
Proof.
  intros Hx. change 200 with (Z.of_nat 200) in Hx.
  destruct (sliced_filter_facts f all 200) as (Hsub & _).
  by eapply elem_of_sublist.
Qed.

Lemma tokenTiers_subset (allTags : list jstr) (modes : MatchSettings)
    (base x : jstr) :
  x ∈ tokenTiers allTags modes base -> x ∈ allTags.
Proof.
  unfold tokenTiers, prefixMatch, suffixMatch, substringMatch.
  rewrite !elem_of_app.
  destruct (enablePrefix modes), (enableSuffix modes),
    (enableSubstring modes),
    (negb (JS.truthy (toLowerCase (JS.stripHash base))));
    intros [Hx | [Hx | Hx]];
    solve [ by apply elem_of_nil in Hx
          | by eapply sliced_filter_subset ].
Qed.

(** A clause holds no line break when neither its token nor any tag
    does, and it opens with a blank. *)
Lemma clauseLine_misses (m k : jstr -> option jstr) (allTags : list jstr)
    (modes : MatchSettings) (part : jstr) :
  (forall s, m s = Regex.literal [HASH] k s) ->
  Forall noLT allTags -> noWs part ->
  misses m (clauseLine allTags modes part).
Proof.
  intros Hm Htags Hpart.
  destruct (clauseLine_spec allTags modes part Hpart) as [Heq _].
  rewrite Heq. apply (misses_no_hash m k); [done| |by unfold HASH].
  apply clauseOf_noLT, Forall_app. split.
  - destruct (JS.truthy (JS.stripHash part)); [|constructor].
    constructor; [|constructor].
    by apply quoted_noLT, noWs_noLT, stripHash_noWs.
  - apply Forall_forall. intros q Hq.
    apply list_elem_of_In, in_map_iff in Hq as (t & <- & Ht).
    apply list_elem_of_In in Ht. apply quoted_noLT.
    rewrite Forall_forall in Htags. apply Htags.
    apply elem_of_take in Ht as (i & Ht & _).
    apply list_elem_of_lookup_2 in Ht.
    by eapply tokenTiers_subset, fresh_subset.
Qed.

(** The lines of a generated body before its two state lines. *)
Lemma body_lines (m k : jstr -> option jstr) (s : jstr) (c : N)
    (allTags : list jstr) (modes : MatchSettings) :
  (forall x, m x = Regex.literal [HASH] k x) ->
  Forall noLT allTags ->
  exists pre,
    buildFiltersFromInput s allTags (Some c) modes
    = JS.join NL (pre ++ [inputLine s; caretLine c])
    /\ Forall (misses m) pre.
Proof.
  intros Hm Htags. unfold buildFiltersFromInput.
  destruct (length (JS.trim s) =? 0)%nat.
  - exists [lit "filters:"]. split; [reflexivity|].
    repeat constructor. apply (misses_no_hash m k); [done| |by unfold HASH].
    apply (bool_decide_unpack _). vm_compute. exact I.
  - exists ([lit "filters:"; lit "  and:"]
            ++ List.map (clauseLine allTags modes)
                 (List.filter JS.truthy (JS.splitWs (JS.trim s)))).
    split; [by rewrite <- app_assoc|].
    apply Forall_app. split.
    + repeat constructor;
        (apply (misses_no_hash m k); [done| |by unfold HASH]);
        apply (bool_decide_unpack _); vm_compute; exact I.
    + apply Forall_forall. intros l Hl.
      apply list_elem_of_In, in_map_iff in Hl as (t & <- & Ht).
      apply list_elem_of_In in Ht.
      pose proof (tokens_noWs (JS.trim s)) as Htok.
      rewrite Forall_forall in Htok. destruct (Htok t Ht) as [_ Hws].
      by apply (clauseLine_misses m k).
Qed.

End StateFacts.

Lemma inputPattern_literal (s : jstr) :
  Regex.inputPattern s
  = Regex.literal [HASH]
      (Regex.star JS.isWhiteSpace
         (Regex.literal (lit "INPUT:")
            (Regex.star JS.isWhiteSpace
               (Regex.plusCapture Regex.notLineTerminator
                  Regex.captureToLineEnd)))) s.
Proof. reflexivity. Qed.

Lemma caretPattern_literal (s : jstr) :
  Regex.caretPattern s
  = Regex.literal [HASH]
      (Regex.star JS.isWhiteSpace
         (Regex.literal (lit "CARET:")
            (Regex.star JS.isWhiteSpace
               (Regex.plusCapture JS.isDigit Regex.captureToLineEnd)))) s.
Proof. reflexivity. Qed.

Lemma BEGIN_MARK_noLT : noLT BEGIN_MARK.
Proof. apply (bool_decide_unpack _). vm_compute. exact I. Qed.

Lemma BEGIN_misses_input : misses Regex.inputPattern BEGIN_MARK.
Proof. split; [exact BEGIN_MARK_noLT | intros rest; reflexivity]. Qed.

Lemma BEGIN_misses_caret : misses Regex.caretPattern BEGIN_MARK.
Proof. split; [exact BEGIN_MARK_noLT | intros rest; reflexivity]. Qed.

Lemma inputLine_misses_caret (payload : jstr) :
  noLT payload -> misses Regex.caretPattern (lit "# INPUT: " ++ payload).
Proof.
  intros Hp. split; [|intros rest; reflexivity].
  apply Forall_app. split; [|done].
  apply (bool_decide_unpack _). vm_compute. exact I.
Qed.

(** The segment between the markers, as lines. *)
Lemma segment_lines (pre : list jstr) (i c : jstr) :
  BEGIN_MARK ++ NL ++ JS.join NL (pre ++ [i; c]) ++ NL ++ END_MARK
  = JS.join NL ((BEGIN_MARK :: pre) ++ i :: [c; END_MARK])
  /\ BEGIN_MARK ++ NL ++ JS.join NL (pre ++ [i; c]) ++ NL ++ END_MARK
     = JS.join NL ((BEGIN_MARK :: pre ++ [i]) ++ c :: [END_MARK]).
Proof.
  assert (E : BEGIN_MARK ++ NL ++ JS.join NL (pre ++ [i; c]) ++ NL ++ END_MARK
              = JS.join NL (BEGIN_MARK :: (pre ++ [i; c]) ++ [END_MARK])).
  { rewrite join_cons by (by destruct pre).
    rewrite join_snoc by (by destruct pre). reflexivity. }
  rewrite E. split; f_equal; simpl; rewrite <- ?app_assoc; reflexivity.
Qed.

Section RoundTrip.
Context `{Host}.

(** C3, as the code has it. Take a non-empty input [s] without unpaired
    surrogates, a caret [c] in [0, |s|] and tags without line
    terminators. If the managed region of a document holds the body
    generated from [s] and [c], then [extractSavedState] reads [s] and
    [c] back. *)
Theorem C3_state_round_trip (s : jstr) (c : N) (allTags : list jstr)
    (modes : MatchSettings) (doc : jstr) (r : BaseBlockInfo) :
  Uri.isWellFormed s = true -> s <> [] ->
  (c <= N.of_nat (length s))%N ->
  Forall noLT allTags ->
  findBaseBlock doc = Some r ->
  JS.slice doc (filtersStart r) (filtersEnd r)
  = BEGIN_MARK ++ NL ++ buildFiltersFromInput s allTags (Some c) modes
    ++ NL ++ END_MARK ->
  extractSavedState doc = Some {| input := s; caret := c |}.
Proof.
  intros Hwf Hne _ Htags Hloc Hseg.
  destruct (encodeState_encoded s Hwf) as [Halpha Hene].
  pose proof (encoded_noWs _ Halpha) as Hws.
  destruct (body_lines Regex.inputPattern _ s c allTags modes
              inputPattern_literal Htags) as (pre & Hbody & Hpre).
  destruct (body_lines Regex.caretPattern _ s c allTags modes
              caretPattern_literal Htags) as (pre' & Hbody' & Hpre').
  assert (Hin : Regex.matchInput (JS.slice doc (filtersStart r) (filtersEnd r))
                = Some (encodeState s)).
  { rewrite Hseg, Hbody. rewrite (proj1 (segment_lines pre _ _)).
    apply searchLines_lines; [|by intros; apply inputPattern_hit; auto|done].
    constructor; [exact BEGIN_misses_input | exact Hpre]. }
  assert (Hca : Regex.matchCaret (JS.slice doc (filtersStart r) (filtersEnd r))
                = Some (JS.numToString c)).
  { rewrite Hseg, Hbody'. rewrite (proj2 (segment_lines pre' _ _)).
    apply searchLines_lines; [| |done].
    - constructor; [exact BEGIN_misses_caret|].
      apply Forall_app. split; [exact Hpre'|].
      constructor; [|constructor].
      by apply inputLine_misses_caret, noWs_noLT.
    - intros rest. apply caretPattern_hit;
        [apply numToString_nonempty | apply numToString_digits]. }
  unfold extractSavedState. rewrite Hloc. cbv zeta. rewrite Hin, Hca.
  rewrite (trim_noWs _ Hws), (decodeState_encodeState s Hwf).
  by rewrite parseDigits_numToString.
Qed.

End RoundTrip.

Lemma C3_state_round_trip_witness :
  extractSavedState
    (doc_template (@buildFiltersFromInput asciiHost (lit "#proj a%b")
                     sampleTags (Some 5%N) defaultSettings))
  = Some {| input := lit "#proj a%b"; caret := 5%N |}.
Proof.
  refine (@C3_state_round_trip asciiHost (lit "#proj a%b") 5%N sampleTags
            defaultSettings _
            {| start := 6; end_ := 263; filtersStart := 14;
               filtersEnd := 239 |} _ _ _ _ _ _).
  - vm_compute; reflexivity.
  - discriminate.
  - vm_compute. discriminate.
  - apply (bool_decide_unpack _). vm_compute. exact I.
  - vm_compute; reflexivity.
  - vm_compute; reflexivity.
Defined.

(** C3 as stated fails on an input with an unpaired surrogate:
    [encodeState] falls back to the raw text, whose line break ends the
    INPUT line, and only the first line is read back. *)
Lemma C3_counterexample :
  Uri.encodeURIComponent loneSurrogateInput = None
  /\ (1 <= N.of_nat (length loneSurrogateInput))%N
  /\ extractSavedState
       (doc_template (@buildFiltersFromInput asciiHost loneSurrogateInput
                        sampleTags (Some 1%N) defaultSettings))
     = Some {| input := [55357%N]; caret := 1%N |}
  /\ extractSavedState
       (doc_template (@buildFiltersFromInput asciiHost loneSurrogateInput
                        sampleTags (Some 1%N) defaultSettings))
     <> Some {| input := loneSurrogateInput; caret := 1%N |}.
Proof.
  assert (E : extractSavedState
       (doc_template (@buildFiltersFromInput asciiHost loneSurrogateInput
                        sampleTags (Some 1%N) defaultSettings))
     = Some {| input := [55357%N]; caret := 1%N |})
    by (vm_compute; reflexivity).
  split; [vm_compute; reflexivity|]. split; [vm_compute; discriminate|].
  split; [exact E|]. rewrite E. discriminate.
Qed.

(** The empty input is not read back either: the white space after
    [INPUT:] runs over the line break, and the group is the CARET line. *)
Lemma extractSavedState_empty_input :
  extractSavedState
    (doc_template (@buildFiltersFromInput asciiHost [] sampleTags (Some 0%N)
                     defaultSettings))
  = Some {| input := lit "# CARET: 0"; caret := 0%N |}.
Proof. vm_compute. reflexivity. Qed.

(** ** Debounce collapsing *)



(** Within the range of a timer the delay is the one asked for. *)
Lemma effectiveDelay_in_range (st : MatchSettings) :
  refreshDelayMs st <= 2147483647 ->
  effectiveDelay st = Z.max 0 (refreshDelayMs st).
Proof.
  intros Hr. unfold effectiveDelay, timerDelay, toInt32.
  change (2 ^ 31) with 2147483648. change (2 ^ 32) with 4294967296.
  rewrite Z.mod_small by lia. lia.
Qed.

Lemma effectiveDelay_nonneg (st : MatchSettings) : 0 <= effectiveDelay st.
Proof. unfold effectiveDelay, timerDelay. lia. Qed.

(** A call of [debounced] while no timer is pending arms one. *)
Lemma debounced_starts (w : World) :
  pending (timers w) = [] -> composing w = false ->
  counting (cycles w) (effectiveDelay (settings w)) (now w) (value w)
    (debounced w).
Proof.
  intros Hp Hcomp. unfold debounced, setTimeout.
  exists (nextHandle (timers w)).
  destruct (timerId w) as [h|]; cbn [clearTimeout pending nextHandle];
    rewrite Hp; cbn [List.filter app timers timerId cycles now value
                     composing settings pending];
    repeat split; done.
Qed.

(** A call of [debounced] while its own timer is pending cancels that
    timer and arms a new one. *)
Lemma debounced_restarts (w : World) (h : positive) (due : Z) :
  pending (timers w) = [(h, due)] -> timerId w = Some h ->
  composing w = false ->
  counting (cycles w) (effectiveDelay (settings w)) (now w) (value w)
    (debounced w).
Proof.
  intros Hp Hid Hcomp. unfold debounced, setTimeout. rewrite Hid.
  exists (nextHandle (timers w)).
  cbn [clearTimeout pending nextHandle]. rewrite Hp.
  cbn [List.filter fst negb]. rewrite Pos.eqb_refl.
  cbn [negb app timers timerId cycles now value composing settings pending].
  repeat split; done.
Qed.




(** Once started and left alone, the countdown runs one write cycle when
    it expires, with the text the input holds, and none before. *)
Lemma counting_expires (log : list jstr) (ms t : Z) (v : jstr) (w : World)
    (T : Z) :
  counting log ms t v w ->
  (t <= T < t + ms -> cycles (runUntil T w) = log)
  /\ (t + ms <= T ->
      cycles (runUntil T w) = log ++ [v]
      /\ pending (timers (runUntil T w)) = []).
Proof.
  intros (h & Hp & Hid & Hc & Hnow & Hv & Hcomp & Hms).
  assert (0 <= ms) by (rewrite <- Hms; apply effectiveDelay_nonneg).
  unfold runUntil. rewrite Hp, Hc, Hnow, Hv. cbn [List.filter snd].
  split; intros HT.
  - replace (t + ms <=? Z.max t T) with false
      by (symmetry; apply Z.leb_gt; lia).
    reflexivity.
  - replace (t + ms <=? Z.max t T) with true
      by (symmetry; apply Z.leb_le; lia).
    split; reflexivity.
Qed.




(** * Further properties of the code *)

(** ** Matchers, merges and suggestions *)

Lemma jstr_eqb_eq (a b : jstr) : jstr_eqb a b = true <-> a = b.
Proof.
  revert b. induction a as [|x a IH]; intros [|y b]; simpl; try done.
  rewrite andb_true_iff, N.eqb_eq, IH. split; [by intros [-> ->]|].
  by intros [= -> ->].
Qed.

Lemma endsWith_app (s pat : jstr) :
  JS.endsWith s pat = true <-> exists pre, s = pre ++ pat.
Proof.
  unfold JS.endsWith. rewrite andb_true_iff, Nat.leb_le, jstr_eqb_eq. split.
  - intros [Hlen Hdrop]. exists (take (length s - length pat) s).
    transitivity (take (length s - length pat) s
                  ++ drop (length s - length pat) s);
      [symmetry; apply take_drop | by rewrite Hdrop].
  - intros [pre ->]. rewrite length_app. split; [lia|].
    replace (length pre + length pat - length pat)%nat with (length pre) by lia.
    by rewrite drop_app_length.
Qed.

Lemma occurs_split (s pat : jstr) (i : Z) :
  occurs s pat i -> exists a b, s = a ++ pat ++ b.
Proof.
  intros [Hi [rest Hrest]%startsWith_app].
  exists (take (Z.to_nat i) s), rest.
  rewrite <- Hrest. by rewrite take_drop.
Qed.

Lemma includes_app (s pat : jstr) :
  JS.includes s pat = true <-> exists a b, s = a ++ pat ++ b.
Proof.
  unfold JS.includes. rewrite Z.leb_le. split.
  - intros Hge.
    destruct (indexOf_found s pat 0 _ eq_refl ltac:(lia)) as (_ & Hocc & _).
    by eapply occurs_split.
  - intros (a & b & ->).
    destruct (indexOf_range (a ++ pat ++ b) pat 0) as [Habs|]; [|done].
    exfalso. apply (indexOf_absent _ _ _ Habs (len a)).
    + unfold clampPos. rewrite !len_app.
      pose proof (len_nonneg a). pose proof (len_nonneg pat).
      pose proof (len_nonneg b). lia.
    + split; [apply len_nonneg|]. unfold len. rewrite Nat2Z.id.
      rewrite drop_app_length. apply startsWith_app. by exists b.
Qed.

Lemma startsWith_includes (s pat : jstr) :
  JS.startsWith s pat = true -> JS.includes s pat = true.
Proof.
  intros [rest ->]%startsWith_app. apply includes_app. by exists [], rest.
Qed.

Lemma endsWith_includes (s pat : jstr) :
  JS.endsWith s pat = true -> JS.includes s pat = true.
Proof.
  intros [pre ->]%endsWith_app. apply includes_app. exists pre, [].
  by rewrite app_nil_r.
Qed.

Lemma elem_of_filter_bool {A} (f : A -> bool) (l : list A) (x : A) :
  x ∈ List.filter f l <-> x ∈ l /\ f x = true.
Proof. rewrite !list_elem_of_In. apply filter_In. Qed.

Lemma elem_of_fresh (e ts : list jstr) (x : jstr) :
  x ∈ fresh e ts <-> x ∈ ts /\ x ∉ e.
Proof.
  revert e. induction ts as [|t ts IH]; intros e; simpl.
  - rewrite elem_of_nil. tauto.
  - destruct (bool_decide (t ∈ e)) eqn:E.
    + apply bool_decide_eq_true in E. rewrite IH, elem_of_cons.
      split; [tauto|]. intros [[->|?] ?]; tauto.
    + apply bool_decide_eq_false in E.
      rewrite !elem_of_cons, IH, not_elem_of_cons.
      split; [intros [->|?]; tauto|].
      intros [[->|?] ?]; [by left|].
      destruct (decide (x = t)) as [->|]; [by left | right; tauto].
Qed.

Lemma fresh_is_NoDup (e ts : list jstr) : NoDup (fresh e ts).
Proof.
  revert e. induction ts as [|t ts IH]; intros e; simpl; [constructor|].
  destruct (bool_decide (t ∈ e)); [apply IH|].
  constructor; [|apply IH]. rewrite elem_of_fresh, not_elem_of_cons. tauto.
Qed.

Section MatcherExtras.
Context `{Host}.

(** X1. [suffixMatch] answers a subsequence of the tag list, of at most
    [limit] tags, each of whose lowercase form ends with the lowercase
    query without its leading [#]; an empty query, or [#] alone, gives no
    tag. *)
Theorem X1_suffixMatch_subsequence (all : list jstr) (q : jstr) (limit : nat) :
  let s := toLowerCase (JS.stripHash q) in
  let res := suffixMatch all q (Z.of_nat limit) in
  res `sublist_of` all
  /\ (length res <= limit)%nat
  /\ Forall (fun t => exists pre, toLowerCase t = pre ++ s) res
  /\ (q = [] \/ q = [HASH] -> res = []).
Proof.
  intros s res. subst res. unfold suffixMatch. fold s.
  destruct (JS.truthy s) eqn:Et; simpl.
  - destruct (sliced_filter_facts (fun t => JS.endsWith (toLowerCase t) s)
                all limit) as (Hsub & Hlen & Hall).
    repeat (split; [done|]). split.
    + eapply Forall_impl; [exact Hall|]. intros t Ht. by apply endsWith_app.
    + intros Hq. subst s.
      rewrite (stripHash_empty q Hq), toLowerCase_empty in Et. done.
  - split; [apply sublist_nil_l|]. split; [lia|]. split; [constructor|done].
Qed.

(** X2. [substringMatch] answers a subsequence of the tag list, of at
    most [limit] tags, each of whose lowercase form contains the
    lowercase query without its leading [#]; an empty query, or [#]
    alone, gives no tag. *)
Theorem X2_substringMatch_subsequence (all : list jstr) (q : jstr)
    (limit : nat) :
  let s := toLowerCase (JS.stripHash q) in
  let res := substringMatch all q (Z.of_nat limit) in
  res `sublist_of` all
  /\ (length res <= limit)%nat
  /\ Forall (fun t => exists a b, toLowerCase t = a ++ s ++ b) res
  /\ (q = [] \/ q = [HASH] -> res = []).
Proof.
  intros s res. subst res. unfold substringMatch. fold s.
  destruct (JS.truthy s) eqn:Et; simpl.
  - destruct (sliced_filter_facts (fun t => JS.includes (toLowerCase t) s)
                all limit) as (Hsub & Hlen & Hall).
    repeat (split; [done|]). split.
    + eapply Forall_impl; [exact Hall|]. intros t Ht. by apply includes_app.
    + intros Hq. subst s.
      rewrite (stripHash_empty q Hq), toLowerCase_empty in Et. done.
  - split; [apply sublist_nil_l|]. split; [lia|]. split; [constructor|done].
Qed.

Lemma sliced_filter_complete (f : jstr -> bool) (all : list jstr)
    (limit : nat) (t : jstr) :
  (length (List.filter f all) <= limit)%nat ->
  t ∈ all -> f t = true ->
  t ∈ JS.slice (List.filter f all) 0 (Z.of_nat limit).
Proof.
  intros Hlen Ht Hf. rewrite slice_take, take_ge by lia.
  by apply elem_of_filter_bool.
Qed.

(** X3. A matcher leaves no match out unless the limit cuts the list:
    when the query is not empty and at most [limit] tags of the list
    pass the test of a matcher, that matcher answers every tag of the
    list that passes it. *)
Theorem X3_matchers_complete (all : list jstr) (q : jstr) (limit : nat)
    (t : jstr) :
  let p := toLowerCase (JS.stripHash q) in
  p <> [] -> t ∈ all ->
  ((length (List.filter (fun x => JS.startsWith (toLowerCase x) p) all)
      <= limit)%nat ->
   (exists rest, toLowerCase t = p ++ rest) ->
   t ∈ prefixMatch all q (Z.of_nat limit))
  /\ ((length (List.filter (fun x => JS.endsWith (toLowerCase x) p) all)
         <= limit)%nat ->
      (exists pre, toLowerCase t = pre ++ p) ->
      t ∈ suffixMatch all q (Z.of_nat limit))
  /\ ((length (List.filter (fun x => JS.includes (toLowerCase x) p) all)
         <= limit)%nat ->
      (exists a b, toLowerCase t = a ++ p ++ b) ->
      t ∈ substringMatch all q (Z.of_nat limit)).
Proof.
  intros p Hp Ht. unfold prefixMatch, suffixMatch, substringMatch. fold p.
  assert (Etr : negb (JS.truthy p) = false) by (by destruct p).
  rewrite Etr. split; [|split]; intros Hlen Hm;
    apply sliced_filter_complete; try done.
  - by apply startsWith_app.
  - by apply endsWith_app.
  - by apply includes_app.
Qed.

(** X4. Whatever [prefixMatch] or [suffixMatch] answers passes the test
    of [substringMatch]; so when at most [limit'] tags contain the query,
    [substringMatch] with that limit answers all of them too. *)
Theorem X4_substring_subsumes (all : list jstr) (q : jstr)
    (limit limit' : nat) (t : jstr) :
  let p := toLowerCase (JS.stripHash q) in
  t ∈ prefixMatch all q (Z.of_nat limit)
  \/ t ∈ suffixMatch all q (Z.of_nat limit) ->
  JS.includes (toLowerCase t) p = true
  /\ ((length (List.filter (fun x => JS.includes (toLowerCase x) p) all)
         <= limit')%nat ->
      t ∈ substringMatch all q (Z.of_nat limit')).
Proof.
  intros p Hin. unfold prefixMatch, suffixMatch, substringMatch in *.
  fold p in Hin |- *.
  destruct (negb (JS.truthy p)).
  { destruct Hin as [Hin|Hin]; by apply elem_of_nil in Hin. }
  assert (Hfacts : t ∈ all /\ JS.includes (toLowerCase t) p = true).
  { destruct Hin as [Hin|Hin]; rewrite slice_take in Hin;
      apply elem_of_take in Hin as (i & Hin & _);
      apply list_elem_of_lookup_2, elem_of_filter_bool in Hin as [Hall Hf].
    - split; [done | by apply startsWith_includes].
    - split; [done | by apply endsWith_includes]. }
  destruct Hfacts as [Hall Hinc]. split; [done|].
  intros Hlen. by apply sliced_filter_complete.
Qed.

End MatcherExtras.

(** X5. The two merges agree: the suggestion list is the first 12 tags
    of the list the filter generator merges from the same tiers. That
    list has no duplicate and holds exactly the tags of the three
    tiers. *)
Theorem X5_merges_agree (pref suff subs : list jstr) :
  mergeSuggestions pref suff subs = take 12 (mergeFilters pref suff subs)
  /\ NoDup (mergeFilters pref suff subs)
  /\ (forall t, t ∈ mergeFilters pref suff subs
                <-> t ∈ pref \/ t ∈ suff \/ t ∈ subs).
Proof.
  rewrite mergeSuggestions_fresh, mergeFilters_fresh.
  split; [done|]. split; [apply fresh_is_NoDup|].
  intros t. rewrite elem_of_fresh, !elem_of_app, elem_of_nil. tauto.
Qed.

(** ** Suggestions and picks *)

Lemma slice_from_zero {A} (l : list A) (e : Z) :
  0 <= e -> JS.slice l 0 e = take (Z.to_nat e) l.
Proof.
  intros He. rewrite <- (Z2Nat.id e) at 1 by done. apply slice_take.
Qed.

Lemma slice_mid {A} (l : list A) (b e : Z) :
  0 <= b <= e -> JS.slice l b e = drop (Z.to_nat b) (take (Z.to_nat e) l).
Proof.
  intros Hbe. unfold JS.slice, JS.relIndex.
  destruct (b <? 0) eqn:Eb; [apply Z.ltb_lt in Eb; lia|].
  destruct (e <? 0) eqn:Ee; [apply Z.ltb_lt in Ee; lia|].
  rewrite take_drop_commute. pose proof (len_nonneg l) as Hl.
  destruct (decide (e <= len l)) as [Hel|Hel].
  - rewrite !Z.min_l by lia. f_equal. f_equal. lia.
  - rewrite (Z.min_r e) by lia.
    rewrite (take_ge l (Z.to_nat e)) by (unfold len in *; lia).
    destruct (decide (b <= len l)) as [Hbl|Hbl].
    + rewrite Z.min_l by lia. f_equal.
      apply take_ge. unfold len in *. lia.
    + rewrite Z.min_r by lia.
      rewrite (take_ge l) by (unfold len in *; lia).
      rewrite !drop_ge by (unfold len in *; lia). done.
Qed.

Lemma sliceFrom_drop {A} (l : list A) (b : Z) :
  0 <= b -> JS.sliceFrom l b = drop (Z.to_nat b) l.
Proof.
  intros Hb. pose proof (len_nonneg l) as Hl.
  destruct (decide (b <= len l)) as [Hbl|Hbl].
  - by apply sliceFrom_suffix.
  - unfold JS.sliceFrom, JS.slice, JS.relIndex.
    destruct (b <? 0) eqn:Eb; [apply Z.ltb_lt in Eb; lia|].
    destruct (len l <? 0) eqn:Ee; [apply Z.ltb_lt in Ee; lia|].
    rewrite !drop_ge by (unfold len in *; lia). apply take_nil.
Qed.

(** What [lastIndexOf] finds: the text splits at the last occurrence. *)
Lemma lastIndexOfFrom_spec (c : N) (s : jstr) (k : Z) :
  0 <= k ->
  (JS.lastIndexOfFrom c s k = -1 /\ (c ∉ s))
  \/ (exists a b, s = a ++ c :: b /\ (c ∉ b)
                 /\ JS.lastIndexOfFrom c s k = k + len a).
Proof.
  revert k. induction s as [|x s IH]; intros k Hk.
  - left. split; [done | apply not_elem_of_nil].
  - cbn [JS.lastIndexOfFrom]. cbv zeta.
    destruct (IH (k + 1) ltac:(lia)) as [[Hr Hnot] | (a & b & -> & Hb & Hr)].
    + rewrite Hr. change (0 <=? -1) with false. cbv iota.
      destruct (N.eqb_spec x c) as [->|Hne].
      * right. exists [], s. repeat split; try done. unfold len. simpl. lia.
      * left. split; [done|]. apply not_elem_of_cons. split; [congruence|done].
    + rewrite Hr. pose proof (len_nonneg a).
      replace (0 <=? k + 1 + len a) with true
        by (symmetry; apply Z.leb_le; lia).
      right. exists (x :: a), b. repeat split; try done.
      rewrite len_cons. lia.
Qed.

Lemma firstWsFrom_spec (s : jstr) (k : Z) :
  match firstWsFrom s k with
  | Some i => exists a c b, s = a ++ c :: b /\ noWs a
                /\ JS.isWhiteSpace c = true /\ i = k + len a
  | None => noWs s
  end.
Proof.
  revert k. induction s as [|x s IH]; intros k; simpl; [constructor|].
  destruct (JS.isWhiteSpace x) eqn:E.
  - exists [], x, s. repeat split; try done; [constructor|].
    unfold len. simpl. lia.
  - specialize (IH (k + 1)). destruct (firstWsFrom s (k + 1)) as [i|].
    + destruct IH as (a & c & b & -> & Ha & Hc & ->).
      exists (x :: a), c, b. repeat split; try done; [by constructor|].
      rewrite len_cons. lia.
    + by constructor.
Qed.

Lemma snoc_split_last (x a b : jstr) (c : N) :
  x ++ [c] = a ++ c :: b -> c ∉ b -> b = [] /\ a = x.
Proof.
  intros Heq Hb. destruct b as [|z b _] using rev_ind.
  - split; [done|]. by apply app_inj_tail in Heq as [-> _].
  - exfalso. apply Hb.
    change (a ++ c :: b ++ [z]) with (a ++ (c :: b) ++ [z]) in Heq.
    rewrite app_assoc in Heq. apply app_inj_tail in Heq as [_ <-].
    apply elem_of_app. right. by left.
Qed.

Lemma lastIndexOf_snoc (x : jstr) (c : N) :
  JS.lastIndexOf (x ++ [c]) c = len x.
Proof.
  unfold JS.lastIndexOf.
  destruct (lastIndexOfFrom_spec c (x ++ [c]) 0 ltac:(lia))
    as [[_ Hnot] | (a & b & Heq & Hb & ->)].
  - exfalso. apply Hnot, elem_of_app. right. by left.
  - destruct (snoc_split_last _ _ _ _ Heq Hb) as [_ ->]. lia.
Qed.

Lemma caretOf_range (value : jstr) (sel : option N) :
  caretInside value sel -> 0 <= caretOf value sel <= len value.
Proof.
  unfold caretOf, caretInside, len. destruct sel as [c|]; simpl; lia.
Qed.

(** The word at the caret: how the text splits at [start] and [end]. *)
Lemma pick_split (value : jstr) (sel : option N) :
  caretInside value sel ->
  exists before l r after,
    value = before ++ l ++ r ++ after
    /\ (SPACE ∉ l) /\ noWs r
    /\ (before = [] \/ exists b', before = b' ++ [SPACE])
    /\ match after with [] => True | c :: _ => JS.isWhiteSpace c = true end
    /\ pickStart value sel = len before
    /\ caretOf value sel = len (before ++ l)
    /\ pickEnd value sel = len (before ++ l ++ r).
Proof.
  intros Hc. pose proof (caretOf_range value sel Hc) as Hr.
  unfold pickStart, pickEnd. cbv zeta.
  set (caret := caretOf value sel) in *.
  rewrite slice_from_zero, sliceFrom_drop by lia.
  set (n := Z.to_nat caret).
  assert (Hn : (n <= length value)%nat) by (unfold len in *; lia).
  assert (Hcaret : caret = len (take n value))
    by (unfold len; rewrite length_take; lia).
  pose proof (firstWsFrom_spec (drop n value) 0) as Hws.
  unfold JS.lastIndexOf.
  destruct (lastIndexOfFrom_spec SPACE (take n value) 0 ltac:(lia))
    as [[Hl Hnot] | (a & l & Hleft & Hl & Hidx)].
  - (* no space left of the caret *)
    rewrite Hl.
    destruct (firstWsFrom (drop n value) 0) as [i|].
    + destruct Hws as (r & c & after & Hright & Hr' & Hcw & ->).
      exists [], (take n value), r, (c :: after).
      rewrite <- Hright, take_drop. split_and!; try done; try (by left);
        rewrite ?Hcaret, ?app_nil_l, ?len_app; lia.
    + exists [], (take n value), (drop n value), [].
      rewrite app_nil_r, take_drop.
      split_and!; try done; try (by left);
        by rewrite ?app_nil_l, ?take_drop.
  - (* a space left of the caret *)
    rewrite Hidx.
    assert (Hval : value = (a ++ [SPACE]) ++ l ++ drop n value).
    { rewrite <- (take_drop n value) at 1. rewrite Hleft.
      by rewrite <- !app_assoc. }
    assert (Hcaret' : caret = len ((a ++ [SPACE]) ++ l)).
    { rewrite Hcaret, Hleft. by rewrite <- !app_assoc. }
    assert (Hla : 0 + len a + 1 = len (a ++ [SPACE])).
    { rewrite len_app. unfold len at 3. simpl. lia. }
    destruct (firstWsFrom (drop n value) 0) as [i|].
    + destruct Hws as (r & c & after & Hright & Hr' & Hcw & ->).
      exists (a ++ [SPACE]), l, r, (c :: after).
      rewrite <- Hright. split_and!; try done; try (right; by exists a);
        rewrite ?Hcaret', ?len_app; lia.
    + exists (a ++ [SPACE]), l, (drop n value), [].
      rewrite app_nil_r. split_and!; try done; try (right; by exists a);
        by rewrite <- ?Hval.
Qed.

Lemma noWs_no_space (r : jstr) : noWs r -> SPACE ∉ r.
Proof.
  intros Hr Hin. unfold noWs in Hr. rewrite Forall_forall in Hr.
  by specialize (Hr SPACE Hin).
Qed.

(** X7. Picking a suggestion replaces the word at the caret, and only
    it. The word is what stands between the last blank on the left of
    the caret (or the start of the text) and the first white space at or
    after the caret (or the end of the text). The text before the word
    and the text after it are kept, the suggestion stands between them
    followed by a blank (one is added unless the rest begins with a
    blank), and the new caret is right after the suggestion and the
    added blank. *)
Theorem X7_selectSuggestion_replaces_word (value : jstr) (sel : option N)
    (v : jstr) :
  caretInside value sel ->
  exists before l r after,
    value = before ++ l ++ r ++ after
    /\ caretOf value sel = len (before ++ l)
    /\ (SPACE ∉ l)
    /\ (before = [] \/ exists b', before = b' ++ [SPACE])
    /\ noWs r
    /\ match after with [] => True | c :: _ => JS.isWhiteSpace c = true end
    /\ (let needSpace := if JS.startsWith after [SPACE] then [] else [SPACE] in
        selectSuggestion value sel v
        = (before ++ v ++ needSpace ++ after,
           len before + len v + len needSpace))
    /\ (selectSuggestion value sel v).1 !! (length before + length v)%nat
       = Some SPACE.
Proof.
  intros Hc.
  destruct (pick_split value sel Hc)
    as (before & l & r & after & Hval & Hl & Hr & Hbefore & Hafter
        & Hstart & Hcaret & Hend).
  exists before, l, r, after.
  assert (Hb : JS.slice value 0 (len before) = before).
  { rewrite slice_from_zero by apply len_nonneg. unfold len.
    rewrite Nat2Z.id, Hval. apply take_app_length. }
  assert (Ha : JS.sliceFrom value (len (before ++ l ++ r)) = after).
  { rewrite sliceFrom_drop by apply len_nonneg. unfold len.
    rewrite Nat2Z.id. rewrite Hval at 1.
    rewrite (app_assoc l r after), (app_assoc before (l ++ r) after).
    apply drop_app_length. }
  assert (Hsel : selectSuggestion value sel v
    = (before ++ v ++ (if JS.startsWith after [SPACE] then [] else [SPACE])
         ++ after,
       len before + len v
       + len (if JS.startsWith after [SPACE] then [] else [SPACE]))).
  { unfold selectSuggestion. cbv zeta. rewrite Hstart, Hend, Hb, Ha.
    f_equal. rewrite !len_app. lia. }
  split_and!; try done.
  rewrite Hsel. cbn [fst].
  rewrite app_assoc, lookup_app_r by (rewrite length_app; lia).
  rewrite length_app, Nat.sub_diag.
  destruct after as [|c after]; [done|]. simpl.
  destruct (N.eqb_spec c SPACE) as [->|]; done.
Qed.

Section SuggestExtras.
Context `{Host}.

(** X8. After a pick that added a space the caret stands behind that
    space, the word at the caret is empty, and the suggestion provider
    answers nothing for the new text. *)
Theorem X8_pick_closes_suggestions (allTags : list jstr)
    (modes : MatchSettings) (value : jstr) (sel : option N) (v : jstr) :
  JS.startsWith (JS.sliceFrom value (pickEnd value sel)) [SPACE] = false ->
  let newValue := (selectSuggestion value sel v).1 in
  let newCaret := (selectSuggestion value sel v).2 in
  currentToken newValue (Some (Z.to_N newCaret)) = []
  /\ getSuggestions allTags modes newValue (Some (Z.to_N newCaret)) = [].
Proof.
  intros Hsp newValue newCaret.
  assert (Htok : currentToken newValue (Some (Z.to_N newCaret)) = []).
  { subst newValue newCaret. unfold selectSuggestion. cbv zeta.
    rewrite Hsp. cbn [fst snd].
    set (before := JS.slice value 0 (pickStart value sel)).
    set (after := JS.sliceFrom value (pickEnd value sel)).
    unfold currentToken. cbn [fmap option_fmap option_map default].
    rewrite Z2N.id by apply len_nonneg. unfold id.
    rewrite slice_from_zero by apply len_nonneg.
    assert (Htake : take (Z.to_nat (len (before ++ v ++ [SPACE])))
                      (before ++ v ++ [SPACE] ++ after)
                    = before ++ v ++ [SPACE]).
    { unfold len. rewrite Nat2Z.id.
      replace (before ++ v ++ [SPACE] ++ after)
        with ((before ++ v ++ [SPACE]) ++ after)
        by (by rewrite <- !app_assoc).
      apply take_app_length. }
    rewrite Htake. rewrite (app_assoc before v [SPACE]), lastIndexOf_snoc.
    rewrite slice_mid
      by (rewrite !len_app; unfold len; simpl; lia).
    rewrite <- (app_assoc before v [SPACE]), Htake.
    apply drop_ge. rewrite !len_app, !length_app. unfold len. simpl. lia. }
  split; [done|]. unfold getSuggestions. by rewrite Htok.
Qed.

Lemma matcher_member (all : list jstr) (q : jstr) (limit : nat) (t : jstr) :
  let p := toLowerCase (JS.stripHash q) in
  t ∈ prefixMatch all q (Z.of_nat limit)
  \/ t ∈ suffixMatch all q (Z.of_nat limit)
  \/ t ∈ substringMatch all q (Z.of_nat limit) ->
  t ∈ all /\ JS.includes (toLowerCase t) p = true /\ p <> [].
Proof.
  intros p Hin. unfold prefixMatch, suffixMatch, substringMatch in Hin.
  fold p in Hin. destruct p as [|c p'] eqn:Ep.
  { destruct Hin as [Hin|[Hin|Hin]]; by apply elem_of_nil in Hin. }
  cbn [JS.truthy negb] in Hin.
  destruct Hin as [Hin|[Hin|Hin]]; rewrite slice_take in Hin;
    apply elem_of_take in Hin as (i & Hin & _);
    apply list_elem_of_lookup_2, elem_of_filter_bool in Hin as [Hall Hf].
  - split; [done|]. split; [by apply startsWith_includes | done].
  - split; [done|]. split; [by apply endsWith_includes | done].
  - done.
Qed.

Lemma NoDup_map_cons (c : N) (l : list jstr) :
  NoDup l -> NoDup (List.map (fun t => c :: t) l).
Proof.
  induction 1 as [|x l Hx _ IH]; simpl; constructor; [|done].
  rewrite list_elem_of_In, in_map_iff. intros (y & [= ->] & Hy).
  by apply Hx, list_elem_of_In.
Qed.

(** X6. Every suggestion is [#] followed by a tag of the tag list whose
    lowercase form contains the typed word (lowercase, without leading
    [#]s: one stripped by the provider, one by the matcher), and no
    suggestion comes twice. *)
Theorem X6_suggestions_sound (allTags : list jstr) (modes : MatchSettings)
    (value : jstr) (sel : option N) :
  let p := toLowerCase
             (JS.stripHash (JS.stripHash (currentToken value sel))) in
  NoDup (getSuggestions allTags modes value sel)
  /\ forall sug, sug ∈ getSuggestions allTags modes value sel ->
       p <> []
       /\ exists t, sug = HASH :: t /\ t ∈ allTags
            /\ exists a b, toLowerCase t = a ++ p ++ b.
Proof.
  intros p. unfold getSuggestions.
  destruct (negb (JS.truthy (currentToken value sel))) eqn:Et.
  { split; [constructor|]. intros sug Hs. by apply elem_of_nil in Hs. }
  set (token := currentToken value sel) in *.
  assert (Hbase : (if JS.startsWith token [HASH] then JS.sliceFrom token 1
                   else token) = JS.stripHash token).
  { destruct token as [|c tk]; [done|]. simpl.
    destruct (N.eqb c HASH); [|done]. simpl.
    rewrite sliceFrom_drop by lia. done. }
  rewrite Hbase. rewrite mergeSuggestions_fresh. split.
  - apply NoDup_map_cons. eapply sublist_NoDup;
      [apply fresh_is_NoDup | apply sublist_take].
  - intros sug Hs.
    apply list_elem_of_In, in_map_iff in Hs as (t & <- & Ht).
    apply list_elem_of_In, elem_of_take in Ht as (i & Ht & _).
    apply list_elem_of_lookup_2, fresh_subset in Ht.
    assert (Hm : t ∈ prefixMatch allTags (JS.stripHash token) (Z.of_nat 100)
                 \/ t ∈ suffixMatch allTags (JS.stripHash token) (Z.of_nat 100)
                 \/ t ∈ substringMatch allTags (JS.stripHash token)
                        (Z.of_nat 100)).
    { rewrite !elem_of_app in Ht.
      destruct (enablePrefix modes), (enableSuffix modes),
        (enableSubstring modes);
        destruct Ht as [Ht|[Ht|Ht]]; try (by apply elem_of_nil in Ht); tauto. }
    destruct (matcher_member _ _ _ _ Hm) as (Hall & Hinc & Hp).
    split; [done|]. exists t. split; [done|]. split; [done|].
    by apply includes_app.
Qed.

End SuggestExtras.

(** ** The state codec *)

Lemma isEncoded_safe (c : N) :
  isEncoded c = true ->
  JS.isWhiteSpace c = false /\ c <> HASH /\ c <> DQUOTE /\ c <> BACKSLASH.
Proof.
  unfold isEncoded, isPercentHex, Uri.isUnreserved, Uri.isAlnum, isHexUpper,
    JS.isWhiteSpace, JS.isLineTerminator, PERCENT, HASH, DQUOTE, BACKSLASH.
  intros Hc. split; [nbool; lia|]. nbool. lia.
Qed.

(** X9. On a text without unpaired surrogates the codec is a round
    trip, and the encoded text is made of code units that are neither
    white space (so it stays on its line), nor [#], nor a double quote,
    nor a backslash; distinct texts have distinct encodings. *)
Theorem X9_codec_round_trip (s : jstr) :
  Uri.isWellFormed s = true ->
  decodeState (encodeState s) = s
  /\ Forall (fun c => JS.isWhiteSpace c = false /\ c <> HASH
                      /\ c <> DQUOTE /\ c <> BACKSLASH) (encodeState s)
  /\ forall s', Uri.isWellFormed s' = true ->
       encodeState s' = encodeState s -> s' = s.
Proof.
  intros Hwf. split; [by apply decodeState_encodeState|]. split.
  - destruct (encodeState_encoded s Hwf) as [Halpha _].
    eapply Forall_impl; [exact Halpha|]. intros c Hc.
    by apply isEncoded_safe.
  - intros s' Hwf' Heq.
    rewrite <- (decodeState_encodeState s' Hwf'), Heq.
    by apply decodeState_encodeState.
Qed.

Lemma encode_ill_formed (n : nat) (s : jstr) :
  (length s <= n)%nat ->
  Forall (fun c => (c < 65536)%N) s ->
  Uri.isWellFormed s = false -> Uri.encodeURIComponent s = None.
Proof.
  revert s. induction n as [|n IH]; intros s Hlen Hu Hwf.
  { destruct s; [done | simpl in Hlen; lia]. }
  destruct s as [|c s']; [done|].
  simpl in Hlen. apply Forall_cons in Hu as [Hc Hu].
  cbn [Uri.encodeURIComponent Uri.isWellFormed] in *.
  destruct (Uri.isUnreserved c) eqn:Eu.
  - assert (Hcl : Uri.isLeadSurrogate c = false
                  /\ Uri.isTrailSurrogate c = false).
    { unfold Uri.isUnreserved, Uri.isAlnum, Uri.isLeadSurrogate,
        Uri.isTrailSurrogate in *. nbool. lia. }
    destruct Hcl as [Hl Ht]. rewrite Hl, Ht in Hwf. cbn [negb andb] in Hwf.
    apply N.ltb_lt in Hc. rewrite Hc in Hwf. cbn [andb] in Hwf.
    by rewrite (IH s' ltac:(lia) Hu Hwf).
  - destruct (Uri.isTrailSurrogate c) eqn:Et; [done|].
    destruct (Uri.isLeadSurrogate c) eqn:El.
    + destruct s' as [|d s'']; [done|].
      destruct (Uri.isTrailSurrogate d) eqn:Ed; [|done].
      cbn [andb] in Hwf. simpl in Hlen.
      apply Forall_cons in Hu as [_ Hu].
      by rewrite (IH s'' ltac:(lia) Hu Hwf).
    + cbn [negb andb] in Hwf.
      apply N.ltb_lt in Hc. rewrite Hc in Hwf. cbn [andb] in Hwf.
      by rewrite (IH s' ltac:(lia) Hu Hwf).
Qed.

(** X10. [encodeURIComponent] throws exactly on the texts with an
    unpaired surrogate, and on those [encodeState] answers the text
    itself, unescaped. *)
Theorem X10_encode_fails_on_unpaired (s : jstr) :
  Forall (fun c => (c < 65536)%N) s ->
  (Uri.encodeURIComponent s = None <-> Uri.isWellFormed s = false)
  /\ (Uri.isWellFormed s = false -> encodeState s = s).
Proof.
  intros Hu.
  assert (Hill : Uri.isWellFormed s = false -> Uri.encodeURIComponent s = None)
    by (by apply (encode_ill_formed (length s))).
  split; [split; [|exact Hill] |].
  - intros Hnone. destruct (Uri.isWellFormed s) eqn:Hwf; [|done].
    destruct (encode_decode_wf (length s) s ltac:(lia) Hwf) as (e & He & _).
    congruence.
  - intros Hwf. unfold encodeState. by rewrite (Hill Hwf).
Qed.

Lemma decodeLoop_plain (s : jstr) (fuel : nat) :
  (length s <= fuel)%nat -> PERCENT ∉ s -> Uri.decodeLoop fuel s = Some s.
Proof.
  revert fuel. induction s as [|c s IH]; intros fuel Hf Hp.
  { by destruct fuel. }
  destruct fuel as [|fuel]; [simpl in Hf; lia|].
  rewrite decodeLoop_raw by (intros ->; apply Hp; by left).
  rewrite IH; [done | simpl in Hf; lia |].
  intros Hin. apply Hp. by right.
Qed.

Lemma decodeLoop_stray (a rest : jstr) (fuel : nat) :
  PERCENT ∉ a ->
  match rest with
  | h1 :: h2 :: _ => Uri.parseHexOctet h1 h2 = None
  | _ => True
  end ->
  Uri.decodeLoop fuel (a ++ PERCENT :: rest) = None.
Proof.
  revert fuel. induction a as [|c a IH]; intros fuel Hp Hrest.
  - destruct fuel as [|fuel]; [done|]. simpl.
    destruct rest as [|h1 [|h2 rest]]; try done. by rewrite Hrest.
  - destruct fuel as [|fuel]; [done|].
    rewrite <- app_comm_cons.
    rewrite decodeLoop_raw by (intros ->; apply Hp; by left).
    rewrite IH; [done | | done]. intros Hin. apply Hp. by right.
Qed.

(** X11. A text without [%] decodes to itself; a text whose first [%]
    is not followed by two hexadecimal digits makes
    [decodeURIComponent] throw, and [decodeState] answers the text as it
    stands. *)
Theorem X11_decodeState_raw (a rest : jstr) :
  PERCENT ∉ a ->
  decodeState a = a
  /\ (match rest with
      | h1 :: h2 :: _ => Uri.parseHexOctet h1 h2 = None
      | _ => True
      end ->
      Uri.decodeURIComponent (a ++ PERCENT :: rest) = None
      /\ decodeState (a ++ PERCENT :: rest) = a ++ PERCENT :: rest).
Proof.
  intros Hp. split.
  - unfold decodeState, Uri.decodeURIComponent.
    by rewrite decodeLoop_plain.
  - intros Hrest. unfold decodeState, Uri.decodeURIComponent.
    by rewrite decodeLoop_stray.
Qed.

(** ** The refresh interval slider *)

Lemma nearestLoop_spec (cs : list Z) (val : Z) :
  forall (pre : list Z) (idx : nat) (best : option Z),
    match best with
    | None => pre = []
    | Some b => firstLeast (fun c => distance c val) pre idx
                /\ exists c, pre !! idx = Some c /\ b = distance c val
    end ->
    pre ++ cs <> [] ->
    firstLeast (fun c => distance c val) (pre ++ cs)
      (nearestLoop cs val (length pre) idx best).
Proof.
  induction cs as [|c cs IH]; intros pre idx best Hinv Hne.
  - rewrite app_nil_r in *. destruct best as [b|]; [by destruct Hinv|done].
  - cbn [nearestLoop].
    replace (pre ++ c :: cs) with ((pre ++ [c]) ++ cs)
      by (by rewrite <- app_assoc).
    replace (S (length pre)) with (length (pre ++ [c]))
      by (rewrite length_app; simpl; lia).
    destruct best as [b|].
    + destruct Hinv as [(c0 & Hc0 & Hmin) (c1 & Hc1 & ->)].
      assert (c1 = c0) as -> by congruence.
      destruct (distance c val <? distance c0 val) eqn:Ed.
      * apply Z.ltb_lt in Ed.
        replace (length (pre ++ [c])) with (S (length pre)) at 2
          by (rewrite length_app; simpl; lia).
        apply IH; [|by destruct pre].
        assert (Hnew : (pre ++ [c]) !! length pre = Some c)
          by (by rewrite lookup_app_r, Nat.sub_diag by lia).
        split; [|by exists c].
        exists c. split; [done|]. intros i c' Hi. cbv beta.
        destruct (decide (i < length pre)%nat) as [Hlt|Hge].
        -- rewrite lookup_app_l in Hi by done.
           destruct (Hmin i c' Hi) as [Hle _]. cbv beta in Hle. lia.
        -- rewrite lookup_app_r in Hi by lia.
           destruct (i - length pre)%nat as [|k] eqn:Ek; [|done].
           injection Hi as <-. split; [lia|]. lia.
      * apply Z.ltb_ge in Ed.
        apply IH; [|by destruct pre].
        assert (Hidx : (idx < length pre)%nat)
          by (by apply lookup_lt_is_Some; exists c0).
        assert (Hold : (pre ++ [c]) !! idx = Some c0)
          by (by rewrite lookup_app_l).
        split; [|by exists c0].
        exists c0. split; [done|]. intros i c' Hi. cbv beta.
        destruct (decide (i < length pre)%nat) as [Hlt|Hge].
        -- rewrite lookup_app_l in Hi by done. by apply Hmin.
        -- rewrite lookup_app_r in Hi by lia.
           destruct (i - length pre)%nat as [|k] eqn:Ek; [|done].
           injection Hi as <-. split; [lia|]. lia.
    + subst pre. cbn [app length] in *.
      apply (IH [c] 0%nat (Some (distance c val))); [|done].
      split; [|by exists c].
      exists c. split; [done|]. intros [|i] c' Hi; [|done].
      injection Hi as <-. split; lia.
Qed.

Lemma firstLeast_ext (d1 d2 : Z -> Z) (cs : list Z) (r : nat) :
  (forall c, c ∈ cs -> d1 c = d2 c) ->
  firstLeast d1 cs r -> firstLeast d2 cs r.
Proof.
  intros Hext (c & Hc & Hmin). exists c. split; [done|].
  intros i c' Hi. destruct (Hmin i c' Hi) as [Hle Hfirst].
  rewrite <- (Hext c) by (by eapply list_elem_of_lookup_2).
  rewrite <- (Hext c') by (by eapply list_elem_of_lookup_2).
  done.
Qed.

(** Where the subtraction is exact the distance is the true one. *)
Lemma distance_exact (c val : Z) :
  0 <= c <= 5000 -> Z.abs val <= 2 ^ 53 - 5001 ->
  distance c val = Z.abs (c - val).
Proof.
  intros Hc Hval. unfold distance, roundDouble. cbv zeta.
  change (2 ^ 53) with 9007199254740992 in *.
  replace (Z.abs (c - val) <? 9007199254740992) with true
    by (symmetry; apply Z.ltb_lt; lia).
  done.
Qed.

Lemma choices_range (c : Z) : c ∈ choices -> 0 <= c <= 5000.
Proof.
  unfold choices. intros Hc.
  repeat (apply elem_of_cons in Hc as [->|Hc]; [lia|]).
  by apply elem_of_nil in Hc.
Qed.

(** Far beyond the choices every difference rounds to the same double,
    and the first index is answered. *)
Lemma nearestIndex_far : nearestIndex (10 ^ 20) = 0%nat.
Proof. vm_compute. reflexivity. Qed.

(** X12. For an integer value [nearestIndex] answers the first index
    whose choice has the least distance, as the code computes the
    distance: the double nearest to [choices[i] - val], in absolute
    value. Where that subtraction is exact, for a value of magnitude at
    most 2^53 - 5001, this is the choice closest to the value, the first
    one when two choices are equally close. *)
Theorem X12_nearestIndex_closest (val : Z) :
  firstLeast (fun c => distance c val) choices (nearestIndex val)
  /\ (nearestIndex val < length choices)%nat
  /\ (Z.abs val <= 2 ^ 53 - 5001 ->
      closestAt choices val (nearestIndex val)).
Proof.
  assert (Hc : firstLeast (fun c => distance c val) choices
                 (nearestIndex val)).
  { apply (nearestLoop_spec choices val [] 0%nat None); done. }
  split; [done|]. split.
  - destruct Hc as (c & Hc & _). apply lookup_lt_is_Some. by exists c.
  - intros Hval. unfold closestAt.
    apply (firstLeast_ext (fun c => distance c val)); [|done].
    intros c Hin. apply distance_exact; [by apply choices_range | done].
Qed.

(** X13. Whatever index the slider reports, the stored interval is one
    of the choices, hence between 500 and 5000 ms, and it is the delay
    of the tag refresh as it stands; the slider shows a stored choice at
    its own position. *)
Theorem X13_slider_stores_a_choice (idx : Z) :
  (exists v, sliderValue idx = Some v /\ v ∈ choices /\ 500 <= v <= 5000
     /\ forall st, refreshDelayMs st = v -> refreshDelay st = v)
  /\ forall v, v ∈ choices ->
       sliderValue (Z.of_nat (nearestIndex v)) = Some v.
Proof.
  split.
  - unfold sliderValue.
    assert (Hi : (Z.to_nat (Z.max 0 (Z.min (len choices - 1) idx)) < 8)%nat)
      by (unfold len; simpl; lia).
    destruct (Z.to_nat (Z.max 0 (Z.min (len choices - 1) idx)))
      as [|[|[|[|[|[|[|[|n]]]]]]]]; [..|lia];
      (eexists; split; [reflexivity|]; split;
       [apply (bool_decide_unpack _); vm_compute; exact I|];
       split; [lia|]; intros st Hst; unfold refreshDelay; rewrite Hst; lia).
  - intros v Hv. unfold choices in Hv.
    repeat (apply elem_of_cons in Hv as [->|Hv]; [vm_compute; reflexivity|]).
    by apply elem_of_nil in Hv.
Qed.

(** ** Composition and the countdown *)

Lemma filter_none {A} (f : A -> bool) (l : list A) :
  Forall (fun x => f x = false) l -> List.filter f l = [].
Proof.
  induction 1 as [|x l Hx _ IH]; [done|]. simpl. by rewrite Hx.
Qed.

Lemma filter_all {A} (f : A -> bool) (l : list A) :
  Forall (fun x => f x = true) l -> List.filter f l = l.
Proof.
  induction 1 as [|x l Hx _ IH]; [done|]. simpl. by rewrite Hx, IH.
Qed.

(** A tick before any timer is due moves the clock and nothing else. *)
Lemma runUntil_idle (t : Z) (w : World) :
  Forall (fun p => Z.max (now w) t < snd p) (pending (timers w)) ->
  runUntil t w
  = {| now := Z.max (now w) t; timers := timers w; timerId := timerId w;
       value := value w; composing := composing w; settings := settings w;
       cycles := cycles w |}.
Proof.
  intros Hdue. unfold runUntil. cbv zeta.
  rewrite filter_none, filter_all.
  - simpl. by destruct (timers w).
  - eapply Forall_impl; [exact Hdue|]. intros p Hp. cbv beta in *.
    apply negb_true_iff, Z.leb_gt. lia.
  - eapply Forall_impl; [exact Hdue|]. intros p Hp. cbv beta in *.
    apply Z.leb_gt. lia.
Qed.

(** Edits and ticks during a composition leave the timers as they are,
    as long as no timer comes due. *)
Lemma composing_phase (es : list Event) (g : Widget) :
  composing (world g) = true ->
  Forall (whileComposing (List.map snd (pending (timers (world g))))) es ->
  Forall (fun p => now (world g) < snd p) (pending (timers (world g))) ->
  timers (world (run es g)) = timers (world g)
  /\ timerId (world (run es g)) = timerId (world g)
  /\ cycles (world (run es g)) = cycles (world g)
  /\ composing (world (run es g)) = true
  /\ settings (world (run es g)) = settings (world g)
  /\ frames (run es g) = frames g
  /\ value (world (run es g)) = lastInput es (value (world g))
  /\ now (world g) <= now (world (run es g))
  /\ Forall (fun p => now (world (run es g)) < snd p)
       (pending (timers (world g))).
Proof.
  revert g. induction es as [|e es IH]; intros g Hcomp Hes Hnow.
  { cbn. split_and!; done || lia. }
  apply Forall_cons in Hes as [He Hes].
  destruct e as [v ic| | | |t]; try done.
  - (* an edit *)
    cbn [run fold_left step lastInput]. fold (run es).
    set (g1 := {| world := onInput v ic (world g); frames := frames g |}).
    assert (Hw1 : world g1
      = {| now := now (world g); timers := timers (world g);
           timerId := timerId (world g); value := v;
           composing := composing (world g);
           settings := settings (world g); cycles := cycles (world g) |}).
    { subst g1. cbn [world]. unfold onInput. rewrite Hcomp.
      by rewrite orb_true_r. }
    destruct (IH g1) as (H1 & H2 & H3 & H4 & H5 & H6 & H7 & H8 & H9);
      rewrite ?Hw1; cbn [now timers timerId value composing settings cycles];
      try done.
    rewrite Hw1 in H1, H2, H3, H5, H7, H8, H9.
    cbn [now timers timerId value composing settings cycles] in *.
    split_and!; done.
  - (* a tick *)
    cbn [run fold_left step lastInput]. fold (run es).
    set (g1 := {| world := runUntil t (world g); frames := frames g |}).
    assert (Hidle : Forall (fun p => Z.max (now (world g)) t < snd p)
                      (pending (timers (world g)))).
    { cbn [whileComposing] in He. apply Forall_forall. intros p Hp.
      pose proof (proj1 (Forall_forall _ _) Hnow p Hp) as Hn.
      pose proof (proj1 (Forall_forall _ _) He (snd p)
                    (list_elem_of_fmap_2 snd _ p Hp)) as Ht.
      cbv beta in *. lia. }
    assert (Hw1 : world g1
      = {| now := Z.max (now (world g)) t; timers := timers (world g);
           timerId := timerId (world g); value := value (world g);
           composing := composing (world g);
           settings := settings (world g); cycles := cycles (world g) |}).
    { subst g1. cbn [world]. by apply runUntil_idle. }
    destruct (IH g1) as (H1 & H2 & H3 & H4 & H5 & H6 & H7 & H8 & H9);
      rewrite ?Hw1; cbn [now timers timerId value composing settings cycles];
      try done.
    rewrite Hw1 in H1, H2, H3, H5, H7, H8, H9.
    cbn [now timers timerId value composing settings cycles] in *.
    unfold run in H8. split_and!; done || lia.
Qed.

(** The frame callbacks queued by the ends of compositions, run one
    after the other while no timer was pending, leave one countdown. *)
Lemma frames_count (n : nat) (w : World) :
  pending (timers w) = [] -> composing w = false ->
  counting (cycles w) (effectiveDelay (settings w)) (now w) (value w)
    (Nat.iter (S n) debounced w).
Proof.
  intros Hp Hcomp. induction n as [|n IH].
  - by apply debounced_starts.
  - change (Nat.iter (S (S n)) debounced w)
      with (debounced (Nat.iter (S n) debounced w)).
    destruct IH as (h & Hp' & Hid' & Hc' & Hnow' & Hv' & Hcomp' & Hms').
    pose proof (debounced_restarts _ h _ Hp' Hid' Hcomp') as Hd.
    by rewrite Hc', Hnow', Hv', Hms' in Hd.
Qed.

(** X14. A composition that starts while no timer is pending, whatever
    ran before and however many frame callbacks are still queued: the
    edits made while composing arm no timer and run no write cycle; the
    frame after the end of the composition leaves exactly one countdown,
    of a full effective delay, which adds one write cycle, with the text
    of the last edit. The effective delay is [max(0, refreshDelayMs)]
    as long as the setting is at most 2^31 - 1. *)
Theorem X14_composition_one_cycle (w0 : World) (queued : nat)
    (es : list Event) (tF : Z) :
  quiet w0 ->
  Forall (whileComposing []) es ->
  let ms := effectiveDelay (settings w0) in
  let during := run (EvCompositionStart :: es) (mkWidget w0 queued) in
  let g := run [EvCompositionEnd; EvClock tF; EvFrame] during in
  let v := lastInput es (value w0) in
  (refreshDelayMs (settings w0) <= 2147483647 ->
     ms = Z.max 0 (refreshDelayMs (settings w0)))
  /\ quiet (world during)
  /\ cycles (world during) = cycles w0
  /\ counting (cycles w0) ms (now (world g)) v (world g)
  /\ frames g = 0%nat
  /\ (forall T, now (world g) <= T < now (world g) + ms ->
        cycles (runUntil T (world g)) = cycles w0)
  /\ (forall T, now (world g) + ms <= T ->
        cycles (runUntil T (world g)) = cycles w0 ++ [v]).
Proof.
  intros Hp Hes ms during g v. unfold quiet in Hp.
  split; [apply effectiveDelay_in_range|].
  set (g0 := {| world := setComposing true w0; frames := queued |}).
  assert (Hd : during = run es g0) by done.
  destruct (composing_phase es g0) as (H1 & H2 & H3 & H4 & H5 & H6 & H7 & _).
  { done. }
  { subst g0. cbn [world setComposing timers]. by rewrite Hp. }
  { subst g0. cbn [world setComposing timers]. rewrite Hp. constructor. }
  rewrite <- Hd in H1, H2, H3, H4, H5, H6, H7.
  subst g0. cbn [world setComposing timers timerId cycles settings value
                 frames] in *.
  split; [unfold quiet; by rewrite H1|]. split; [done|].
  set (w2 := runUntil tF (setComposing false (world during))).
  assert (Hw2 : w2 = {| now := Z.max (now (world during)) tF;
                        timers := timers (world during);
                        timerId := timerId (world during);
                        value := value (world during);
                        composing := false;
                        settings := settings (world during);
                        cycles := cycles (world during) |}).
  { subst w2. rewrite runUntil_idle; [done|].
    cbn [setComposing timers]. rewrite H1, Hp. constructor. }
  assert (Hg : world g = Nat.iter (S queued) debounced w2
               /\ frames g = 0%nat).
  { subst g. cbn [run fold_left step world frames]. by rewrite H6. }
  destruct Hg as [Hg Hfr].
  assert (Harm : counting (cycles w0) ms (now w2) v
                   (Nat.iter (S queued) debounced w2)).
  { pose proof (frames_count queued w2) as Ha. rewrite Hw2 in Ha |- *.
    cbn [now value settings composing timers cycles] in Ha |- *.
    rewrite H1, H3, H5, H7 in Ha |- *. by apply Ha. }
  assert (Hnow : now (world g) = now w2).
  { rewrite Hg. destruct Harm as (h & _ & _ & _ & Hn & _). exact Hn. }
  rewrite Hnow, Hg. split; [done|]. split; [done|].
  split; intros T HT;
    by apply (counting_expires (cycles w0) ms (now w2) v _ T Harm).
Qed.


(** ** Tag collection *)

Lemma jstr_leb_refl (a : jstr) : jstr_leb a a = true.
Proof.
  induction a as [|x a IH]; [done|]. simpl.
  by rewrite N.ltb_irrefl.
Qed.








(** ** Inserting the block *)

(** An occurrence, code unit by code unit. *)
Lemma occurs_lookup (s pat : jstr) (i : Z) :
  occurs s pat i
  <-> 0 <= i /\ forall k c, pat !! k = Some c ->
                  s !! (Z.to_nat i + k)%nat = Some c.
Proof.
  unfold occurs. split; intros [Hi H]; (split; [done|]).
  - apply startsWith_app in H as [rest Hrest]. intros k c Hk.
    rewrite <- lookup_drop, Hrest. by apply lookup_app_l_Some.
  - generalize (Z.to_nat i) H. clear. intros n.
    revert n. induction pat as [|p pat IH]; intros n H; [done|].
    pose proof (H 0%nat p eq_refl) as H0. rewrite Nat.add_0_r in H0.
    rewrite (drop_S _ _ _ H0). simpl. rewrite N.eqb_refl. simpl.
    apply IH. intros k c Hk. specialize (H (S k) c Hk).
    by replace (S n + k)%nat with (n + S k)%nat by lia.
Qed.

(** Two texts that agree on the window of an occurrence both have it. *)
Lemma occurs_window (s s' pat : jstr) (i : Z) :
  (0 <= i -> forall k, (k < length pat)%nat ->
     s' !! (Z.to_nat i + k)%nat = s !! (Z.to_nat i + k)%nat) ->
  occurs s pat i -> occurs s' pat i.
Proof.
  intros Hw [Hi H]%occurs_lookup. apply occurs_lookup. split; [done|].
  intros k c Hk. rewrite Hw; [by apply H|done|].
  apply lookup_lt_is_Some. by exists c.
Qed.

Lemma occurs_app_l (a b pat : jstr) (i : Z) :
  i + len pat <= len a -> occurs (a ++ b) pat i <-> occurs a pat i.
Proof.
  intros Hfit. unfold len in Hfit.
  split; apply occurs_window; intros Hi k Hk;
    [symmetry|]; apply lookup_app_l; lia.
Qed.

Lemma occurs_app_r (a b pat : jstr) (i : Z) :
  0 <= i -> occurs (a ++ b) pat (len a + i) <-> occurs b pat i.
Proof.
  intros Hi. rewrite !occurs_lookup. unfold len.
  split; intros [_ H]; (split; [lia|]); intros k c Hk; specialize (H k c Hk).
  - rewrite lookup_app_r in H by lia.
    by replace (Z.to_nat (Z.of_nat (length a) + i) + k - length a)%nat
      with (Z.to_nat i + k)%nat in H by lia.
  - rewrite lookup_app_r by lia.
    by replace (Z.to_nat (Z.of_nat (length a) + i) + k - length a)%nat
      with (Z.to_nat i + k)%nat by lia.
Qed.

(** An occurrence cannot cover a code unit the pattern does not hold. *)
Lemma occurs_covers (s pat : jstr) (i : Z) (n : nat) (c : N) :
  occurs s pat i -> s !! n = Some c ->
  (Z.to_nat i <= n < Z.to_nat i + length pat)%nat -> c ∈ pat.
Proof.
  intros [Hi H]%occurs_lookup Hn Hin.
  destruct (lookup_lt_is_Some_2 pat (n - Z.to_nat i)%nat ltac:(lia))
    as [c' Hc'].
  specialize (H _ _ Hc').
  replace (Z.to_nat i + (n - Z.to_nat i))%nat with n in H by lia.
  assert (c' = c) as -> by congruence.
  by eapply list_elem_of_lookup_2.
Qed.

Lemma indexOf_intro (s pat : jstr) (pos r : Z) :
  0 <= pos <= len s -> firstFrom s pat pos r -> JS.indexOf s pat pos = r.
Proof.
  intros Hpos Hr.
  destruct (decide (JS.indexOf s pat pos = -1)) as [Hn|Hn].
  - exfalso. eapply firstFrom_noneFrom; [exact Hr|].
    by apply indexOf_noneFrom.
  - eapply firstFrom_unique; [|exact Hr].
    by apply indexOf_firstFrom.
Qed.

(** The locator's answer from the four searches. *)
Lemma findBaseBlock_intro (t : jstr) (f fe b e : Z) :
  firstFrom t FENCE_START 0 f ->
  firstFrom t FENCE_CLOSE (f + len FENCE_START) fe ->
  firstFrom t BEGIN_MARK f b ->
  firstFrom t END_MARK f e ->
  b <= e ->
  findBaseBlock t
  = Some {| start := f; end_ := fe + 4; filtersStart := b;
            filtersEnd := e + len END_MARK |}.
Proof.
  intros Hf Hfe Hb He Hbe.
  pose proof (len_nonneg t) as Ht.
  assert (Hfit : f + len FENCE_START <= len t)
    by (apply occurs_fits; [done | apply Hf]).
  assert (Hf0 : 0 <= f) by apply Hf.
  assert (H7 : 0 <= len FENCE_START) by apply len_nonneg.
  unfold findBaseBlock.
  rewrite (indexOf_intro t FENCE_START 0 f) by (done || lia).
  rewrite (indexOf_intro t FENCE_CLOSE _ fe) by (done || lia).
  rewrite (indexOf_intro t BEGIN_MARK f b) by (done || lia).
  rewrite (indexOf_intro t END_MARK f e) by (done || lia).
  assert (0 <= fe) by (destruct Hfe as [? _]; lia).
  assert (0 <= b) by (destruct Hb as [? _]; lia).
  assert (0 <= e) by lia.
  replace (f <? 0) with false by (symmetry; apply Z.ltb_ge; lia).
  replace (fe <? 0) with false by (symmetry; apply Z.ltb_ge; lia).
  replace (b <? 0) with false by (symmetry; apply Z.ltb_ge; lia).
  replace (e <? 0) with false by (symmetry; apply Z.ltb_ge; lia).
  replace (e <? b) with false by (symmetry; apply Z.ltb_ge; lia).
  done.
Qed.

(** A first occurrence stays the first when text is appended. *)
Lemma firstFrom_app (a b pat : jstr) (pos i : Z) :
  0 <= pos -> firstFrom a pat pos i -> pat <> [] ->
  firstFrom (a ++ b) pat pos i.
Proof.
  intros Hpos (Hi & Ho & Hmin) Hne.
  pose proof (occurs_fits a pat i Hne Ho) as Hfit.
  split; [done|]. split; [by apply occurs_app_l|].
  intros j Hj Hoj. apply (Hmin j Hj).
  apply (occurs_app_l a b); [lia | done].
Qed.

Lemma indexOfFrom_shift (pat x : jstr) (k m : Z) :
  0 <= k ->
  JS.indexOfFrom pat x (m + k)
  = if JS.indexOfFrom pat x k <? 0 then -1 else m + JS.indexOfFrom pat x k.
Proof.
  revert k. induction x as [|c x IH]; intros k Hk; simpl.
  - destruct (JS.startsWith [] pat); [|done].
    by replace (k <? 0) with false by (symmetry; apply Z.ltb_ge; lia).
  - destruct (JS.startsWith (c :: x) pat).
    + by replace (k <? 0) with false by (symmetry; apply Z.ltb_ge; lia).
    + rewrite <- Z.add_assoc. apply IH. lia.
Qed.

(** A search that starts in the appended part. *)
Lemma indexOf_app_shift (pre tpl pat : jstr) (d : Z) :
  0 <= d <= len tpl ->
  JS.indexOf (pre ++ tpl) pat (len pre + d)
  = if JS.indexOf tpl pat d <? 0 then -1 else len pre + JS.indexOf tpl pat d.
Proof.
  intros Hd. unfold JS.indexOf. pose proof (len_nonneg pre) as Hp.
  rewrite len_app.
  replace (Z.min (Z.max (len pre + d) 0) (len pre + len tpl))
    with (len pre + d) by lia.
  replace (Z.min (Z.max d 0) (len tpl)) with d by lia.
  replace (drop (Z.to_nat (len pre + d)) (pre ++ tpl))
    with (drop (Z.to_nat d) tpl).
  - apply indexOfFrom_shift. lia.
  - replace (Z.to_nat (len pre + d)) with (length pre + Z.to_nat d)%nat
      by (unfold len; lia).
    by rewrite drop_app_add.
Qed.

(** The appended block is located, once the fence token does not occur
    before it. *)
Lemma findBaseBlock_appended (pre : jstr) :
  (forall j, 0 <= j <= len pre -> ~ occurs (pre ++ template) FENCE_START j) ->
  findBaseBlock (pre ++ template)
  = Some {| start := len pre + 1; end_ := len pre + 205;
            filtersStart := len pre + 9; filtersEnd := len pre + 121 |}.
Proof.
  intros Hfree. pose proof (len_nonneg pre) as Hp.
  assert (Hf : JS.indexOf (pre ++ template) FENCE_START 0 = len pre + 1).
  { apply indexOf_intro; [rewrite len_app; change (len template) with 206; lia|].
    split; [lia|]. split.
    - apply (occurs_app_r pre template FENCE_START 1); [lia|].
      split; [lia | vm_compute; reflexivity].
    - intros j Hj. apply Hfree. lia. }
  unfold findBaseBlock. rewrite Hf.
  change (len FENCE_START) with 7. change (len END_MARK) with 13.
  replace (len pre + 1 + 7) with (len pre + 8) by lia.
  rewrite !indexOf_app_shift by (change (len template) with 206; lia).
  change (JS.indexOf template FENCE_CLOSE 8) with 201.
  change (JS.indexOf template BEGIN_MARK 1) with 9.
  change (JS.indexOf template END_MARK 1) with 108.
  cbn [Z.ltb Z.compare].
  replace (len pre + 1 <? 0) with false by (symmetry; apply Z.ltb_ge; lia).
  replace (len pre + 201 <? 0) with false by (symmetry; apply Z.ltb_ge; lia).
  replace (len pre + 9 <? 0) with false by (symmetry; apply Z.ltb_ge; lia).
  replace (len pre + 108 <? 0) with false by (symmetry; apply Z.ltb_ge; lia).
  replace (len pre + 108 <? len pre + 9) with false
    by (symmetry; apply Z.ltb_ge; lia).
  cbn [orb]. do 2 f_equal; lia.
Qed.

(** X17. Whatever [findOrInsertBaseBlock] answers is the locator's
    answer on the text the note holds after the call; that text begins
    with the old one, and no other note is touched. A note with a block
    is left as it was, and after an answer that is not [null] a second
    call changes nothing and answers the same. *)
Theorem X17_findOrInsert_answer (vault vault' : Vault) (file : jstr)
    (r : option BaseBlockInfo) :
  findOrInsertBaseBlock vault file = Some (vault', r) ->
  exists text suffix,
    vault !! file = Some text
    /\ vault' !! file = Some (text ++ suffix)
    /\ findBaseBlock (text ++ suffix) = r
    /\ (forall other, other <> file -> vault' !! other = vault !! other)
    /\ (findBaseBlock text <> None -> vault' = vault)
    /\ (r <> None -> findOrInsertBaseBlock vault' file = Some (vault', r)).
Proof.
  unfold findOrInsertBaseBlock.
  destruct (vault !! file) as [text|] eqn:Hread; [|done].
  destruct (findBaseBlock text) as [info|] eqn:Hloc.
  - intros [= <- <-]. exists text, [].
    rewrite app_nil_r, Hread, Hloc. split_and!; done.
  - intros [= <- <-]. exists text, ((if JS.endsWith text NL then [] else NL)
                                    ++ template).
    fold (insertedText text). rewrite lookup_insert_eq.
    split_and!; try done.
    + intros other Hne. by rewrite lookup_insert_ne.
    + intros Hr. destruct (findBaseBlock (insertedText text)); done.
Qed.

Lemma NL_not_in_fence : 10%N ∉ FENCE_START.
Proof. apply (bool_decide_unpack _). vm_compute. exact I. Qed.

(** The text before the appended template, and where the template is
    found. *)
Lemma insertedText_located (text : jstr) :
  noneFrom text FENCE_START 0 ->
  let pre := text ++ (if JS.endsWith text NL then [] else NL) in
  insertedText text = pre ++ template
  /\ len pre = len text + (if JS.endsWith text NL then 0 else 1)
  /\ findBaseBlock (pre ++ template)
     = Some {| start := len pre + 1; end_ := len pre + 205;
               filtersStart := len pre + 9; filtersEnd := len pre + 121 |}.
Proof.
  intros Hfree.
  set (pad := if JS.endsWith text NL then [] else NL).
  intros pre.
  assert (Hins : insertedText text = pre ++ template)
    by (unfold insertedText, pre; by rewrite <- app_assoc).
  assert (HL : len pre = len text + (if JS.endsWith text NL then 0 else 1)).
  { unfold pre, pad. rewrite len_app.
    by destruct (JS.endsWith text NL). }
  assert (Hnl : forall n, (length text <= n <= length pre)%nat ->
                  (pre ++ template) !! n = Some 10%N).
  { intros n Hn. unfold pre in *. rewrite length_app in Hn.
    destruct (decide (n < length (text ++ pad))%nat) as [Hlt|Hge].
    - rewrite lookup_app_l by done. rewrite lookup_app_r by lia.
      rewrite length_app in Hlt. unfold pad in *.
      destruct (JS.endsWith text NL); simpl in *; [lia|].
      by replace (n - length text)%nat with 0%nat by lia.
    - rewrite lookup_app_r by lia. rewrite length_app in *.
      by replace (n - (length text + length pad))%nat with 0%nat by lia. }
  split; [done|]. split; [done|].
  apply findBaseBlock_appended. intros j Hj Hocc.
  destruct (decide (j + len FENCE_START <= len text)) as [Hin|Hout].
  - apply (Hfree j); [lia|]. unfold pre in Hocc.
    rewrite <- app_assoc in Hocc.
    by apply (occurs_app_l text (pad ++ template)) in Hocc.
  - change (len FENCE_START) with 7 in Hout.
    assert (length text <= length pre)%nat
      by (unfold pre; rewrite length_app; lia).
    apply NL_not_in_fence.
    apply (occurs_covers _ _ j (Z.to_nat (Z.max j (len text))) _ Hocc).
    + apply Hnl. unfold len in *. lia.
    + change (length FENCE_START) with 7%nat. unfold len in *. lia.
Qed.

(** X18. On a note without the fence token the template is appended,
    after a line break if the note does not end with one, and the
    answer is the region of the appended block: the markers around the
    template's body, inside the fence. *)
Theorem X18_insert_into_plain_note (vault : Vault) (file text : jstr) :
  vault !! file = Some text ->
  noneFrom text FENCE_START 0 ->
  let L := len text + (if JS.endsWith text NL then 0 else 1) in
  let info := {| start := L + 1; end_ := L + 205;
                 filtersStart := L + 9; filtersEnd := L + 121 |} in
  findOrInsertBaseBlock vault file
  = Some (<[file := insertedText text]> vault, Some info)
  /\ JS.slice (insertedText text) (filtersStart info) (filtersEnd info)
     = BEGIN_MARK ++ NL ++ templateBody ++ NL ++ END_MARK
  /\ JS.slice (insertedText text) (start info) (end_ info - 4)
     = FENCE_START ++ NL
       ++ JS.slice (insertedText text) (filtersStart info) (filtersEnd info)
       ++ NL ++ lit "# ---- Manual edits below are OK (column definitions, view settings, etc.) ----".
Proof.
  intros Hread Hfree L info.
  destruct (insertedText_located text Hfree) as (Hins & HL & Hloc).
  set (pre := text ++ (if JS.endsWith text NL then [] else NL)) in *.
  fold L in HL. rewrite HL in Hloc. fold info in Hloc.
  split; [|split].
  - unfold findOrInsertBaseBlock. rewrite Hread.
    rewrite (proj2 (findBaseBlock_None text)) by (by left).
    cbv zeta. by rewrite Hins, Hloc.
  - rewrite Hins. subst info. cbn [filtersStart filtersEnd].
    rewrite <- HL. pose proof (len_nonneg pre).
    rewrite slice_mid by lia.
    replace (Z.to_nat (len pre + 121)) with (length pre + 121)%nat
      by (unfold len; lia).
    replace (Z.to_nat (len pre + 9)) with (length pre + 9)%nat
      by (unfold len; lia).
    rewrite take_app_add, drop_app_add. vm_compute. reflexivity.
  - rewrite Hins. subst info.
    cbn [filtersStart filtersEnd start end_].
    rewrite <- HL. pose proof (len_nonneg pre).
    rewrite !slice_mid by lia.
    replace (Z.to_nat (len pre + 121)) with (length pre + 121)%nat
      by (unfold len; lia).
    replace (Z.to_nat (len pre + 9)) with (length pre + 9)%nat
      by (unfold len; lia).
    replace (Z.to_nat (len pre + 205 - 4)) with (length pre + 201)%nat
      by (unfold len; lia).
    replace (Z.to_nat (len pre + 1)) with (length pre + 1)%nat
      by (unfold len; lia).
    rewrite !take_app_add, !drop_app_add. vm_compute. reflexivity.
Qed.

Lemma BEGIN_hash_first (k : nat) : BEGIN_MARK !! k = Some HASH -> k = 0%nat.
Proof.
  destruct k as [|k]; [done|]. intros Hk. exfalso.
  assert (Hfree : HASH ∉ drop 1 BEGIN_MARK)
    by (apply (bool_decide_unpack _); vm_compute; exact I).
  apply Hfree. apply (list_elem_of_lookup_2 _ k).
  by rewrite lookup_drop.
Qed.

(** In a stuck note nothing appended gets the locator past the stray
    end marker. *)
Lemma stuck_app (text suffix : jstr) :
  stuck text ->
  stuck (text ++ suffix) /\ findBaseBlock (text ++ suffix) = None.
Proof.
  intros (f & e & Hf & He & Hnb).
  assert (Hf0 : 0 <= f) by apply Hf.
  assert (Hfe : f <= e) by apply He.
  assert (Hefit : e + len END_MARK <= len text)
    by (apply occurs_fits; [done | apply He]).
  change (len END_MARK) with 13 in Hefit.
  assert (Hf' : firstFrom (text ++ suffix) FENCE_START 0 f)
    by (by apply firstFrom_app).
  assert (He' : firstFrom (text ++ suffix) END_MARK f e)
    by (by apply firstFrom_app).
  assert (Hnb' : forall j, f <= j <= e ->
                   ~ occurs (text ++ suffix) BEGIN_MARK j).
  { intros j Hj Hocc.
    destruct (decide (j + len BEGIN_MARK <= len text)) as [Hin|Hout].
    { apply (Hnb j Hj). by apply (occurs_app_l text suffix). }
    change (len BEGIN_MARK) with 61 in Hout.
    destruct He as (_ & Hoe & _).
    apply occurs_lookup in Hoe as [_ Hoe].
    apply occurs_lookup in Hocc as [_ Hocc].
    assert (Hat : forall k c, END_MARK !! k = Some c ->
                    BEGIN_MARK !! (Z.to_nat e - Z.to_nat j + k)%nat = Some c).
    { intros k c Hk.
      assert (Hk13 : (k < 13)%nat)
        by (change 13%nat with (length END_MARK);
            apply lookup_lt_is_Some; by exists c).
      destruct (lookup_lt_is_Some_2 BEGIN_MARK
                  (Z.to_nat e - Z.to_nat j + k)%nat) as [c' Hc'].
      { change (length BEGIN_MARK) with 61%nat. unfold len in *. lia. }
      pose proof (Hocc _ _ Hc') as H1.
      replace (Z.to_nat j + (Z.to_nat e - Z.to_nat j + k))%nat
        with (Z.to_nat e + k)%nat in H1 by lia.
      rewrite lookup_app_l in H1 by (unfold len in *; lia).
      rewrite (Hoe _ _ Hk) in H1. congruence. }
    pose proof (Hat 0%nat HASH eq_refl) as H0. rewrite Nat.add_0_r in H0.
    apply BEGIN_hash_first in H0.
    pose proof (Hat 2%nat 69%N eq_refl) as H2. rewrite H0 in H2.
    discriminate H2. }
  split; [by exists f, e|].
  apply findBaseBlock_None. right. exists f. split; [done|].
  right.
  assert (Hpos : 0 <= f <= len (text ++ suffix)).
  { rewrite len_app. pose proof (len_nonneg suffix). lia. }
  destruct (decide (JS.indexOf (text ++ suffix) BEGIN_MARK f = -1)) as [Hn|Hn].
  - left. by apply indexOf_noneFrom.
  - right. right. exists (JS.indexOf (text ++ suffix) BEGIN_MARK f), e.
    pose proof (indexOf_firstFrom _ _ _ _ Hpos eq_refl Hn) as Hb.
    split; [done|]. split; [done|].
    destruct Hb as (Hb1 & Hb2 & _).
    destruct (decide (JS.indexOf (text ++ suffix) BEGIN_MARK f <= e));
      [|lia].
    exfalso. by apply (Hnb' (JS.indexOf (text ++ suffix) BEGIN_MARK f)).
Qed.

(** X19. A note with an end marker after its first fence and no begin
    marker at or before that end marker is never located: the call
    appends the template, answers [null], and leaves the note in the
    same state, so that every further call appends the template
    again. *)
Theorem X19_stray_end_marker_loops (vault : Vault) (file text : jstr) :
  vault !! file = Some text ->
  stuck text ->
  findOrInsertBaseBlock vault file
  = Some (<[file := insertedText text]> vault, None)
  /\ stuck (insertedText text)
  /\ len (insertedText text) >= len text + len template.
Proof.
  intros Hread Hstuck.
  destruct (stuck_app text [] Hstuck) as [_ Hnone].
  rewrite app_nil_r in Hnone.
  destruct (stuck_app text ((if JS.endsWith text NL then [] else NL)
                            ++ template) Hstuck) as [Hs Hn].
  fold (insertedText text) in Hs, Hn.
  split; [|split; [done|]].
  - unfold findOrInsertBaseBlock. rewrite Hread, Hnone. cbv zeta.
    by rewrite Hn.
  - unfold insertedText. rewrite !len_app.
    pose proof (len_nonneg (if JS.endsWith text NL then [] else NL)). lia.
Qed.

(** ** Writing the state and reading it back *)

Lemma occurs_prefix_pat (s p q : jstr) (i : Z) :
  occurs s (p ++ q) i -> occurs s p i.
Proof.
  rewrite !occurs_lookup. intros [Hi H]. split; [done|].
  intros k c Hk. apply H. by apply lookup_app_l_Some.
Qed.

Lemma includes_false_occurs (s p : jstr) :
  JS.includes s p = false -> forall i, ~ occurs s p i.
Proof.
  intros Hinc i Hocc. apply occurs_split in Hocc.
  apply includes_app in Hocc. congruence.
Qed.

Lemma occurs_nil (p : jstr) (i : Z) : p <> [] -> ~ occurs [] p i.
Proof.
  intros Hne Hocc. pose proof (occurs_fits [] p i Hne Hocc) as Hfit.
  destruct Hocc as [Hi _]. destruct p; [done|].
  rewrite len_cons in Hfit. pose proof (len_nonneg p).
  change (len (@nil N)) with 0 in Hfit. lia.
Qed.

(** A pattern without a line break occurs inside one line. *)
Lemma occurs_join_line (p : jstr) (ls : list jstr) :
  p <> [] -> 10%N ∉ p ->
  Forall (fun l => forall i, ~ occurs l p i) ls ->
  forall i, ~ occurs (JS.join NL ls) p i.
Proof.
  intros Hne Hnl. induction 1 as [|l ls Hl Hls IH]; intros i.
  { by apply occurs_nil. }
  destruct ls as [|l' ls]; [apply Hl|].
  rewrite join_cons by done. intros Hocc.
  assert (Hi : 0 <= i) by apply Hocc.
  destruct (decide (i + len p <= len l)) as [Hin|Hout].
  { apply (Hl i). by apply (occurs_app_l l (NL ++ JS.join NL (l' :: ls))). }
  destruct (decide (len l + 1 <= i)) as [Hafter|Hcover].
  - apply (IH (i - (len l + 1))).
    rewrite app_assoc in Hocc.
    apply (occurs_app_r (l ++ NL) _ p (i - (len l + 1))); [lia|].
    rewrite len_app. change (len NL) with 1.
    by replace (len l + 1 + (i - (len l + 1))) with i by lia.
  - apply Hnl.
    apply (occurs_covers _ _ i (length l) _ Hocc).
    + rewrite lookup_app_r by lia. by rewrite Nat.sub_diag.
    + unfold len in *. lia.
Qed.

Lemma NL_not_in_END : 10%N ∉ END_MARK.
Proof. apply (bool_decide_unpack _). vm_compute. exact I. Qed.

(** After lines free of the end marker, the end marker that follows
    them is the first. *)
Lemma END_first_after_lines (ls : list jstr) (rest : jstr) :
  Forall endFree ls ->
  forall i, i < len (JS.join NL ls ++ NL) ->
    ~ occurs ((JS.join NL ls ++ NL) ++ END_MARK ++ rest) END_MARK i.
Proof.
  intros Hls i Hi Hocc.
  assert (Hi0 : 0 <= i) by apply Hocc.
  rewrite len_app in Hi. change (len NL) with 1 in Hi.
  rewrite <- app_assoc in Hocc.
  destruct (decide (i + len END_MARK <= len (JS.join NL ls))) as [Hin|Hout].
  - apply (occurs_join_line END_MARK ls ltac:(done) NL_not_in_END Hls i).
    by apply (occurs_app_l _ (NL ++ END_MARK ++ rest)).
  - apply NL_not_in_END.
    apply (occurs_covers _ _ i (length (JS.join NL ls)) _ Hocc).
    + rewrite lookup_app_r by lia. by rewrite Nat.sub_diag.
    + change (len END_MARK) with 13 in Hout.
      change (length END_MARK) with 13%nat. unfold len in *. lia.
Qed.

(** *** Lines without the end marker *)

Lemma hashSpaceFree_endFree (l : jstr) : hashSpaceFree l -> endFree l.
Proof.
  intros Hl i Hocc.
  change END_MARK with ([HASH; SPACE] ++ lit "END FILTERS") in Hocc.
  apply occurs_prefix_pat, occurs_lookup in Hocc as [Hi Hocc].
  pose proof (Hocc 0%nat HASH eq_refl) as H0.
  pose proof (Hocc 1%nat SPACE eq_refl) as H1.
  rewrite Nat.add_0_r in H0. rewrite Nat.add_1_r in H1.
  by apply (Hl _ H0).
Qed.

Lemma hashSpaceFree_no_hash (l : jstr) : HASH ∉ l -> hashSpaceFree l.
Proof.
  intros Hl n Hn. exfalso. apply Hl. by eapply list_elem_of_lookup_2.
Qed.

Lemma hashSpaceFree_no_space (l : jstr) : SPACE ∉ l -> hashSpaceFree l.
Proof.
  intros Hl n _ Hn. apply Hl. by eapply list_elem_of_lookup_2.
Qed.

(** Joining two pieces, the first of which does not end with [#]. *)
Lemma hashSpaceFree_app (a b : jstr) :
  hashSpaceFree a -> hashSpaceFree b -> List.last a 0%N <> HASH ->
  hashSpaceFree (a ++ b).
Proof.
  intros Ha Hb Hlast n Hn Hs.
  destruct (decide (S n < length a)%nat) as [Hin|Hout].
  { rewrite lookup_app_l in Hn by lia. rewrite lookup_app_l in Hs by lia.
    by apply (Ha n). }
  destruct (decide (length a <= n)%nat) as [Hr|Hl].
  { rewrite lookup_app_r in Hn by lia. rewrite lookup_app_r in Hs by lia.
    replace (S n - length a)%nat with (S (n - length a)) in Hs by lia.
    by apply (Hb (n - length a)%nat). }
  assert (Hn' : n = pred (length a)) by lia.
  rewrite lookup_app_l in Hn by lia. apply Hlast.
  destruct a as [|x a' _] using rev_ind; [simpl in *; lia|].
  rewrite last_last. rewrite length_app in Hn'. simpl in Hn'.
  rewrite lookup_app_r in Hn by lia.
  replace (n - length a')%nat with 0%nat in Hn by lia.
  by injection Hn.
Qed.

(** Joining two pieces, the second of which does not open with a
    blank. *)
Lemma hashSpaceFree_app_r (a b : jstr) :
  hashSpaceFree a -> hashSpaceFree b -> b !! 0%nat <> Some SPACE ->
  hashSpaceFree (a ++ b).
Proof.
  intros Ha Hb Hhead n Hn Hs.
  destruct (decide (S n < length a)%nat) as [Hin|Hout].
  { rewrite lookup_app_l in Hn by lia. rewrite lookup_app_l in Hs by lia.
    by apply (Ha n). }
  destruct (decide (length a <= n)%nat) as [Hr|Hl].
  { rewrite lookup_app_r in Hn by lia. rewrite lookup_app_r in Hs by lia.
    replace (S n - length a)%nat with (S (n - length a)) in Hs by lia.
    by apply (Hb (n - length a)%nat). }
  rewrite lookup_app_r in Hs by lia.
  by replace (S n - length a)%nat with 0%nat in Hs by lia.
Qed.

Lemma escapeQuote_no_space (x : jstr) : noWs x -> SPACE ∉ escapeQuote x.
Proof.
  induction 1 as [|c x Hc _ IH]; [by apply not_elem_of_nil|].
  unfold escapeQuote. cbn [flat_map]. rewrite elem_of_app.
  intros [Hin|Hin]; [|done].
  destruct (N.eqb c DQUOTE).
  - apply elem_of_cons in Hin as [Hin|Hin]; [done|].
    apply list_elem_of_singleton in Hin. done.
  - apply list_elem_of_singleton in Hin. subst c. done.
Qed.

Lemma quoted_no_space (x : jstr) : noWs x -> SPACE ∉ quoted x.
Proof.
  intros Hx. unfold quoted. rewrite !elem_of_app.
  intros [Hin|[Hin|Hin]].
  - by apply list_elem_of_singleton in Hin.
  - by apply (escapeQuote_no_space x).
  - by apply list_elem_of_singleton in Hin.
Qed.

Lemma quoted_last (x : jstr) : List.last (quoted x) 0%N = DQUOTE.
Proof.
  unfold quoted. rewrite app_assoc. apply last_last.
Qed.

Lemma join_hashSpaceFree (entries : list jstr) :
  Forall (fun e => (SPACE ∉ e) /\ List.last e 0%N <> HASH) entries ->
  hashSpaceFree (JS.join (lit ", ") entries).
Proof.
  induction 1 as [|e es [He Hlast] Hes IH].
  { intros n Hn. done. }
  destruct es as [|e' es]; [by apply hashSpaceFree_no_space|].
  rewrite join_cons by done.
  apply hashSpaceFree_app; [by apply hashSpaceFree_no_space| |done].
  apply hashSpaceFree_app; [|done|done].
  apply hashSpaceFree_no_hash.
  apply (bool_decide_unpack _). vm_compute. exact I.
Qed.

Lemma clauseOf_hashSpaceFree (entries : list jstr) :
  Forall (fun e => (SPACE ∉ e) /\ List.last e 0%N <> HASH) entries ->
  hashSpaceFree (clauseOf entries).
Proof.
  intros He. unfold clauseOf.
  apply hashSpaceFree_app; [| |done].
  - apply hashSpaceFree_no_hash.
    apply (bool_decide_unpack _). vm_compute. exact I.
  - apply hashSpaceFree_app_r; [by apply join_hashSpaceFree| |done].
    apply hashSpaceFree_no_hash.
    apply (bool_decide_unpack _). vm_compute. exact I.
Qed.

(** A state line: it opens with [# X] for an [X] other than [E], and
    holds no other [#]. *)
Lemma state_line_endFree (lead payload : jstr) :
  lead !! 0%nat = Some HASH ->
  (exists c, lead !! 2%nat = Some c /\ c <> 69%N) ->
  HASH ∉ drop 1 lead -> HASH ∉ payload ->
  endFree (lead ++ payload).
Proof.
  intros H0 (c & H2 & Hc) Hlead Hpay i Hocc.
  apply occurs_lookup in Hocc as [Hi Hocc].
  pose proof (Hocc 0%nat HASH eq_refl) as Hh. rewrite Nat.add_0_r in Hh.
  pose proof (Hocc 2%nat 69%N eq_refl) as He.
  assert (Hz : Z.to_nat i = 0%nat).
  { destruct (Z.to_nat i) as [|n] eqn:En; [done|]. exfalso.
    destruct (decide (S n < length lead)%nat) as [Hin|Hout].
    - rewrite lookup_app_l in Hh by done. apply Hlead.
      apply (list_elem_of_lookup_2 _ n). by rewrite lookup_drop.
    - rewrite lookup_app_r in Hh by lia. apply Hpay.
      by eapply list_elem_of_lookup_2. }
  rewrite Hz in He. cbn [Nat.add] in He.
  rewrite (lookup_app_l_Some _ _ _ _ H2) in He. congruence.
Qed.

Section BodyLines.
Context `{Host}.

Lemma clauseLine_hashSpaceFree (allTags : list jstr) (modes : MatchSettings)
    (part : jstr) :
  Forall noWs allTags -> noWs part ->
  hashSpaceFree (clauseLine allTags modes part).
Proof.
  intros Htags Hpart.
  destruct (clauseLine_spec allTags modes part Hpart) as [Heq _].
  rewrite Heq. apply clauseOf_hashSpaceFree, Forall_app. split.
  - destruct (JS.truthy (JS.stripHash part)); [|constructor].
    constructor; [|constructor]. split.
    + by apply quoted_no_space, stripHash_noWs.
    + by rewrite quoted_last.
  - apply Forall_forall. intros q Hq.
    apply list_elem_of_In, in_map_iff in Hq as (t & <- & Ht).
    apply list_elem_of_In in Ht. split; [|by rewrite quoted_last].
    apply quoted_no_space.
    rewrite Forall_forall in Htags. apply Htags.
    apply elem_of_take in Ht as (i & Ht & _).
    apply list_elem_of_lookup_2 in Ht.
    by eapply tokenTiers_subset, fresh_subset.
Qed.

(** The lines of a generated body before its two state lines, for any
    property of the two fixed lines and of the clauses. *)
Lemma body_lines_with (P : jstr -> Prop) (s : jstr) (c : N)
    (allTags : list jstr) (modes : MatchSettings) :
  P (lit "filters:") -> P (lit "  and:") ->
  (forall part, noWs part -> P (clauseLine allTags modes part)) ->
  exists pre,
    buildFiltersFromInput s allTags (Some c) modes
    = JS.join NL (pre ++ [inputLine s; caretLine c])
    /\ Forall P pre.
Proof.
  intros Pf Pa Pc. unfold buildFiltersFromInput.
  destruct (length (JS.trim s) =? 0)%nat.
  - exists [lit "filters:"]. split; [reflexivity|]. by constructor.
  - exists ([lit "filters:"; lit "  and:"]
            ++ List.map (clauseLine allTags modes)
                 (List.filter JS.truthy (JS.splitWs (JS.trim s)))).
    split; [by rewrite <- app_assoc|].
    apply Forall_app. split; [constructor; [done|constructor; [done|constructor]]|].
    apply Forall_forall. intros l Hl.
    apply list_elem_of_In, in_map_iff in Hl as (t & <- & Ht).
    apply list_elem_of_In in Ht.
    pose proof (tokens_noWs (JS.trim s)) as Htok.
    rewrite Forall_forall in Htok. destruct (Htok t Ht) as [_ Hws].
    by apply Pc.
Qed.

End BodyLines.

Lemma HASH_not_in_fence : HASH ∉ FENCE_START.
Proof. apply (bool_decide_unpack _). vm_compute. exact I. Qed.

Lemma occurs_here (pat rest : jstr) : occurs (pat ++ rest) pat 0.
Proof. split; [lia|]. simpl. apply startsWith_app. by exists rest. Qed.

Lemma occurs_at_split (s pat : jstr) (i : Z) :
  occurs s pat i ->
  exists rest, s = take (Z.to_nat i) s ++ pat ++ rest.
Proof.
  intros [Hi [rest Hrest]%startsWith_app]. exists rest.
  rewrite <- Hrest. by rewrite take_drop.
Qed.

Lemma indexOf_some_occurrence (s pat : jstr) (pos j : Z) :
  0 <= pos <= len s -> pos <= j -> occurs s pat j ->
  exists r, firstFrom s pat pos r.
Proof.
  intros Hpos Hj Hocc. exists (JS.indexOf s pat pos).
  apply indexOf_firstFrom; [done..|]. intros Hn.
  apply (indexOf_absent s pat pos Hn j); [|done].
  unfold clampPos. lia.
Qed.

(** The region written over a located region whose end marker precedes
    the fence close is located again, at the same start, provided the
    end marker does not occur in what is written before it. *)
Lemma spliced_located (text : jstr) (info : BaseBlockInfo) (body : jstr) :
  findBaseBlock text = Some info -> nested info ->
  (forall rest i, i < len (BEGIN_MARK ++ NL ++ body ++ NL) ->
     ~ occurs ((BEGIN_MARK ++ NL ++ body ++ NL) ++ END_MARK ++ rest)
         END_MARK i) ->
  exists r,
    findBaseBlock (spliceFilters text info body) = Some r
    /\ start r = start info
    /\ filtersStart r = filtersStart info
    /\ filtersEnd r
       = filtersStart info
         + len (BEGIN_MARK ++ NL ++ body ++ NL ++ END_MARK)
    /\ JS.slice (spliceFilters text info body) (filtersStart r)
         (filtersEnd r)
       = BEGIN_MARK ++ NL ++ body ++ NL ++ END_MARK
    /\ (tickFree (BEGIN_MARK ++ NL ++ body ++ NL ++ END_MARK) -> nested r).
Proof.
  intros Hloc Hnest Hend.
  destruct (findBaseBlock_Some _ _ Hloc) as (Hf & Hfe & Hb & He & Hord).
  destruct (findBaseBlock_offsets _ _ Hloc) as (Ho1 & Ho2 & Ho3 & Ho4).
  unfold nested in Hnest.
  set (f := start info) in *. set (b := filtersStart info) in *.
  set (e := filtersEnd info) in *. set (fe := end_ info - 4) in *.
  change (len END_MARK) with 13 in *. change (len FENCE_START) with 7 in *.
  set (before := take (Z.to_nat b) text).
  set (after := drop (Z.to_nat e) text).
  set (Y := BEGIN_MARK ++ NL ++ body ++ NL).
  assert (Hlb : len before = b).
  { unfold before, len. rewrite length_take. unfold len in *. lia. }
  assert (Hnew : spliceFilters text info body = before ++ Y ++ END_MARK ++ after).
  { unfold spliceFilters. cbv zeta. fold b e.
    rewrite slice_prefix by lia. rewrite sliceFrom_suffix by lia.
    unfold Y. by rewrite <- !app_assoc. }
  destruct (occurs_at_split _ _ _ (proj1 (proj2 Hb))) as [tailOld Hold].
  fold before in Hold.
  set (A := before ++ BEGIN_MARK).
  set (tailNew := NL ++ body ++ NL ++ END_MARK ++ after).
  assert (HoldA : text = A ++ tailOld) by (unfold A; by rewrite <- app_assoc).
  assert (HnewA : before ++ Y ++ END_MARK ++ after = A ++ tailNew).
  { unfold A, Y, tailNew. by rewrite <- !app_assoc. }
  assert (HlA : len A = b + 61).
  { unfold A. rewrite len_app, Hlb. reflexivity. }
  assert (Htransfer : forall p i, i + len p <= b + 61 ->
            occurs (A ++ tailNew) p i <-> occurs text p i).
  { intros p i Hi. rewrite HoldA.
    rewrite !occurs_app_l by lia. done. }
  (* the fence token ends before the begin marker *)
  assert (Hfb : f + 7 <= b).
  { destruct (decide (f + 7 <= b)) as [|Hover]; [done|]. exfalso.
    apply HASH_not_in_fence.
    apply (occurs_covers text FENCE_START f (Z.to_nat b) HASH
             (proj1 (proj2 Hf))).
    - destruct Hb as (_ & Hob & _). apply occurs_lookup in Hob as [_ Hob].
      pose proof (Hob 0%nat HASH eq_refl) as H0.
      by rewrite Nat.add_0_r in H0.
    - change (length FENCE_START) with 7%nat. lia. }
  assert (HlY : 0 <= len Y) by apply len_nonneg.
  assert (Hlen : len (A ++ tailNew) = b + len Y + 13 + len after).
  { rewrite <- HnewA. rewrite !len_app, Hlb.
    change (len END_MARK) with 13. lia. }
  pose proof (len_nonneg after) as Hla.
  (* the four searches in the new text *)
  assert (Hf' : firstFrom (A ++ tailNew) FENCE_START 0 f).
  { split; [lia|]. split.
    - apply Htransfer; [change (len FENCE_START) with 7; lia | apply Hf].
    - intros j Hj Hocc. destruct Hf as (_ & _ & Hmin). apply (Hmin j Hj).
      apply Htransfer; [change (len FENCE_START) with 7; lia | done]. }
  assert (Hfe' : exists fe', firstFrom (A ++ tailNew) FENCE_CLOSE (f + 7) fe').
  { apply (indexOf_some_occurrence _ _ _ (b + len Y + 13 + (fe - e)));
      [lia | lia |].
    rewrite <- HnewA.
    replace (before ++ Y ++ END_MARK ++ after)
      with ((before ++ Y ++ END_MARK) ++ after)
      by (by rewrite <- !app_assoc).
    replace (b + len Y + 13 + (fe - e))
      with (len (before ++ Y ++ END_MARK) + (fe - e))
      by (rewrite !len_app, Hlb; change (len END_MARK) with 13; lia).
    apply occurs_app_r; [lia|].
    destruct Hfe as (_ & Hofe & _).
    rewrite <- (take_drop (Z.to_nat e) text) in Hofe. fold after in Hofe.
    replace fe with (len (take (Z.to_nat e) text) + (fe - e)) in Hofe.
    - apply occurs_app_r in Hofe; [done | lia].
    - unfold len. rewrite length_take. unfold len in *. lia. }
  destruct Hfe' as [fe' Hfe'].
  assert (Hb' : firstFrom (A ++ tailNew) BEGIN_MARK f b).
  { split; [lia|]. split.
    - rewrite <- HnewA. replace b with (len before + 0) by lia.
      apply occurs_app_r; [lia|]. unfold Y. rewrite <- !app_assoc.
      apply occurs_here.
    - intros j Hj Hocc. destruct Hb as (_ & _ & Hmin). apply (Hmin j Hj).
      apply Htransfer; [change (len BEGIN_MARK) with 61; lia | done]. }
  assert (He' : firstFrom (A ++ tailNew) END_MARK f (b + len Y)).
  { split; [lia|]. split.
    - rewrite <- HnewA.
      replace (before ++ Y ++ END_MARK ++ after)
        with ((before ++ Y) ++ END_MARK ++ after)
        by (by rewrite <- !app_assoc).
      replace (b + len Y) with (len (before ++ Y) + 0)
        by (rewrite len_app, Hlb; lia).
      apply occurs_app_r; [lia|]. apply occurs_here.
    - intros j Hj Hocc.
      destruct (decide (j < b)) as [Hlt|Hge].
      + destruct He as (_ & _ & Hmin). apply (Hmin j); [lia|].
        apply Htransfer; [change (len END_MARK) with 13; lia | done].
      + apply (Hend after (j - b)); [unfold Y in *; lia|].
        rewrite <- HnewA in Hocc.
        replace j with (len before + (j - b)) in Hocc by lia.
        apply occurs_app_r in Hocc; [|lia].
        unfold Y in Hocc. by rewrite <- !app_assoc in Hocc |- *. }
  exists {| start := f; end_ := fe' + 4; filtersStart := b;
            filtersEnd := b + len Y + len END_MARK |}.
  rewrite Hnew, HnewA. cbn [start filtersStart filtersEnd].
  split; [apply findBaseBlock_intro; done || lia|].
  split; [done|]. split; [done|]. split; [|split].
  - unfold Y. rewrite !len_app. lia.
  - rewrite <- HnewA. rewrite slice_mid by (change (len END_MARK) with 13; lia).
    replace (Z.to_nat (b + len Y + len END_MARK))
      with (length (before ++ Y ++ END_MARK))
      by (rewrite !length_app; unfold len in *; lia).
    replace (before ++ Y ++ END_MARK ++ after)
      with ((before ++ Y ++ END_MARK) ++ after)
      by (by rewrite <- !app_assoc).
    rewrite take_app_length.
    replace (Z.to_nat b) with (length before) by (unfold len in *; lia).
    rewrite drop_app_length. unfold Y. by rewrite <- !app_assoc.
  - intros Htick. unfold nested. cbn [filtersEnd end_].
    change (len END_MARK) with 13.
    destruct (decide (b + len Y + 13 <= fe')) as [|Hearly]; [lia|].
    exfalso. destruct Hfe' as (Hfe1 & Hfe2 & _).
    (* the end marker of the old text lies after its begin marker *)
    assert (Hbe : b + 61 <= e - 13).
    { destruct (decide (b + 61 <= e - 13)) as [|Hover]; [done|]. exfalso.
      destruct Hb as (_ & Hob & _), He as (_ & Hoe & _).
      apply occurs_lookup in Hob as [_ Hob].
      apply occurs_lookup in Hoe as [_ Hoe].
      assert (Hat : forall k c, END_MARK !! k = Some c ->
                BEGIN_MARK !! (Z.to_nat (e - 13) - Z.to_nat b + k)%nat
                = Some c \/ (61 <= Z.to_nat (e - 13) - Z.to_nat b + k)%nat).
      { intros k c Hk.
        destruct (decide (61 <= Z.to_nat (e - 13) - Z.to_nat b + k)%nat)
          as [|Hin]; [by right | left].
        destruct (lookup_lt_is_Some_2 BEGIN_MARK
                    (Z.to_nat (e - 13) - Z.to_nat b + k)%nat) as [c' Hc'].
        { change (length BEGIN_MARK) with 61%nat. lia. }
        pose proof (Hob _ _ Hc') as H1.
        replace (Z.to_nat b + (Z.to_nat (e - 13) - Z.to_nat b + k))%nat
          with (Z.to_nat (e - 13) + k)%nat in H1 by lia.
        rewrite (Hoe _ _ Hk) in H1. congruence. }
      destruct (Hat 0%nat HASH eq_refl) as [H0|H0]; [|lia].
      rewrite Nat.add_0_r in H0. apply BEGIN_hash_first in H0.
      destruct (Hat 2%nat 69%N eq_refl) as [H2|H2]; [|lia].
      rewrite H0 in H2. discriminate H2. }
    destruct (decide (fe' + 4 <= b + 61)) as [Hin|Hout].
    + destruct Hfe as (_ & _ & Hmin). apply (Hmin fe'); [lia|].
      apply Htransfer; [change (len FENCE_CLOSE) with 4; lia | done].
    + apply occurs_lookup in Hfe2 as [_ Hfe2].
      pose proof (Hfe2 0%nat 10%N eq_refl) as H0.
      pose proof (Hfe2 1%nat 96%N eq_refl) as H1.
      rewrite Nat.add_0_r in H0. rewrite Nat.add_1_r in H1.
      rewrite <- HnewA in H0, H1.
      assert (HlX : len (Y ++ END_MARK) = len Y + 13)
        by (rewrite len_app; reflexivity).
      replace (before ++ Y ++ END_MARK ++ after)
        with (before ++ (Y ++ END_MARK) ++ after) in H0, H1
        by (by rewrite <- !app_assoc).
      rewrite lookup_app_r in H0 by (unfold len in *; lia).
      rewrite lookup_app_r in H1 by (unfold len in *; lia).
      rewrite lookup_app_l in H0 by (unfold len in *; lia).
      assert (Hlast : (S (Z.to_nat fe' - length before)
                       < length (Y ++ END_MARK))%nat).
      { destruct (decide (S (Z.to_nat fe' - length before)
                          < length (Y ++ END_MARK))%nat) as [|Hl]; [done|].
        exfalso.
        assert (Hidx : (Z.to_nat fe' - length before
                        = length Y + 12)%nat) by (unfold len in *; lia).
        rewrite Hidx in H0. rewrite lookup_app_r in H0 by lia.
        replace (length Y + 12 - length Y)%nat with 12%nat in H0 by lia.
        discriminate H0. }
      replace (S (Z.to_nat fe') - length before)%nat
        with (S (Z.to_nat fe' - length before)) in H1
        by (unfold len in *; lia).
      rewrite lookup_app_l in H1 by done.
      apply (Htick (Z.to_nat fe' - length before)%nat).
      * unfold Y in H0. by rewrite <- !app_assoc in H0.
      * unfold Y in H1. by rewrite <- !app_assoc in H1.
Qed.

Lemma digits_no_hash (d : jstr) :
  Forall (fun c => JS.isDigit c = true) d -> HASH ∉ d.
Proof.
  intros Hd Hin. rewrite Forall_forall in Hd. by specialize (Hd _ Hin).
Qed.

Lemma encodeState_no_hash (s : jstr) :
  Uri.isWellFormed s = true -> HASH ∉ encodeState s.
Proof.
  intros Hwf Hin. destruct (encodeState_encoded s Hwf) as [Halpha _].
  rewrite Forall_forall in Halpha.
  destruct (isEncoded_safe _ (Halpha _ Hin)) as (_ & Hh & _). done.
Qed.

Lemma includes_false_endFree (l : jstr) :
  JS.includes l END_MARK = false -> endFree l.
Proof. intros Hl i. by apply includes_false_occurs. Qed.

Section ReadBack.
Context `{Host}.

(** The state lines are read back from a region that holds a generated
    body. *)
Lemma segment_state (s : jstr) (c : N) (allTags : list jstr)
    (modes : MatchSettings) (doc : jstr) (r : BaseBlockInfo) :
  Uri.isWellFormed s = true -> s <> [] ->
  Forall noLT allTags ->
  findBaseBlock doc = Some r ->
  JS.slice doc (filtersStart r) (filtersEnd r)
  = BEGIN_MARK ++ NL ++ buildFiltersFromInput s allTags (Some c) modes
    ++ NL ++ END_MARK ->
  extractSavedState doc = Some {| input := s; caret := c |}.
Proof.
  intros Hwf Hne Htags Hloc Hseg.
  destruct (encodeState_encoded s Hwf) as [Halpha Hene].
  pose proof (encoded_noWs _ Halpha) as Hws.
  destruct (body_lines Regex.inputPattern _ s c allTags modes
              inputPattern_literal Htags) as (pre & Hbody & Hpre).
  destruct (body_lines Regex.caretPattern _ s c allTags modes
              caretPattern_literal Htags) as (pre' & Hbody' & Hpre').
  assert (Hin : Regex.matchInput (JS.slice doc (filtersStart r) (filtersEnd r))
                = Some (encodeState s)).
  { rewrite Hseg, Hbody. rewrite (proj1 (segment_lines pre _ _)).
    apply searchLines_lines; [|by intros; apply inputPattern_hit; auto|done].
    constructor; [exact BEGIN_misses_input | exact Hpre]. }
  assert (Hca : Regex.matchCaret (JS.slice doc (filtersStart r) (filtersEnd r))
                = Some (JS.numToString c)).
  { rewrite Hseg, Hbody'. rewrite (proj2 (segment_lines pre' _ _)).
    apply searchLines_lines; [| |done].
    - constructor; [exact BEGIN_misses_caret|].
      apply Forall_app. split; [exact Hpre'|].
      constructor; [|constructor].
      by apply inputLine_misses_caret, noWs_noLT.
    - intros rest. apply caretPattern_hit;
        [apply numToString_nonempty | apply numToString_digits]. }
  unfold extractSavedState. rewrite Hloc. cbv zeta. rewrite Hin, Hca.
  rewrite (trim_noWs _ Hws), (decodeState_encodeState s Hwf).
  by rewrite parseDigits_numToString.
Qed.

(** In the region written for an input, the end marker written last is
    the first one. *)
Lemma body_END_first (s : jstr) (c : N) (allTags : list jstr)
    (modes : MatchSettings) :
  Uri.isWellFormed s = true -> Forall noWs allTags ->
  forall rest i,
    i < len (BEGIN_MARK ++ NL
             ++ buildFiltersFromInput s allTags (Some c) modes ++ NL) ->
    ~ occurs ((BEGIN_MARK ++ NL
               ++ buildFiltersFromInput s allTags (Some c) modes ++ NL)
              ++ END_MARK ++ rest) END_MARK i.
Proof.
  intros Hwf Htags rest i.
  destruct (body_lines_with endFree s c allTags modes) as (pre & Hbody & Hpre).
  { apply includes_false_endFree. vm_compute. reflexivity. }
  { apply includes_false_endFree. vm_compute. reflexivity. }
  { intros part Hpart.
    by apply hashSpaceFree_endFree, clauseLine_hashSpaceFree. }
  rewrite Hbody.
  replace (BEGIN_MARK ++ NL
           ++ JS.join NL (pre ++ [inputLine s; caretLine c]) ++ NL)
    with (JS.join NL (BEGIN_MARK :: pre ++ [inputLine s; caretLine c]) ++ NL).
  - apply END_first_after_lines.
    constructor; [apply includes_false_endFree; vm_compute; reflexivity|].
    apply Forall_app. split; [done|].
    constructor; [|constructor; [|constructor]].
    + apply state_line_endFree; [done | by exists 73%N | |].
      * apply (bool_decide_unpack _). vm_compute. exact I.
      * by apply encodeState_no_hash.
    + apply state_line_endFree; [done | by exists 67%N | |].
      * apply (bool_decide_unpack _). vm_compute. exact I.
      * apply digits_no_hash, numToString_digits.
  - rewrite join_cons by (by destruct pre). by rewrite <- !app_assoc.
Qed.

End ReadBack.

Lemma digit_facts (c : N) :
  JS.isDigit c = true ->
  JS.isWhiteSpace c = false /\ Regex.notLineTerminator c = true
  /\ c <> PERCENT.
Proof.
  unfold JS.isDigit, JS.isWhiteSpace, Regex.notLineTerminator,
    JS.isLineTerminator, PERCENT.
  intros Hc. split; [nbool; lia|]. split; [|nbool; lia].
  apply negb_true_iff. nbool. lia.
Qed.

(** Lines that hold no line break and do not open with a backtick,
    joined: no line break is followed by a backtick. *)
Lemma join_tickFree (ls : list jstr) :
  Forall (fun l => noLT l /\ l !! 0%nat <> Some 96%N) ls ->
  tickFree (JS.join NL ls) /\ JS.join NL ls !! 0%nat <> Some 96%N.
Proof.
  induction 1 as [|l ls [Hl Hhead] Hls [IH IHhead]].
  { split; [intros n Hn; done | done]. }
  assert (Hfree : forall n, l !! n <> Some 10%N).
  { intros n Hn. apply list_elem_of_lookup_2 in Hn.
    unfold noLT in Hl. rewrite Forall_forall in Hl.
    by specialize (Hl _ Hn). }
  destruct ls as [|l' ls].
  { split; [|done]. intros n Hn. by destruct (Hfree n). }
  rewrite join_cons by done. split.
  - intros n Hn Hs.
    destruct (decide (n < length l)%nat) as [Hin|Hout].
    { rewrite lookup_app_l in Hn by done. by destruct (Hfree n). }
    rewrite lookup_app_r in Hs by lia.
    destruct (decide (n = length l)) as [->|Hne].
    + replace (S (length l) - length l)%nat with 1%nat in Hs by lia.
      by apply IHhead.
    + rewrite lookup_app_r in Hn by lia.
      replace (n - length l)%nat with (S (n - length l - 1)) in Hn by lia.
      replace (S n - length l)%nat with (S (S (n - length l - 1))) in Hs
        by lia.
      by apply (IH (n - length l - 1)%nat).
  - destruct l as [|c l]; [done|]. exact Hhead.
Qed.

Section WriteCycles.
Context `{Host}.

Lemma clauseLine_head (allTags : list jstr) (modes : MatchSettings)
    (part : jstr) :
  clauseLine allTags modes part !! 0%nat = Some SPACE.
Proof. reflexivity. Qed.

(** The region written for an input has no line that opens with a
    backtick. *)
Lemma body_tickFree (s : jstr) (c : N) (allTags : list jstr)
    (modes : MatchSettings) :
  Uri.isWellFormed s = true -> Forall noWs allTags ->
  tickFree (BEGIN_MARK ++ NL
            ++ buildFiltersFromInput s allTags (Some c) modes
            ++ NL ++ END_MARK).
Proof.
  intros Hwf Htags.
  assert (Hlt : Forall noLT allTags)
    by (eapply Forall_impl; [exact Htags | apply noWs_noLT]).
  destruct (body_lines_with (fun l => noLT l /\ l !! 0%nat <> Some 96%N)
              s c allTags modes) as (pre & Hbody & Hpre).
  { split; [apply (bool_decide_unpack _); vm_compute; exact I | done]. }
  { split; [apply (bool_decide_unpack _); vm_compute; exact I | done]. }
  { intros part Hpart. split; [|by rewrite clauseLine_head].
    apply (clauseLine_misses Regex.inputPattern _ allTags modes part
             inputPattern_literal Hlt Hpart). }
  rewrite Hbody. rewrite (proj1 (segment_lines pre _ _)).
  apply join_tickFree.
  constructor; [split; [exact BEGIN_MARK_noLT | done]|].
  apply Forall_app. split; [done|].
  destruct (encodeState_encoded s Hwf) as [Halpha _].
  constructor; [|constructor; [|constructor; [|constructor]]].
  - split; [|done]. unfold inputLine. apply Forall_app. split.
    + apply (bool_decide_unpack _). vm_compute. exact I.
    + by apply noWs_noLT, encoded_noWs.
  - split; [|done]. unfold caretLine. apply Forall_app. split.
    + apply (bool_decide_unpack _). vm_compute. exact I.
    + apply noWs_noLT.
      eapply Forall_impl; [apply numToString_digits|]. intros d Hd.
      by destruct (digit_facts d Hd).
  - split; [apply (bool_decide_unpack _); vm_compute; exact I | done].
Qed.

(** The text a replace leaves: its block is located again with the end
    marker before the fence close, and holds the state written. *)
Lemma written_read_back (text : jstr) (info : BaseBlockInfo) (s : jstr)
    (c : N) (allTags : list jstr) (modes : MatchSettings) :
  findBaseBlock text = Some info -> nested info ->
  Uri.isWellFormed s = true -> s <> [] ->
  Forall noWs allTags ->
  let text' := spliceFilters text info
                 (buildFiltersFromInput s allTags (Some c) modes) in
  extractSavedState text' = Some {| input := s; caret := c |}
  /\ exists info', findBaseBlock text' = Some info' /\ nested info'.
Proof.
  intros Hloc Hnest Hwf Hne Htags text'.
  destruct (spliced_located text info
              (buildFiltersFromInput s allTags (Some c) modes) Hloc Hnest
              (body_END_first s c allTags modes Hwf Htags))
    as (r & Hr & _ & _ & _ & Hseg & Hnested).
  split.
  - apply (segment_state s c allTags modes _ r); try done.
    eapply Forall_impl; [exact Htags|]. apply noWs_noLT.
  - exists r. split; [done|]. by apply Hnested, body_tickFree.
Qed.

(** X20. What a replace writes into a located region whose end marker
    precedes the fence close is what [extractSavedState] reads from the
    new text: the input, if it is not empty and has no unpaired
    surrogate, and the caret, whatever the tags (free of white space)
    and the match settings. *)
Theorem X20_written_state_is_read_back (text : jstr)
    (info stale : BaseBlockInfo) (s : jstr) (c : N) (allTags : list jstr)
    (modes : MatchSettings) :
  findBaseBlock text = Some info -> nested info ->
  Uri.isWellFormed s = true -> s <> [] ->
  Forall noWs allTags ->
  extractSavedState
    (replaceFiltersText text stale
       (buildFiltersFromInput s allTags (Some c) modes))
  = Some {| input := s; caret := c |}.
Proof.
  intros Hloc Hnest Hwf Hne Htags.
  unfold replaceFiltersText. rewrite Hloc. cbn [default].
  by apply written_read_back.
Qed.

(** One write cycle on a ready note leaves it ready, with the state of
    the cycle in it. *)
Lemma write_cycle_step (vault : Vault) (path text : jstr) (c : Cycle) :
  vault !! path = Some text -> path <> [] -> ready text -> writable c ->
  let vault' := writeBack vault path (cValue c) (cSel c) (cTags c)
                  (cModes c) in
  (exists text', vault' !! path = Some text' /\ ready text'
     /\ extractSavedState text'
        = Some {| input := cValue c;
                  caret := caretNow (cValue c) (cSel c) |})
  /\ forall other, other <> path -> vault' !! other = vault !! other.
Proof.
  intros Hread Hpath Hcase (Hwf & Hne & Htags) vault'.
  assert (Hfound : exists vault1 text1 block,
            findOrInsertBaseBlock vault path = Some (vault1, Some block)
            /\ vault1 !! path = Some text1
            /\ findBaseBlock text1 = Some block /\ nested block
            /\ forall other, other <> path ->
                 vault1 !! other = vault !! other).
  { destruct Hcase as [Hfree|(info & Hloc & Hnest)].
    - destruct (insertedText_located text Hfree) as (Hins & HL & Hloc).
      eexists _, (insertedText text), _. split; [|split; [|split; [|split]]].
      + unfold findOrInsertBaseBlock. rewrite Hread.
        rewrite (proj2 (findBaseBlock_None text)) by (by left).
        cbv zeta. rewrite Hins, Hloc. reflexivity.
      + by rewrite lookup_insert_eq, Hins.
      + by rewrite Hins.
      + unfold nested. cbn [filtersEnd end_]. lia.
      + intros other Ho. by rewrite lookup_insert_ne.
    - exists vault, text, info. split; [|done].
      unfold findOrInsertBaseBlock. by rewrite Hread, Hloc. }
  destruct Hfound as (vault1 & text1 & block & Hfo & Hread1 & Hloc1 & Hnest1
                      & Hother1).
  assert (Hv : vault'
    = <[path := replaceFiltersText text1 block
                  (buildFiltersFromInput (cValue c) (cTags c)
                     (Some (caretNow (cValue c) (cSel c))) (cModes c))]>
        vault1).
  { subst vault'. unfold writeBack. destruct path as [|p path]; [done|].
    cbn [JS.truthy negb]. rewrite Hfo. cbv zeta.
    unfold replaceFiltersInBaseBlock. by rewrite Hread1. }
  rewrite Hv. split.
  - eexists. split; [by rewrite lookup_insert_eq|].
    unfold replaceFiltersText. rewrite Hloc1. cbn [default].
    destruct (written_read_back text1 block (cValue c)
                (caretNow (cValue c) (cSel c)) (cTags c) (cModes c)
                Hloc1 Hnest1 Hwf Hne Htags) as [Hstate Hready].
    split; [by right | done].
  - intros other Ho. rewrite lookup_insert_ne by done. by apply Hother1.
Qed.

(** X21. One write cycle with an input that is not empty and has no
    unpaired surrogate, and with tags free of white space, on a note
    that has no fence token or whose block is located with the end
    marker before the fence close: the note then holds a block from
    which the input and the caret of the cycle are read back, and the
    other notes are as before. *)
Theorem X21_write_cycle_persists (vault : Vault) (path text val : jstr)
    (sel : option N) (allTags : list jstr) (modes : MatchSettings) :
  vault !! path = Some text -> path <> [] -> ready text ->
  Uri.isWellFormed val = true -> val <> [] ->
  Forall noWs allTags ->
  let vault' := writeBack vault path val sel allTags modes in
  (exists text', vault' !! path = Some text'
     /\ extractSavedState text'
        = Some {| input := val; caret := caretNow val sel |})
  /\ forall other, other <> path -> vault' !! other = vault !! other.
Proof.
  intros Hread Hpath Hready Hwf Hne Htags vault'.
  destruct (write_cycle_step vault path text
              {| cValue := val; cSel := sel; cTags := allTags;
                 cModes := modes |} Hread Hpath Hready)
    as [(text' & Ht & _ & Hst) Hother]; [done|].
  split; [by exists text' | done].
Qed.

(** X23. Write cycles compose: after any run of cycles on a ready
    note, each with an input that is not empty and has no unpaired
    surrogate, the state read from the note is that of the last cycle,
    whatever the tag cache and the settings were at each cycle. *)
Theorem X23_last_cycle_is_read_back (vault : Vault) (path text : jstr)
    (cs : list Cycle) (c : Cycle) :
  vault !! path = Some text -> path <> [] -> ready text ->
  Forall writable (cs ++ [c]) ->
  (exists text', writeAll path (cs ++ [c]) vault !! path = Some text'
     /\ ready text'
     /\ extractSavedState text'
        = Some {| input := cValue c;
                  caret := caretNow (cValue c) (cSel c) |})
  /\ forall other, other <> path ->
       writeAll path (cs ++ [c]) vault !! other = vault !! other.
Proof.
  revert vault text. induction cs as [|c0 cs IH];
    intros vault text Hread Hpath Hready Hall.
  - apply Forall_cons in Hall as [Hc _].
    by apply (write_cycle_step vault path text c).
  - cbn [app] in Hall. apply Forall_cons in Hall as [Hc0 Hall].
    destruct (write_cycle_step vault path text c0 Hread Hpath Hready Hc0)
      as [(text1 & Hread1 & Hready1 & _) Hother1].
    destruct (IH _ text1 Hread1 Hpath Hready1 Hall) as [Hlast Hother].
    split; [exact Hlast|].
    intros other Ho.
    change (writeAll path ((c0 :: cs) ++ [c]) vault)
      with (writeAll path (cs ++ [c])
              (writeBack vault path (cValue c0) (cSel c0) (cTags c0)
                 (cModes c0))).
    rewrite (Hother other Ho). by apply Hother1.
Qed.

End WriteCycles.

(** ** The empty input *)

(** A CARET line is its own trimmed and decoded form. *)
Lemma caretLine_plain (n : N) :
  decodeState (JS.trim (caretLine n)) = caretLine n
  /\ Forall (fun c => Regex.notLineTerminator c = true) (caretLine n).
Proof.
  pose proof (numToString_digits n) as Hd.
  pose proof (numToString_nonempty n) as Hne.
  unfold caretLine.
  assert (Htrim : JS.trim (lit "# CARET: " ++ JS.numToString n)
                  = lit "# CARET: " ++ JS.numToString n).
  { unfold JS.trim, JS.trimEnd.
    change (JS.trimStart (lit "# CARET: " ++ JS.numToString n))
      with (lit "# CARET: " ++ JS.numToString n).
    rewrite rev_app_distr.
    destruct (JS.numToString n) as [|d ds] using rev_ind; [done|].
    rewrite rev_app_distr. cbn [rev app JS.trimStart].
    apply Forall_app in Hd as [_ Hd]. apply Forall_cons in Hd as [Hd _].
    destruct (digit_facts d Hd) as (-> & _).
    change (d :: rev ds ++ rev (lit "# CARET: "))
      with ([d] ++ rev ds ++ rev (lit "# CARET: ")).
    rewrite !rev_app_distr, !rev_involutive. by rewrite <- app_assoc. }
  split.
  - rewrite Htrim. unfold decodeState, Uri.decodeURIComponent.
    rewrite decodeLoop_plain; [done | done |].
    rewrite elem_of_app. intros [Hin|Hin].
    + revert Hin. apply (bool_decide_unpack _). vm_compute. exact I.
    + rewrite Forall_forall in Hd.
      by destruct (digit_facts _ (Hd _ Hin)) as (_ & _ & ?).
  - apply Forall_app. split.
    + apply (bool_decide_unpack _). vm_compute. exact I.
    + eapply Forall_impl; [exact Hd|]. intros c Hc.
      by destruct (digit_facts c Hc) as (_ & ? & _).
Qed.

(** With nothing after [INPUT:] the white space of the pattern runs
    over the line break, and the group is the next line. *)
Lemma inputPattern_empty_payload (next rest : jstr) :
  next <> [] ->
  Forall (fun c => Regex.notLineTerminator c = true) next ->
  match next with c :: _ => JS.isWhiteSpace c = false | [] => True end ->
  Regex.inputPattern (lit "# INPUT: " ++ NL ++ next ++ NL ++ rest)
  = Some next.
Proof.
  intros Hne Hnext Hhead. unfold Regex.inputPattern.
  change (lit "# INPUT: " ++ NL ++ next ++ NL ++ rest)
    with ([HASH] ++ SPACE :: lit "INPUT:"
            ++ SPACE :: 10%N :: (next ++ NL ++ rest)).
  rewrite literal_app. apply star_one; [reflexivity|].
  rewrite star_stop by reflexivity. rewrite literal_app.
  apply star_one; [reflexivity|]. apply star_one; [reflexivity|].
  rewrite star_stop by (by destruct next).
  by apply plusCapture_line.
Qed.

Section EmptyInput.
Context `{Host}.

Lemma empty_body (allTags : list jstr) (caret : option N)
    (modes : MatchSettings) :
  buildFiltersFromInput [] allTags caret modes
  = JS.join NL [lit "filters:"; lit "# INPUT: ";
                caretLine (default 0%N caret)].
Proof. reflexivity. Qed.

(** The state read from a region that holds the body of the empty
    input. *)
Lemma segment_state_empty (allTags : list jstr) (caret : option N)
    (modes : MatchSettings) (doc : jstr) (r : BaseBlockInfo) :
  findBaseBlock doc = Some r ->
  JS.slice doc (filtersStart r) (filtersEnd r)
  = BEGIN_MARK ++ NL ++ buildFiltersFromInput [] allTags caret modes
    ++ NL ++ END_MARK ->
  extractSavedState doc
  = Some {| input := caretLine (default 0%N caret);
            caret := default 0%N caret |}.
Proof.
  intros Hloc Hseg. rewrite empty_body in Hseg.
  set (n := default 0%N caret) in *.
  destruct (caretLine_plain n) as [Hplain Hnlt].
  assert (Hfil : misses Regex.inputPattern (lit "filters:")
                 /\ misses Regex.caretPattern (lit "filters:")).
  { split; (split; [|intros rest; reflexivity]);
      apply (bool_decide_unpack _); vm_compute; exact I. }
  assert (Hin : Regex.matchInput (JS.slice doc (filtersStart r) (filtersEnd r))
                = Some (caretLine n)).
  { rewrite Hseg. unfold Regex.matchInput.
    change (BEGIN_MARK ++ NL
            ++ JS.join NL [lit "filters:"; lit "# INPUT: "; caretLine n]
            ++ NL ++ END_MARK)
      with (BEGIN_MARK ++ NL ++ lit "filters:" ++ NL
            ++ (lit "# INPUT: " ++ NL ++ caretLine n ++ NL ++ END_MARK)).
    rewrite searchLines_skip;
      [|exact BEGIN_MARK_noLT | apply BEGIN_misses_input].
    rewrite searchLines_skip; [|apply Hfil | apply Hfil].
    apply searchLines_hit. by apply inputPattern_empty_payload. }
  assert (Hca : Regex.matchCaret (JS.slice doc (filtersStart r) (filtersEnd r))
                = Some (JS.numToString n)).
  { rewrite Hseg.
    change (BEGIN_MARK ++ NL
            ++ JS.join NL [lit "filters:"; lit "# INPUT: "; caretLine n]
            ++ NL ++ END_MARK)
      with (JS.join NL ([BEGIN_MARK; lit "filters:"; lit "# INPUT: " ++ []]
                        ++ caretLine n :: [END_MARK])).
    apply searchLines_lines; [| |done].
    - constructor; [exact BEGIN_misses_caret|].
      constructor; [apply Hfil|].
      constructor; [|constructor].
      apply inputLine_misses_caret. constructor.
    - intros rest. apply caretPattern_hit;
        [apply numToString_nonempty | apply numToString_digits]. }
  unfold extractSavedState. rewrite Hloc. cbv zeta. rewrite Hin, Hca.
  rewrite Hplain. by rewrite parseDigits_numToString.
Qed.

(** X22. The empty input is not restored: after a replace that writes
    the body generated for the empty input, [extractSavedState] answers
    the text of the CARET line as the input. *)
Theorem X22_empty_input_not_restored (text : jstr)
    (info stale : BaseBlockInfo) (caret : option N) (allTags : list jstr)
    (modes : MatchSettings) :
  findBaseBlock text = Some info -> nested info ->
  extractSavedState
    (replaceFiltersText text stale
       (buildFiltersFromInput [] allTags caret modes))
  = Some {| input := lit "# CARET: " ++ JS.numToString (default 0%N caret);
            caret := default 0%N caret |}.
Proof.
  intros Hloc Hnest. unfold replaceFiltersText. rewrite Hloc. cbn [default].
  assert (Hb : buildFiltersFromInput [] allTags caret modes
               = buildFiltersFromInput [] [] (Some (default 0%N caret)) modes)
    by reflexivity.
  destruct (spliced_located text info
              (buildFiltersFromInput [] allTags caret modes) Hloc Hnest)
    as (r & Hr & _ & _ & _ & Hseg & _).
  { rewrite Hb. apply body_END_first; [done | constructor]. }
  by apply (segment_state_empty allTags caret modes _ r).
Qed.

End EmptyInput.

(** X24. The block appended to a note without fence token holds no
    state: right after the insertion [extractSavedState] answers
    [null]. *)
Theorem X24_inserted_block_has_no_state (text : jstr) :
  noneFrom text FENCE_START 0 ->
  extractSavedState (insertedText text) = None.
Proof.
  intros Hfree.
  destruct (insertedText_located text Hfree) as (Hins & HL & Hloc).
  set (pre := text ++ (if JS.endsWith text NL then [] else NL)) in *.
  unfold extractSavedState. rewrite Hins, Hloc. cbv zeta.
  cbn [filtersStart filtersEnd].
  pose proof (len_nonneg pre).
  rewrite slice_mid by lia.
  replace (Z.to_nat (len pre + 121)) with (length pre + 121)%nat
    by (unfold len; lia).
  replace (Z.to_nat (len pre + 9)) with (length pre + 9)%nat
    by (unfold len; lia).
  rewrite take_app_add, drop_app_add.
  set (seg := drop 9 (take 121 template)).
  assert (Hi : Regex.matchInput seg = None) by (vm_compute; reflexivity).
  assert (Hc : Regex.matchCaret seg = None) by (vm_compute; reflexivity).
  by rewrite Hi, Hc.
Qed.

(** * The properties at concrete inputs *)

Lemma doc_plain_fence_free : noneFrom doc_plain FENCE_START 0.
Proof.
  apply indexOf_noneFrom; [split; [lia | apply len_nonneg]|].
  vm_compute. reflexivity.
Qed.

Lemma doc_template_located :
  findBaseBlock (doc_template (lit "filters:"))
  = Some {| start := 6; end_ := 122; filtersStart := 14; filtersEnd := 98 |}.
Proof. vm_compute. reflexivity. Qed.

Lemma sampleTags_noWs : Forall noWs sampleTags.
Proof. apply (bool_decide_unpack _). vm_compute. exact I. Qed.

Lemma doc_stray_end_stuck : stuck doc_stray_end.
Proof.
  assert (Hr : 0 <= 0 <= len doc_stray_end)
    by (split; [lia | apply len_nonneg]).
  exists 0, 12. split; [|split].
  - apply indexOf_firstFrom; [done | vm_compute; reflexivity | discriminate].
  - apply indexOf_firstFrom; [done | vm_compute; reflexivity | discriminate].
  - intros j Hj. apply (indexOf_noneFrom doc_stray_end BEGIN_MARK 0 Hr);
      [vm_compute; reflexivity | lia].
Qed.

Lemma X3_matchers_complete_witness :
  lit "projecta" ∈ @prefixMatch asciiHost sampleTags (lit "#Pro") 5.
Proof.
  refine (proj1 (@X3_matchers_complete asciiHost sampleTags (lit "#Pro") 5
                   (lit "projecta") _ _) _ _).
  - vm_compute. discriminate.
  - apply (bool_decide_unpack _). vm_compute. exact I.
  - vm_compute. lia.
  - exists (lit "jecta"). vm_compute. reflexivity.
Defined.

Lemma X4_substring_subsumes_witness :
  JS.includes (asciiLower (lit "projecta")) (lit "pro") = true.
Proof.
  refine (proj1 (@X4_substring_subsumes asciiHost sampleTags (lit "#Pro") 5 5
                   (lit "projecta") _)).
  left. apply (bool_decide_unpack _). vm_compute. exact I.
Defined.

Lemma X7_selectSuggestion_replaces_word_witness :
  exists before l r after,
    lit "#pr foo" = before ++ l ++ r ++ after
    /\ noWs r
    /\ (selectSuggestion (lit "#pr foo") (Some 3%N) (lit "#project")).1
         !! (length before + length (lit "#project"))%nat
       = Some SPACE.
Proof.
  destruct (X7_selectSuggestion_replaces_word (lit "#pr foo") (Some 3%N)
              (lit "#project"))
    as (before & l & r & after & Hval & _ & _ & _ & Hr & _ & _ & Hsp).
  - vm_compute. discriminate.
  - exists before, l, r, after. split; [exact Hval|].
    split; [exact Hr | exact Hsp].
Defined.

Lemma X8_pick_closes_suggestions_witness :
  @getSuggestions asciiHost sampleTags defaultSettings
    (selectSuggestion (lit "#pr") (Some 3%N) (lit "#project")).1
    (Some (Z.to_N (selectSuggestion (lit "#pr") (Some 3%N)
                     (lit "#project")).2))
  = [].
Proof.
  refine (proj2 (@X8_pick_closes_suggestions asciiHost sampleTags
                   defaultSettings (lit "#pr") (Some 3%N) (lit "#project") _)).
  vm_compute. reflexivity.
Defined.

Lemma X9_codec_round_trip_witness :
  decodeState (encodeState (lit "a b#")) = lit "a b#".
Proof.
  refine (proj1 (X9_codec_round_trip (lit "a b#") _)).
  vm_compute. reflexivity.
Defined.

Lemma X10_encode_fails_on_unpaired_witness :
  encodeState loneSurrogateInput = loneSurrogateInput.
Proof.
  refine (proj2 (X10_encode_fails_on_unpaired loneSurrogateInput _) _).
  - repeat (constructor; [reflexivity|]). constructor.
  - vm_compute. reflexivity.
Defined.

Lemma X11_decodeState_raw_witness :
  decodeState (lit "50" ++ PERCENT :: lit " off")
  = lit "50" ++ PERCENT :: lit " off".
Proof.
  refine (proj2 (proj2 (X11_decodeState_raw (lit "50") (lit " off") _) _)).
  - apply (bool_decide_unpack _). vm_compute. exact I.
  - vm_compute. reflexivity.
Defined.

Lemma X14_composition_one_cycle_witness :
  cycles (runUntil 2000
            (world (run [EvCompositionEnd; EvClock 300; EvFrame]
                      (run (EvCompositionStart :: composingEdits)
                         (mkWidget (freshWorld 0 defaultSettings) 0)))))
  = [lit "ka"].
Proof.
  refine (proj2 (proj2 (proj2 (proj2 (proj2 (proj2
            (X14_composition_one_cycle (freshWorld 0 defaultSettings) 0
               composingEdits 300 _ _)))))) 2000 _).
  - reflexivity.
  - repeat constructor.
  - vm_compute. intros E. discriminate E.
Defined.


Lemma X17_findOrInsert_answer_witness :
  findOrInsertBaseBlock (<[notePath := insertedText doc_plain]> plainVault)
    notePath
  = Some (<[notePath := insertedText doc_plain]> plainVault,
          findBaseBlock (insertedText doc_plain)).
Proof.
  destruct (X17_findOrInsert_answer plainVault
              (<[notePath := insertedText doc_plain]> plainVault) notePath
              (findBaseBlock (insertedText doc_plain)))
    as (text & suffix & _ & _ & _ & _ & _ & Hagain).
  - unfold findOrInsertBaseBlock, plainVault.
    rewrite lookup_singleton_eq.
    replace (findBaseBlock doc_plain) with (@None BaseBlockInfo)
      by (vm_compute; reflexivity).
    reflexivity.
  - apply Hagain. vm_compute. discriminate.
Defined.

Lemma X18_insert_into_plain_note_witness :
  findOrInsertBaseBlock plainVault notePath
  = Some (<[notePath := insertedText doc_plain]> plainVault,
          Some {| start := 23; end_ := 227; filtersStart := 31;
                  filtersEnd := 143 |}).
Proof.
  exact (proj1 (X18_insert_into_plain_note plainVault notePath doc_plain
                  (lookup_singleton_eq _ _) doc_plain_fence_free)).
Defined.

Lemma X19_stray_end_marker_loops_witness :
  findOrInsertBaseBlock {[ notePath := doc_stray_end ]} notePath
  = Some (<[notePath := insertedText doc_stray_end]>
            {[ notePath := doc_stray_end ]}, None).
Proof.
  exact (proj1 (X19_stray_end_marker_loops {[ notePath := doc_stray_end ]}
                  notePath doc_stray_end (lookup_singleton_eq _ _)
                  doc_stray_end_stuck)).
Defined.

Lemma X20_written_state_is_read_back_witness :
  extractSavedState
    (replaceFiltersText (doc_template (lit "filters:"))
       {| start := 0; end_ := 0; filtersStart := 0; filtersEnd := 0 |}
       (@buildFiltersFromInput asciiHost (lit "#proj a%b") sampleTags
          (Some 5%N) defaultSettings))
  = Some {| input := lit "#proj a%b"; caret := 5%N |}.
Proof.
  refine (@X20_written_state_is_read_back asciiHost _
            {| start := 6; end_ := 122; filtersStart := 14; filtersEnd := 98 |}
            _ _ _ _ _ doc_template_located _ _ _ sampleTags_noWs).
  - unfold nested. simpl. lia.
  - vm_compute. reflexivity.
  - discriminate.
Defined.

Lemma X21_write_cycle_persists_witness :
  exists text',
    @writeBack asciiHost plainVault notePath (lit "#proj a") None sampleTags
      defaultSettings !! notePath = Some text'
    /\ extractSavedState text'
       = Some {| input := lit "#proj a";
                 caret := caretNow (lit "#proj a") None |}.
Proof.
  refine (proj1 (@X21_write_cycle_persists asciiHost plainVault notePath
                   doc_plain (lit "#proj a") None sampleTags defaultSettings
                   (lookup_singleton_eq _ _) _ _ _ _ sampleTags_noWs)).
  - discriminate.
  - left. exact doc_plain_fence_free.
  - vm_compute. reflexivity.
  - discriminate.
Defined.

Lemma X22_empty_input_not_restored_witness :
  extractSavedState
    (replaceFiltersText (doc_template (lit "filters:"))
       {| start := 0; end_ := 0; filtersStart := 0; filtersEnd := 0 |}
       (@buildFiltersFromInput asciiHost [] sampleTags (Some 0%N)
          defaultSettings))
  = Some {| input := lit "# CARET: 0"; caret := 0%N |}.
Proof.
  refine (@X22_empty_input_not_restored asciiHost _
            {| start := 6; end_ := 122; filtersStart := 14; filtersEnd := 98 |}
            _ (Some 0%N) sampleTags defaultSettings doc_template_located _).
  unfold nested. simpl. lia.
Defined.

Lemma X23_last_cycle_is_read_back_witness :
  exists text',
    @writeAll asciiHost notePath (sampleCycles ++ [lastCycle]) plainVault
      !! notePath = Some text'
    /\ ready text'
    /\ extractSavedState text'
       = Some {| input := lit "#proj a";
                 caret := caretNow (lit "#proj a") None |}.
Proof.
  refine (proj1 (@X23_last_cycle_is_read_back asciiHost plainVault notePath
                   doc_plain sampleCycles lastCycle
                   (lookup_singleton_eq _ _) _ _ _)).
  - discriminate.
  - left. exact doc_plain_fence_free.
  - repeat constructor; try discriminate; try exact sampleTags_noWs.
Defined.

Lemma X24_inserted_block_has_no_state_witness :
  extractSavedState (insertedText doc_plain) = None.
Proof.
  exact (X24_inserted_block_has_no_state doc_plain doc_plain_fence_free).
Defined.
